(** * Free monoidal categories: diagrams, interchange and normal forms

    A shallow embedding of [discopy/moncat.py]: types ([Ty]) as lists of
    objects, diagrams as a domain, a codomain, a list of boxes and a list of
    integer offsets, the validating constructor, composition, tensor,
    dagger, the interchange rewrite, the normalisation procedure, slicing
    and depth, and monoidal functors with the flattening functor.

    Python integers are [Z]; Python exceptions are the constructors of
    [error], threaded through the [result] monad. *)

From Stdlib Require Import String.
From Stdlib Require Import List ZArith Bool Lia Permutation.
Import ListNotations.
Local Open Scope Z_scope.

Set Warnings "-register-all".

(* ================================================================= *)
(** ** Objects and types *)

(** Modelled from the spec: [cat.Ob] is defined in [discopy/cat.py], which
    is not part of the sources at hand.  An atomic object is a name, and
    equality is equality of names. *)
Record Ob : Set := mkOb { name : string }.

Definition Ob_eqb (a b : Ob) : bool := String.eqb (name a) (name b).

(** [Ty]: a type is the list [objects] of its atomic objects. *)
Definition Ty : Set := list Ob.

(** [Ty.__eq__]: types are equal when their lists of objects are. *)
Fixpoint Ty_eqb (s t : Ty) : bool :=
  match s, t with
  | [], [] => true
  | a :: s', b :: t' => Ob_eqb a b && Ty_eqb s' t'
  | _, _ => false
  end.

(** [Ty.__len__] *)
Definition len {A : Type} (l : list A) : Z := Z.of_nat (List.length l).

(** [Ty.__matmul__] and [Ty.__add__] are concatenation of the object lists;
    [Ty.__pow__] iterates it ([sum(n * (self,), Ty())]). *)
Definition Ty_tensor (s t : Ty) : Ty := s ++ t.

Fixpoint Ty_sum (ts : list Ty) (start : Ty) : Ty :=
  match ts with
  | [] => start
  | t :: ts' => Ty_sum ts' (Ty_tensor start t)
  end.

Definition Ty_pow (t : Ty) (n : Z) : Ty := Ty_sum (repeat t (Z.to_nat n)) [].

(* ================================================================= *)
(** ** Python slices *)

(** The bound of a slice of a sequence of length [n]: a negative bound
    counts from the end, and every bound is clamped to [0 .. n]. *)
Definition clamp (n i : Z) : Z :=
  if i <? 0 then Z.max (i + n) 0 else Z.min i n.

(** [l[lo:hi]], where [None] stands for an omitted bound. *)
Definition slice {A : Type} (l : list A) (lo hi : option Z) : list A :=
  let n := len l in
  let a := match lo with None => 0 | Some i => clamp n i end in
  let b := match hi with None => n | Some j => clamp n j end in
  firstn (Z.to_nat (b - a)) (skipn (Z.to_nat a) l).

(** [range(n)] *)
Definition range (n : Z) : list Z := map Z.of_nat (seq 0 (Z.to_nat n)).

(* ================================================================= *)
(** ** Diagrams *)

(** A [Diagram] object is either an atomic [Box] (name, dom, cod, data and
    the [_dagger] flag) or a general diagram carrying [dom], [cod], [_boxes]
    and [_offsets].  The boxes of a diagram are diagrams themselves.  The
    payload [data] is never inspected by the code. *)
Inductive Diagram : Set :=
| Box (nm : string) (bdom bcod : Ty) (data : option string) (_dagger : bool)
| MkDiagram (ddom dcod : Ty) (_boxes : list Diagram) (_offsets : list Z).

Definition dom (d : Diagram) : Ty :=
  match d with
  | Box _ x _ _ _ => x
  | MkDiagram x _ _ _ => x
  end.

Definition cod (d : Diagram) : Ty :=
  match d with
  | Box _ _ y _ _ => y
  | MkDiagram _ y _ _ => y
  end.

(** [Box.__init__] ends with [Diagram.__init__(self, dom, cod, [self], [0])]:
    a box is the diagram made of itself at offset 0. *)
Definition boxes (d : Diagram) : list Diagram :=
  match d with
  | Box _ _ _ _ _ => [d]
  | MkDiagram _ _ bs _ => bs
  end.

Definition offsets (d : Diagram) : list Z :=
  match d with
  | Box _ _ _ _ _ => [0]
  | MkDiagram _ _ _ os => os
  end.

(** Modelled from the spec: [cat.Diagram.__len__] is defined in
    [discopy/cat.py]; the length of a diagram is its number of boxes. *)
Definition Diagram_len (d : Diagram) : Z := len (boxes d).

(* ================================================================= *)
(** ** Exceptions *)

Inductive error : Set :=
| ValueError_lengths
    (* "Boxes and offsets must have the same length." *)
| IndexError_range (n : Z) (ij : Z * Z)
    (* "Expected indices in range(n), got (i, j) instead." *)
| IndexError_list
    (* "list index out of range" *)
| AxiomError_domain (expected got : Ty)
    (* "Domain {} expected, got {} instead." *)
| AxiomError_codomain (expected got : Ty)
    (* "Codomain {} expected, got {} instead." *)
| AxiomError_compose (left_cod right_dom : Ty)
    (* raised by the sequential composition of [cat.Diagram] *)
| InterchangerError (box0 box1 : Diagram)
    (* "Boxes {} and {} do not commute." *)
| NotImplementedError (d : Diagram).
    (* "Diagram {} is not connected." *)

(** The class hierarchy: [InterchangerError] derives from [AxiomError]. *)
Definition is_AxiomError (e : error) : bool :=
  match e with
  | AxiomError_domain _ _ | AxiomError_codomain _ _
  | AxiomError_compose _ _ | InterchangerError _ _ => true
  | _ => false
  end.

Definition is_InterchangerError (e : error) : bool :=
  match e with
  | InterchangerError _ _ => true
  | _ => false
  end.

Definition is_IndexError (e : error) : bool :=
  match e with
  | IndexError_range _ _ | IndexError_list => true
  | _ => false
  end.

Inductive result (A : Type) : Type :=
| Ok (a : A)
| Err (e : error).

Arguments Ok {A} a.
Arguments Err {A} e.

Definition bind {A B : Type} (r : result A) (k : A -> result B) : result B :=
  match r with
  | Ok a => k a
  | Err e => Err e
  end.

Notation "x <- r ;; k" := (bind r (fun x => k))
  (at level 61, r at next level, right associativity).

(** [l[i]]: a negative index counts from the end. *)
Definition getitem {A : Type} (l : list A) (i : Z) : result A :=
  let k := if i <? 0 then i + len l else i in
  if k <? 0 then Err IndexError_list
  else match nth_error l (Z.to_nat k) with
       | Some a => Ok a
       | None => Err IndexError_list
       end.

(** A [for] loop over [l] whose body may raise. *)
Fixpoint for_each {A S : Type} (l : list A) (s : S)
    (body : S -> A -> result S) : result S :=
  match l with
  | [] => Ok s
  | a :: l' => s' <- body s a ;; for_each l' s' body
  end.

(* ================================================================= *)
(** ** Construction and axiom checking *)

(** The body of the [for box, off in zip(boxes, offsets)] loop of
    [Diagram.__init__], from the scan type [scan] on. *)
Fixpoint check_scan (scan : Ty) (bs : list Diagram) (os : list Z)
  : result Ty :=
  match bs, os with
  | box :: bs', off :: os' =>
      let got := slice scan (Some off) (Some (off + len (dom box))) in
      if negb (Ty_eqb got (dom box))
      then Err (AxiomError_domain got (dom box))
      else check_scan
             (slice scan None (Some off) ++ cod box
                ++ slice scan (Some (off + len (dom box))) None)
             bs' os'
  | _, _ => Ok scan
  end.

(** [Diagram.__init__(dom, cod, boxes, offsets, _fast)] *)
Definition Diagram_init (dom0 cod0 : Ty) (bs : list Diagram) (os : list Z)
    (_fast : bool) : result Diagram :=
  if negb (len bs =? len os) then Err ValueError_lengths
  else if negb _fast then
    scan <- check_scan dom0 bs os ;;
    if negb (Ty_eqb scan cod0)
    then Err (AxiomError_codomain cod0 scan)
    else Ok (MkDiagram dom0 cod0 bs os)
  else Ok (MkDiagram dom0 cod0 bs os).

(** [Id(x)] *)
Definition Id (x : Ty) : result Diagram := Diagram_init x x [] [] true.

(* ================================================================= *)
(** ** Equality of diagrams *)

(** Modelled from the spec: [cat.Box.__repr__] is defined in
    [discopy/cat.py].  Two atomic boxes are equal iff their printed
    signatures (name, dom, cod, dagger flag) match. *)
Definition Box_signature_eqb (n : string) (x y : Ty) (dg : bool)
    (n' : string) (x' y' : Ty) (dg' : bool) : bool :=
  String.eqb n n' && Ty_eqb x x' && Ty_eqb y y' && Bool.eqb dg dg'.

Fixpoint offsets_eqb (os os' : list Z) : bool :=
  match os, os' with
  | [], [] => true
  | o :: t, o' :: t' => (o =? o') && offsets_eqb t t'
  | _, _ => false
  end.

(** [Box.__eq__(self, other)] where [self] is the box with the signature
    [n x y dg]: against a box, the printed forms are compared; against a
    general diagram, [(other.boxes, other.offsets) == ([self], [0])].  The
    comparison of the single element of [other.boxes] with [self] is again
    handled by [Box.__eq__], as [Box] is a subclass of [Diagram] that
    overrides [__eq__]. *)
Fixpoint Box_eq (n : string) (x y : Ty) (dg : bool) (other : Diagram)
  : bool :=
  match other with
  | Box n' x' y' _ dg' => Box_signature_eqb n x y dg n' x' y' dg'
  | MkDiagram _ _ bs os =>
      match bs with
      | [b] => Box_eq n x y dg b
      | _ => false
      end && offsets_eqb os [0]
  end.

(** [self == other] on diagrams.  When one side is a [Box], [Box.__eq__]
    decides (directly, or as the reflected method of the subclass);
    otherwise [Diagram.__eq__] compares [dom], [cod], [boxes] and
    [offsets].  An [Id] is a diagram without boxes: against a box both
    methods answer [False], so nothing depends on which one is asked. *)
Fixpoint Diagram_eq (self other : Diagram) {struct self} : bool :=
  match self with
  | Box n x y _ dg => Box_eq n x y dg other
  | MkDiagram x y bs os =>
      match other with
      | Box n' x' y' _ dg' => Box_eq n' x' y' dg' self
      | MkDiagram x' y' bs' os' =>
          Ty_eqb x x' && Ty_eqb y y'
          && (fix boxes_eq (l l' : list Diagram) {struct l} : bool :=
                match l, l' with
                | [], [] => true
                | b :: t, b' :: t' => Diagram_eq b b' && boxes_eq t t'
                | _, _ => false
                end) bs bs'
          && offsets_eqb os os'
      end
  end.

(* ================================================================= *)
(** ** Composition, tensor and dagger *)

(** [Diagram.tensor] *)
Definition tensor (self other : Diagram) : result Diagram :=
  let dom0 := Ty_tensor (dom self) (dom other) in
  let cod0 := Ty_tensor (cod self) (cod other) in
  let bs := boxes self ++ boxes other in
  let os := offsets self ++ map (fun n => n + len (cod self)) (offsets other) in
  Diagram_init dom0 cod0 bs os true.

(** Modelled from the spec: [cat.Diagram.then] is defined in
    [discopy/cat.py].  Sequential composition requires
    [self.cod == other.dom] (an axiom error otherwise) and concatenates the
    boxes, over [self.dom -> other.cod]. *)
Definition cat_then (self other : Diagram)
  : result (Ty * Ty * list Diagram) :=
  if negb (Ty_eqb (cod self) (dom other))
  then Err (AxiomError_compose (cod self) (dom other))
  else Ok (dom self, cod other, boxes self ++ boxes other).

(** [Diagram.then] *)
Definition then_ (self other : Diagram) : result Diagram :=
  r <- cat_then self other ;;
  let '(rdom, rcod, rboxes) := r in
  Diagram_init rdom rcod rboxes (offsets self ++ offsets other) true.

(** [Diagram.dagger].  The comprehension
    [[f.dagger() for f in self.boxes[::-1]]] visits the boxes from the last
    one to the first one.

    Modelled from the spec: [cat.Box.dagger] is defined in
    [discopy/cat.py].  The dagger of an atomic box exchanges its domain and
    codomain and flips its dagger flag. *)
Fixpoint dagger (self : Diagram) : result Diagram :=
  match self with
  | Box n x y data dg => Ok (Box n y x data (negb dg))
  | MkDiagram x y bs os =>
      bs' <- (fix dagger_reversed (l : list Diagram)
                : result (list Diagram) :=
                match l with
                | [] => Ok []
                | f :: t =>
                    r <- dagger_reversed t ;;
                    f' <- dagger f ;;
                    Ok (r ++ [f'])
                end) bs ;;
      Diagram_init y x bs' (rev os) true
  end.

(* ================================================================= *)
(** ** Interchange *)

(** The two disjointness tests of [interchange], tried in the order that
    [left] selects, and the adjusted pair of offsets. *)
Definition commute_offsets (left : bool) (box0 box1 : Diagram)
    (off0 off1 : Z) : result (Z * Z) :=
  if left && (off1 >=? off0 + len (cod box0))
  then Ok (off0, off1 - len (cod box0) + len (dom box0))
  else if off0 >=? off1 + len (dom box1)          (* box0 right of box1 *)
  then Ok (off0 - len (dom box1) + len (cod box1), off1)
  else if off1 >=? off0 + len (cod box0)          (* box0 left of box1 *)
  then Ok (off0, off1 - len (cod box0) + len (dom box0))
  else Err (InterchangerError box0 box1).

(** The body of [Diagram.interchange], with [recurse] standing for the
    method itself in the two loops that walk a box over several
    positions. *)
Definition interchange_body
    (recurse : Diagram -> Z -> Z -> bool -> result Diagram)
    (self : Diagram) (i j : Z) (left : bool) : result Diagram :=
  let n := Diagram_len self in
  if negb ((0 <=? i) && (i <? n)) || negb ((0 <=? j) && (j <? n))
  then Err (IndexError_range n (i, j))
  else if i =? j then Ok self
  else if j <? i - 1 then
    for_each (range (i - j)) self
      (fun result k => recurse result (i - k) (i - k - 1) false)
  else if j >? i + 1 then
    for_each (range (j - i)) self
      (fun result k => recurse result (i + k) (i + k + 1) false)
  else
    let '(i, j) := if j <? i then (j, i) else (i, j) in
    box0 <- getitem (boxes self) i ;;
    box1 <- getitem (boxes self) j ;;
    off0 <- getitem (offsets self) i ;;
    off1 <- getitem (offsets self) j ;;
    offs <- commute_offsets left box0 box1 off0 off1 ;;
    let '(off0, off1) := offs in
    Diagram_init (dom self) (cod self)
      (slice (boxes self) None (Some i) ++ [box1; box0]
         ++ slice (boxes self) (Some (i + 2)) None)
      (slice (offsets self) None (Some i) ++ [off1; off0]
         ++ slice (offsets self) (Some (i + 2)) None)
      true.

(** The recursive calls of [interchange] are on adjacent positions, which
    the method handles without calling itself again: one unfolding of the
    recursion is all of it (see [interchange_unfold]). *)
Definition interchange_adjacent : Diagram -> Z -> Z -> bool -> result Diagram :=
  interchange_body (fun _ _ _ _ => Err IndexError_list).

(** [Diagram.interchange(self, i, j, left=False)] *)
Definition interchange : Diagram -> Z -> Z -> bool -> result Diagram :=
  interchange_body interchange_adjacent.

(** The diagram that an adjacent interchange builds once the two boxes
    have been found to commute. *)
Definition swapped (d : Diagram) (bs1 : list Diagram) (box0 box1 : Diagram)
    (bs2 : list Diagram) (os1 : list Z) (offs : Z * Z) (os2 : list Z)
  : Diagram :=
  MkDiagram (dom d) (cod d) (bs1 ++ box1 :: box0 :: bs2)
            (os1 ++ snd offs :: fst offs :: os2).

(* ================================================================= *)
(** ** Normalisation *)

(** The [for i in range(len(diagram) - 1)] loop of [normalize]: it returns
    the value of the variable [diagram] when the loop is left, which is the
    interchanged diagram after a [break] and the diagram it started from
    when the loop runs to its end. *)
Fixpoint normalize_scan (left : bool) (diagram : Diagram) (indices : list Z)
  : result Diagram :=
  match indices with
  | [] => Ok diagram
  | i :: rest =>
      box0 <- getitem (boxes diagram) i ;;
      box1 <- getitem (boxes diagram) (i + 1) ;;
      off0 <- getitem (offsets diagram) i ;;
      off1 <- getitem (offsets diagram) (i + 1) ;;
      if (left && (off1 >=? off0 + len (cod box0)))
         || (negb left && (off0 >=? off1 + len (dom box1)))
      then
        match interchange diagram i (i + 1) left with
        | Ok d => Ok d                                    (* break *)
        | Err e =>
            if is_InterchangerError e
            then normalize_scan left diagram rest         (* pass *)
            else Err e
        end
      else normalize_scan left diagram rest
  end.

(** One round of the [while True] loop of [normalize], from the current
    value of [diagram]: [Ok (Some d)] when the generator yields [d] (and
    goes on from [d]), [Ok None] when it returns. *)
Definition normalize_next (left : bool) (diagram : Diagram)
  : result (option Diagram) :=
  let before := diagram in
  d <- normalize_scan left diagram (range (Diagram_len diagram - 1)) ;;
  if Diagram_eq d before then Ok None else Ok (Some d).

Section NormalForm.

(** [Diagram.__hash__] is [hash(repr(self))]: some function of the
    diagram. *)
Variable hash : Diagram -> Z.

(** [_diagram in cache]: an element of the set with the same hash that is
    equal to [_diagram]. *)
Definition in_cache (_diagram : Diagram) (cache : list Diagram) : bool :=
  existsb (fun e => (hash e =? hash _diagram) && Diagram_eq e _diagram)
          cache.

(** The [for _diagram in self.normalize(left=left)] loop of [normal_form];
    [fuel] bounds the number of diagrams pulled from the generator, and
    [None] is returned when it does not suffice. *)
Fixpoint normal_form_loop (fuel : nat) (left : bool) (self diagram : Diagram)
    (cache : list Diagram) : option (result Diagram) :=
  match fuel with
  | O => None
  | S fuel' =>
      match normalize_next left diagram with
      | Err e => Some (Err e)
      | Ok None => Some (Ok diagram)
      | Ok (Some _diagram) =>
          if in_cache _diagram cache
          then Some (Err (NotImplementedError self))
          else normal_form_loop fuel' left self _diagram (_diagram :: cache)
      end
  end.

(** [Diagram.normal_form(self, left=False)] *)
Definition normal_form (fuel : nat) (self : Diagram) (left : bool)
  : option (result Diagram) :=
  normal_form_loop fuel left self self [].

End NormalForm.

(* ================================================================= *)
(** ** The spiral *)

(** The types and boxes that [_spiral] builds first. *)
Module Spiral.
Definition x : Ty := [mkOb "x"].
Definition unit : Diagram := Box "unit" [] x None false.
Definition counit : Diagram := Box "counit" x [] None false.
Definition cup : Diagram := Box "cup" (Ty_tensor x x) [] None false.
Definition cap : Diagram := Box "cap" [] (Ty_tensor x x) None false.
End Spiral.

(** [Id(a) @ box @ Id(b)] *)
Definition whisker (a : Ty) (box : Diagram) (b : Ty) : result Diagram :=
  ida <- Id a ;;
  l <- tensor ida box ;;
  idb <- Id b ;;
  tensor l idb.

(** [_spiral(n_cups)] *)
Definition _spiral (n_cups : Z) : result Diagram :=
  result <- for_each (range n_cups) Spiral.unit
              (fun result i =>
                 layer <- whisker (Ty_pow Spiral.x i) Spiral.cap
                                  (Ty_pow Spiral.x (i + 1)) ;;
                 then_ result layer) ;;
  layer <- whisker (Ty_pow Spiral.x n_cups) Spiral.counit
                   (Ty_pow Spiral.x n_cups) ;;
  result <- then_ result layer ;;
  for_each (range n_cups) result
    (fun result i =>
       layer <- whisker (Ty_pow Spiral.x (n_cups - i - 1)) Spiral.cup
                        (Ty_pow Spiral.x (n_cups - i - 1)) ;;
       then_ result layer).

(* ================================================================= *)
(** ** The scan simulation of the well-formedness invariant *)

(** The sub-type of the scan type that a box placed at [off] faces, and the
    scan type once the box has replaced it by its codomain. *)
Definition sub_type (scan : Ty) (box : Diagram) (off : Z) : Ty :=
  slice scan (Some off) (Some (off + len (dom box))).

Definition replace_sub_type (scan : Ty) (box : Diagram) (off : Z) : Ty :=
  slice scan None (Some off) ++ cod box
    ++ slice scan (Some (off + len (dom box))) None.

(** The scan type after the pairs [(box, off)], in order. *)
Fixpoint scan_after (scan : Ty) (bs : list Diagram) (os : list Z) : Ty :=
  match bs, os with
  | box :: bs', off :: os' => scan_after (replace_sub_type scan box off) bs' os'
  | _, _ => scan
  end.

(** Every box finds its domain at its offset. *)
Fixpoint all_match (scan : Ty) (bs : list Diagram) (os : list Z) : bool :=
  match bs, os with
  | box :: bs', off :: os' =>
      Ty_eqb (sub_type scan box off) (dom box)
      && all_match (replace_sub_type scan box off) bs' os'
  | _, _ => true
  end.

(** A diagram is well formed when the validating constructor accepts its
    four components. *)
Definition well_formed (d : Diagram) : Prop :=
  Diagram_init (dom d) (cod d) (boxes d) (offsets d) false
  = Ok (MkDiagram (dom d) (cod d) (boxes d) (offsets d)).

(* ================================================================= *)
(** ** The class invariant *)

(** [Diagram.__init__] refuses boxes and offsets of different lengths, on
    the fast path too: every diagram object, and every diagram among its
    boxes, has as many offsets as boxes. *)
Fixpoint Diagram_valid (d : Diagram) : bool :=
  match d with
  | Box _ _ _ _ _ => true
  | MkDiagram _ _ bs os => (len bs =? len os) && forallb Diagram_valid bs
  end.

(** The comprehension of [dagger], by name. *)
Definition dagger_reversed : list Diagram -> result (list Diagram) :=
  fix dagger_reversed (l : list Diagram) : result (list Diagram) :=
    match l with
    | [] => Ok []
    | f :: t =>
        r <- dagger_reversed t ;;
        f' <- dagger f ;;
        Ok (r ++ [f'])
    end.

(* ================================================================= *)
(** ** Offsets inside the scan type *)

(** The scan simulation of the constructor with one more test at each
    pair: the offset is not negative and the window [off .. off +
    len(box.dom)] lies inside the scan type.  (A Python slice clamps its
    bounds, so the constructor also accepts a box of empty domain at an
    offset beyond the end of the scan type, or at a negative offset.) *)
Fixpoint strict_scan (scan : Ty) (bs : list Diagram) (os : list Z)
  : option Ty :=
  match bs, os with
  | [], [] => Some scan
  | box :: bs', off :: os' =>
      if (0 <=? off) && (off + len (dom box) <=? len scan)
         && Ty_eqb (sub_type scan box off) (dom box)
      then strict_scan (replace_sub_type scan box off) bs' os'
      else None
  | _, _ => None
  end.

Definition in_range_well_formed (d : Diagram) : Prop :=
  strict_scan (dom d) (boxes d) (offsets d) = Some (cod d).

(** The same simulation as a relation: a box at offset [len l] rewrites
    [l ++ box.dom ++ r] into [l ++ box.cod ++ r]. *)
Inductive scans : Ty -> list Diagram -> list Z -> Ty -> Prop :=
| scans_nil (s : Ty) : scans s [] [] s
| scans_cons (l r : Ty) (box : Diagram) (bs : list Diagram) (os : list Z)
    (s' : Ty) :
    scans (l ++ cod box ++ r) bs os s' ->
    scans (l ++ dom box ++ r) (box :: bs) (len l :: os) s'.

(** A state [s : () -> y] placed at offset 5 of the empty type, the
    identity of [x], and their tensor. *)
Definition state_far : Diagram :=
  MkDiagram [] [mkOb "y"] [Box "s" [] [mkOb "y"] None false] [5].
Definition id_x : Diagram := MkDiagram [mkOb "x"] [mkOb "x"] [] [].
Definition state_far_tensor_id : Diagram :=
  MkDiagram [mkOb "x"] [mkOb "y"; mkOb "x"]
            [Box "s" [] [mkOb "y"] None false] [5].

(* ================================================================= *)
(** ** The sequence of [normalize] and the visited set *)

(** [yields left d ds dn]: started on [d], the generator [normalize] yields
    the diagrams [ds], in this order, and then stands at [dn]. *)
Inductive yields (left : bool) : Diagram -> list Diagram -> Diagram -> Prop :=
| yields_nil (d : Diagram) : yields left d [] d
| yields_cons (d d1 : Diagram) (ds : list Diagram) (dn : Diagram) :
    normalize_next left d = Ok (Some d1) ->
    yields left d1 ds dn ->
    yields left d (d1 :: ds) dn.

(** No diagram of [ds] is found in the visited set when it is yielded, the
    set being [cache] at first. *)
Fixpoint no_recurrence (hash : Diagram -> Z) (cache ds : list Diagram)
  : bool :=
  match ds with
  | [] => true
  | d :: ds' =>
      negb (in_cache hash d cache) && no_recurrence hash (d :: cache) ds'
  end.

(** Two scalars of the same name, side by side, and two scalars of
    different names. *)
Definition scalar (n : string) : Diagram := Box n [] [] None false.
Definition two_equal_scalars : Diagram :=
  MkDiagram [] [] [scalar "s"; scalar "s"] [0; 0].
Definition s0_s1 : Diagram :=
  MkDiagram [] [] [scalar "s0"; scalar "s1"] [0; 0].
Definition s1_s0 : Diagram :=
  MkDiagram [] [] [scalar "s1"; scalar "s0"] [0; 0].

(** The shape that [normal_form] gives to the spiral of size [n]: the [n]
    caps, the unit, the [n] cups and the counit. *)
Definition spiral_normal_shape (n : nat) : list Diagram :=
  repeat Spiral.cap n ++ Spiral.unit :: repeat Spiral.cup n
    ++ [Spiral.counit].

Definition spiral_normalises (hash : Diagram -> Z) (n : nat) : Prop :=
  exists d nf,
    _spiral (Z.of_nat n) = Ok d
    /\ normal_form hash 1000 d false = Some (Ok nf)
    /\ boxes nf = spiral_normal_shape n
    /\ nth_error (boxes nf) n = Some Spiral.unit
    /\ nth_error (boxes nf) (2 * n + 1) = Some Spiral.counit
    /\ length (boxes nf) = (2 * n + 2)%nat.

(* ================================================================= *)
(** ** Slicing and depth *)

(** [range(a, b)] *)
Definition range_from (a b : Z) : list Z :=
  map (fun k => a + Z.of_nat k) (seq 0 (Z.to_nat (b - a))).

(** The body of the first [for] loop of [slice]: try to bring the box at
    position [j] down to position [i]; count the boxes that came. *)
Definition slice_pull (i : Z) (state : Diagram * Z) (j : Z)
  : result (Diagram * Z) :=
  let '(diagram, n_boxes) := state in
  match interchange diagram j i false with
  | Ok d => Ok (d, n_boxes + 1)
  | Err e => if is_InterchangerError e then Ok (diagram, n_boxes) else Err e
  end.

(** The body of the second [for] loop of [slice]: the codomain of the
    layer, box after box. *)
Definition slice_cod (diagram : Diagram) (cod0 : Ty) (j : Z) : result Ty :=
  box <- getitem (boxes diagram) j ;;
  off <- getitem (offsets diagram) j ;;
  Ok (slice cod0 None (Some off) ++ cod box
        ++ slice cod0 (Some (off + len (dom box))) None).

(** One round of the [while i < len(diagram)] loop of [slice], on the
    variables [diagram], [i], [slices] and [cod]. *)
Definition slice_round (diagram : Diagram) (i : Z) (slices : list Diagram)
    (cod0 : Ty) : result (Diagram * Z * list Diagram * Ty) :=
  let dom0 := cod0 in
  st <- for_each (range_from (i + 1) (Diagram_len diagram)) (diagram, 0)
          (slice_pull i) ;;
  let '(diagram, n_boxes) := st in
  cod1 <- for_each (range_from i (i + n_boxes + 1)) cod0
            (slice_cod diagram) ;;
  layer <- Diagram_init dom0 cod1
             (slice (boxes diagram) (Some i) (Some (i + n_boxes + 1)))
             (slice (offsets diagram) (Some i) (Some (i + n_boxes + 1)))
             true ;;
  Ok (diagram, i + n_boxes + 1, slices ++ [layer], cod1).

(** The [while] loop of [slice]; [None] when [fuel] rounds do not
    suffice. *)
Fixpoint slice_loop (fuel : nat) (diagram : Diagram) (i : Z)
    (slices : list Diagram) (cod0 : Ty) : option (result (list Diagram)) :=
  match fuel with
  | O => None
  | S fuel' =>
      if i <? Diagram_len diagram then
        match slice_round diagram i slices cod0 with
        | Err e => Some (Err e)
        | Ok (diagram', i', slices', cod1) =>
            slice_loop fuel' diagram' i' slices' cod1
        end
      else Some (Ok slices)
  end.

(** [Diagram.slice] *)
Definition Diagram_slice (fuel : nat) (self : Diagram)
  : option (result Diagram) :=
  match slice_loop fuel self 0 [] (dom self) with
  | None => None
  | Some (Err e) => Some (Err e)
  | Some (Ok slices) =>
      Some (Diagram_init (dom self) (cod self) slices
              (repeat 0 (length slices)) true)
  end.

(** [Diagram.depth] *)
Definition depth (fuel : nat) (self : Diagram) : option (result Z) :=
  match Diagram_slice fuel self with
  | None => None
  | Some (Err e) => Some (Err e)
  | Some (Ok s) => Some (Ok (Diagram_len s))
  end.

(** What [slice] keeps of a layer: it is not empty, it has as many offsets
    as boxes, and its codomain is the scan type after its boxes. *)
Definition layer_ok (l : Diagram) : Prop :=
  1 <= Diagram_len l
  /\ length (boxes l) = length (offsets l)
  /\ cod l = scan_after (dom l) (boxes l) (offsets l).

(** The layers follow one another from the type [s] to the type [e]. *)
Fixpoint layers_chain (s : Ty) (ls : list Diagram) (e : Ty) : Prop :=
  match ls with
  | [] => s = e
  | l :: t => dom l = s /\ layers_chain (cod l) t e
  end.

(** What a round of [slice] keeps of the diagram [g] it starts from, the
    positions below [i] included. *)
Definition slice_rel (i : Z) (g g' : Diagram) : Prop :=
  length (boxes g') = length (offsets g')
  /\ dom g' = dom g /\ cod g' = cod g
  /\ Permutation (boxes g) (boxes g')
  /\ (in_range_well_formed g -> in_range_well_formed g')
  /\ firstn (Z.to_nat i) (boxes g') = firstn (Z.to_nat i) (boxes g)
  /\ firstn (Z.to_nat i) (offsets g') = firstn (Z.to_nat i) (offsets g)
  /\ Diagram_len g' = Diagram_len g.

(** The invariant of the [while] loop of [slice] on [d]. *)
Definition slice_inv (d diagram : Diagram) (i : Z) (slices : list Diagram)
    (c : Ty) : Prop :=
  length (boxes diagram) = length (offsets diagram)
  /\ dom diagram = dom d /\ cod diagram = cod d
  /\ Permutation (boxes d) (boxes diagram)
  /\ (in_range_well_formed d -> in_range_well_formed diagram)
  /\ 0 <= i <= Diagram_len diagram
  /\ concat (map boxes slices) = firstn (Z.to_nat i) (boxes diagram)
  /\ concat (map offsets slices) = firstn (Z.to_nat i) (offsets diagram)
  /\ Forall layer_ok slices
  /\ layers_chain (dom d) slices c.

(* ================================================================= *)
(** ** Monoidal functors *)

(** A list comprehension whose element expression may raise. *)
Fixpoint comprehension {A B : Type} (f : A -> result B) (l : list A)
  : result (list B) :=
  match l with
  | [] => Ok []
  | a :: l' => b <- f a ;; bs <- comprehension f l' ;; Ok (b :: bs)
  end.

Section Functor.

(** [cat.Functor], the base class, is defined in [discopy/cat.py], which
    is not part of the sources at hand.  What [MonoidalFunctor.__call__]
    uses of it is taken as given: [ob_getitem x] stands for the lookup
    [self.ob[self.ob_cls(x)]], and [box_call f] for
    [super().__call__(f)], the image of an atomic box. *)
Variable ob_getitem : Ob -> result Ty.
Variable box_call : Diagram -> result Diagram.

(** [MonoidalFunctor.__call__] on a type *)
Definition functor_ty (t : Ty) : result Ty :=
  images <- comprehension ob_getitem t ;;
  Ok (Ty_sum images []).

(** [MonoidalFunctor.__call__] on a diagram: an atomic box goes to the
    base class; for a general diagram, the [for box, off in zip(...)] loop
    runs from [scan = diagram.dom] and [result = Id(self(diagram.dom))]
    (the variable [result] is [acc] here),
    and calls the functor again on every box. *)
Fixpoint functor_call (diagram : Diagram) : result Diagram :=
  match diagram with
  | Box _ _ _ _ _ => box_call diagram
  | MkDiagram ddom _ bs os =>
      fdom <- functor_ty ddom ;;
      result0 <- Id fdom ;;
      (fix loop (bs : list Diagram) (os : list Z) (scan : Ty)
           (acc : Diagram) {struct bs} : result Diagram :=
         match bs, os with
         | box :: bs', off :: os' =>
             tl <- functor_ty (slice scan None (Some off)) ;;
             id_l <- Id tl ;;
             tr <- functor_ty
                     (slice scan (Some (off + len (dom box))) None) ;;
             id_r <- Id tr ;;
             fbox <- functor_call box ;;
             l <- tensor id_l fbox ;;
             layer <- tensor l id_r ;;
             result' <- then_ acc layer ;;
             loop bs' os'
               (slice scan None (Some off) ++ cod box
                  ++ slice scan (Some (off + len (dom box))) None)
               result'
         | _, _ => Ok acc
         end) bs os ddom result0
  end.

(** The loop of [functor_call], by name. *)
Definition functor_loop
  : list Diagram -> list Z -> Ty -> Diagram -> result Diagram :=
  fix loop (bs : list Diagram) (os : list Z) (scan : Ty)
      (acc : Diagram) {struct bs} : result Diagram :=
    match bs, os with
    | box :: bs', off :: os' =>
        tl <- functor_ty (slice scan None (Some off)) ;;
        id_l <- Id tl ;;
        tr <- functor_ty (slice scan (Some (off + len (dom box))) None) ;;
        id_r <- Id tr ;;
        fbox <- functor_call box ;;
        l <- tensor id_l fbox ;;
        layer <- tensor l id_r ;;
        result' <- then_ acc layer ;;
        loop bs' os'
          (slice scan None (Some off) ++ cod box
             ++ slice scan (Some (off + len (dom box))) None)
          result'
    | _, _ => Ok acc
    end.

End Functor.

(** [Diagram.flatten], the functor
    [MonoidalFunctor(Quiver(lambda x: x), Quiver(lambda f: f))].

    Modelled from the spec: [cat.Quiver] and the call of [cat.Functor] on a
    box are defined in [discopy/cat.py].  A quiver looks a key up by
    calling its function, so that this functor sends the type of one
    object to itself and an atomic box to itself. *)
Definition Diagram_flatten : Diagram -> result Diagram :=
  functor_call (fun o => Ok [o]) (fun f => Ok f).

(** What flattening makes of a diagram of diagrams: the boxes of its boxes,
    each at its offset inside its box plus the offset of the box. *)
Fixpoint flattened (d : Diagram) : Diagram :=
  match d with
  | Box _ _ _ _ _ => d
  | MkDiagram ddom dcod bs os =>
      MkDiagram ddom dcod
        ((fix fb (bs : list Diagram) (os : list Z) {struct bs}
            : list Diagram :=
            match bs, os with
            | b :: bs', o :: os' => boxes (flattened b) ++ fb bs' os'
            | _, _ => []
            end) bs os)
        ((fix fo (bs : list Diagram) (os : list Z) {struct bs} : list Z :=
            match bs, os with
            | b :: bs', o :: os' =>
                map (fun n => n + o) (offsets (flattened b)) ++ fo bs' os'
            | _, _ => []
            end) bs os)
  end.

Definition flattened_boxes : list Diagram -> list Z -> list Diagram :=
  fix fb (bs : list Diagram) (os : list Z) {struct bs} : list Diagram :=
    match bs, os with
    | b :: bs', o :: os' => boxes (flattened b) ++ fb bs' os'
    | _, _ => []
    end.

Definition flattened_offsets : list Diagram -> list Z -> list Z :=
  fix fo (bs : list Diagram) (os : list Z) {struct bs} : list Z :=
    match bs, os with
    | b :: bs', o :: os' =>
        map (fun n => n + o) (offsets (flattened b)) ++ fo bs' os'
    | _, _ => []
    end.

(** Well formed with offsets in range, at every level. *)
Fixpoint deep_well_formed (d : Diagram) : Prop :=
  match d with
  | Box _ _ _ _ _ => True
  | MkDiagram _ _ bs _ =>
      in_range_well_formed d
      /\ (fix all (bs : list Diagram) : Prop :=
            match bs with
            | [] => True
            | b :: bs' => deep_well_formed b /\ all bs'
            end) bs
  end.

(** [isinstance(d, Box)] *)
Definition is_Box (d : Diagram) : bool :=
  match d with
  | Box _ _ _ _ _ => true
  | MkDiagram _ _ _ _ => false
  end.

(* ================================================================= *)
(** * Properties *)

(** ** Types and slices *)

Lemma Ob_eqb_eq (a b : Ob) : Ob_eqb a b = true <-> a = b.
Proof.
  destruct a as [n], b as [m]; unfold Ob_eqb; simpl.
  rewrite String.eqb_eq. split; [intros -> | intros [= ->]]; reflexivity.
Qed.

Lemma Ty_eqb_eq (s t : Ty) : Ty_eqb s t = true <-> s = t.
Proof.
  revert t; induction s as [|a s IH]; intros [|b t]; simpl;
    try (split; [discriminate | discriminate]); [tauto|].
  rewrite andb_true_iff, Ob_eqb_eq, IH.
  split; [intros [-> ->] | intros [= -> ->]]; auto.
Qed.

Lemma Ty_eqb_refl (t : Ty) : Ty_eqb t t = true.
Proof. apply Ty_eqb_eq; reflexivity. Qed.

Lemma Ty_eqb_neq (s t : Ty) : Ty_eqb s t = false <-> s <> t.
Proof.
  rewrite <- Ty_eqb_eq. destruct (Ty_eqb s t); split; congruence.
Qed.

Lemma len_app {A : Type} (l1 l2 : list A) : len (l1 ++ l2) = len l1 + len l2.
Proof. unfold len. rewrite length_app. lia. Qed.

Lemma len_nonneg {A : Type} (l : list A) : 0 <= len l.
Proof. unfold len. lia. Qed.

Lemma len_cons {A : Type} (a : A) (l : list A) : len (a :: l) = 1 + len l.
Proof. unfold len. cbn [List.length]. lia. Qed.

Lemma len_eq_length {A B : Type} (l : list A) (l' : list B) :
  len l = len l' <-> length l = length l'.
Proof. unfold len. lia. Qed.

Lemma clamp_in_range (n i : Z) : 0 <= i <= n -> clamp n i = i.
Proof.
  intros H. unfold clamp. destruct (Z.ltb_spec i 0); lia.
Qed.

Lemma slice_to_app {A : Type} (l1 l2 : list A) :
  slice (l1 ++ l2) None (Some (len l1)) = l1.
Proof.
  unfold slice. rewrite clamp_in_range
    by (rewrite len_app; pose proof (len_nonneg l1);
        pose proof (len_nonneg l2); lia).
  simpl. rewrite Z.sub_0_r. unfold len. rewrite Nat2Z.id.
  rewrite firstn_app, Nat.sub_diag, firstn_all. simpl. apply app_nil_r.
Qed.

Lemma slice_from_app {A : Type} (l1 l2 : list A) :
  slice (l1 ++ l2) (Some (len l1)) None = l2.
Proof.
  unfold slice. rewrite clamp_in_range
    by (rewrite len_app; pose proof (len_nonneg l1);
        pose proof (len_nonneg l2); lia).
  rewrite len_app. replace (len l1 + len l2 - len l1) with (len l2) by lia.
  unfold len. rewrite !Nat2Z.id.
  rewrite skipn_app, Nat.sub_diag, skipn_all. simpl. apply firstn_all.
Qed.

Lemma slice_mid_app {A : Type} (l1 m l2 : list A) :
  slice (l1 ++ m ++ l2) (Some (len l1)) (Some (len l1 + len m)) = m.
Proof.
  pose proof (len_nonneg l1); pose proof (len_nonneg m);
    pose proof (len_nonneg l2).
  unfold slice. rewrite !clamp_in_range by (rewrite !len_app; lia).
  replace (len l1 + len m - len l1) with (len m) by lia.
  unfold len. rewrite !Nat2Z.id.
  rewrite skipn_app, Nat.sub_diag, skipn_all. simpl.
  rewrite firstn_app, Nat.sub_diag, firstn_all. simpl. apply app_nil_r.
Qed.

(** A window that lies inside a sequence cuts it in three. *)
Lemma slice_split {A : Type} (l : list A) (off k : Z) :
  0 <= off -> 0 <= k -> off + k <= len l ->
  l = slice l None (Some off) ++ slice l (Some off) (Some (off + k))
        ++ slice l (Some (off + k)) None
  /\ len (slice l None (Some off)) = off
  /\ len (slice l (Some off) (Some (off + k))) = k.
Proof.
  intros H0 Hk Hle. unfold slice.
  rewrite !clamp_in_range by lia.
  rewrite Z.sub_0_r. simpl skipn.
  replace (off + k - off) with k by lia.
  replace (Z.to_nat (off + k)) with (Z.to_nat off + Z.to_nat k)%nat by lia.
  assert (Hlen : (Z.to_nat off + Z.to_nat k <= length l)%nat)
    by (unfold len in Hle; lia).
  rewrite firstn_all2 with (n := Z.to_nat (len l - (off + k)))
    by (rewrite length_skipn; unfold len; lia).
  repeat split.
  - rewrite (Nat.add_comm (Z.to_nat off)), <- skipn_skipn.
    rewrite (firstn_skipn (Z.to_nat k) (skipn (Z.to_nat off) l)).
    symmetry; apply firstn_skipn.
  - unfold len. rewrite length_firstn. lia.
  - unfold len. rewrite length_firstn, length_skipn. lia.
Qed.

(** ** Construction and axiom checking *)

Lemma check_scan_all_match (scan : Ty) (bs : list Diagram) (os : list Z) :
  all_match scan bs os = true ->
  check_scan scan bs os = Ok (scan_after scan bs os).
Proof.
  revert scan os; induction bs as [|box bs IH]; intros scan [|off os];
    simpl; try reflexivity.
  intros [Hm Hrest]%andb_true_iff.
  unfold sub_type in Hm. rewrite Hm. simpl. apply IH, Hrest.
Qed.

Lemma check_scan_first_mismatch (scan : Ty) (bs1 : list Diagram)
    (os1 : list Z) (box : Diagram) (off : Z) (bs2 : list Diagram)
    (os2 : list Z) :
  length bs1 = length os1 ->
  all_match scan bs1 os1 = true ->
  Ty_eqb (sub_type (scan_after scan bs1 os1) box off) (dom box) = false ->
  check_scan scan (bs1 ++ box :: bs2) (os1 ++ off :: os2)
  = Err (AxiomError_domain (sub_type (scan_after scan bs1 os1) box off)
                           (dom box)).
Proof.
  revert scan os1; induction bs1 as [|b bs1 IH]; intros scan [|o os1];
    simpl; try discriminate.
  - intros _ _ Hm. unfold sub_type in Hm. rewrite Hm. reflexivity.
  - intros [= Hlen] [Hm Hrest]%andb_true_iff Hbad.
    unfold sub_type in Hm. rewrite Hm. simpl. apply IH; assumption.
Qed.

Lemma check_scan_Ok_inv (scan : Ty) (bs : list Diagram) (os : list Z)
    (s : Ty) :
  check_scan scan bs os = Ok s ->
  all_match scan bs os = true /\ s = scan_after scan bs os.
Proof.
  revert scan os; induction bs as [|box bs IH]; intros scan [|off os];
    simpl; try (intros [= <-]; split; reflexivity).
  unfold sub_type.
  destruct (Ty_eqb _ (dom box)); simpl; [|discriminate].
  apply IH.
Qed.

(** C4.  With as many offsets as boxes, [Diagram(dom, cod, boxes, offsets)]
    runs the scan simulation from [dom]: at the first pair whose box does
    not find its domain at its offset it raises the axiom error naming the
    scanned sub-type and the domain of the box; when every box matches and
    the final scan type is not [cod] it raises the axiom error naming [cod]
    and the final scan type; and it returns a diagram, made of the four
    components, exactly when every box matches and the simulation lands on
    [cod]. *)
Theorem Diagram_init_axiom_check (dom0 cod0 : Ty) (bs : list Diagram)
    (os : list Z) :
  length bs = length os ->
  (forall bs1 box bs2 os1 off os2,
      bs = bs1 ++ box :: bs2 -> os = os1 ++ off :: os2 ->
      length bs1 = length os1 ->
      all_match dom0 bs1 os1 = true ->
      sub_type (scan_after dom0 bs1 os1) box off <> dom box ->
      Diagram_init dom0 cod0 bs os false
      = Err (AxiomError_domain (sub_type (scan_after dom0 bs1 os1) box off)
                               (dom box)))
  /\ (all_match dom0 bs os = true -> scan_after dom0 bs os <> cod0 ->
      Diagram_init dom0 cod0 bs os false
      = Err (AxiomError_codomain cod0 (scan_after dom0 bs os)))
  /\ (forall d,
        Diagram_init dom0 cod0 bs os false = Ok d <->
        all_match dom0 bs os = true /\ scan_after dom0 bs os = cod0
        /\ d = MkDiagram dom0 cod0 bs os).
Proof.
  intros Hlen.
  assert (Hl : (len bs =? len os) = true)
    by (apply Z.eqb_eq, len_eq_length, Hlen).
  unfold Diagram_init. rewrite Hl. simpl.
  split; [|split].
  - intros bs1 box bs2 os1 off os2 -> -> Hlen1 Hall Hbad.
    apply Ty_eqb_neq in Hbad.
    rewrite check_scan_first_mismatch by assumption. reflexivity.
  - intros Hall Hneq. rewrite check_scan_all_match by assumption. simpl.
    apply Ty_eqb_neq in Hneq. rewrite Hneq. reflexivity.
  - intros d. split.
    + destruct (check_scan dom0 bs os) as [s|e] eqn:Hs; simpl; [|discriminate].
      apply check_scan_Ok_inv in Hs as [Hall ->].
      destruct (Ty_eqb (scan_after dom0 bs os) cod0) eqn:Hc; simpl;
        [|discriminate].
      intros [= <-]. apply Ty_eqb_eq in Hc. auto.
    + intros (Hall & Hcod & ->).
      rewrite check_scan_all_match by assumption. simpl.
      rewrite Hcod, Ty_eqb_refl. reflexivity.
Qed.

(** The doctest of [AxiomError]: a box of domain [x] placed where the scan
    type is [y]. *)
Lemma Diagram_init_axiom_check_witness :
  Diagram_init [mkOb "y"] [mkOb "y"]
    [Box "f" [mkOb "x"] [mkOb "y"] None false] [0] false
  = Err (AxiomError_domain [mkOb "y"] [mkOb "x"]).
Proof.
  refine (proj1 (@Diagram_init_axiom_check [mkOb "y"] [mkOb "y"]
                   [Box "f" [mkOb "x"] [mkOb "y"] None false] [0] eq_refl)
            [] (Box "f" [mkOb "x"] [mkOb "y"] None false) [] [] 0 []
            eq_refl eq_refl eq_refl eq_refl _).
  vm_compute. discriminate.
Defined.

(** The fast path only compares the two lengths. *)
Lemma Diagram_init_fast (dom0 cod0 : Ty) (bs : list Diagram) (os : list Z) :
  length bs = length os ->
  Diagram_init dom0 cod0 bs os true = Ok (MkDiagram dom0 cod0 bs os).
Proof.
  intros Hlen. unfold Diagram_init.
  replace (len bs =? len os) with true
    by (symmetry; apply Z.eqb_eq, len_eq_length, Hlen).
  reflexivity.
Qed.

(** ** Interchange *)

Lemma getitem_app_cons {A : Type} (l1 : list A) (a : A) (l2 : list A)
    (k : Z) :
  k = len l1 -> getitem (l1 ++ a :: l2) k = Ok a.
Proof.
  intros ->. unfold getitem. pose proof (len_nonneg l1).
  destruct (Z.ltb_spec (len l1) 0); [lia|].
  destruct (Z.ltb_spec (len l1) 0); [lia|].
  unfold len. rewrite Nat2Z.id, nth_error_app2, Nat.sub_diag by lia.
  reflexivity.
Qed.

Lemma getitem_app_cons_next {A : Type} (l1 : list A) (a b : A)
    (l2 : list A) (k : Z) :
  k = len l1 + 1 -> getitem (l1 ++ a :: b :: l2) k = Ok b.
Proof.
  intros ->.
  replace (l1 ++ a :: b :: l2) with ((l1 ++ [a]) ++ b :: l2)
    by (rewrite <- app_assoc; reflexivity).
  apply getitem_app_cons. rewrite len_app; reflexivity.
Qed.

Lemma slice_to_app_at {A : Type} (l1 l2 : list A) (k : Z) :
  k = len l1 -> slice (l1 ++ l2) None (Some k) = l1.
Proof. intros ->. apply slice_to_app. Qed.

Lemma slice_from_app2 {A : Type} (l1 : list A) (a b : A) (l2 : list A)
    (k : Z) :
  k = len l1 + 2 -> slice (l1 ++ a :: b :: l2) (Some k) None = l2.
Proof.
  intros ->.
  replace (l1 ++ a :: b :: l2) with ((l1 ++ [a; b]) ++ l2)
    by (rewrite <- app_assoc; reflexivity).
  replace (len l1 + 2) with (len (l1 ++ [a; b]))
    by (rewrite len_app; reflexivity).
  apply slice_from_app.
Qed.

Section Adjacent.

Variables (d : Diagram) (bs1 bs2 : list Diagram) (box0 box1 : Diagram).
Variables (os1 os2 : list Z) (off0 off1 : Z).
Hypothesis Hboxes : boxes d = bs1 ++ box0 :: box1 :: bs2.
Hypothesis Hoffsets : offsets d = os1 ++ off0 :: off1 :: os2.
Hypothesis Hlen1 : length os1 = length bs1.
Hypothesis Hlen2 : length os2 = length bs2.

Lemma Diagram_len_adjacent : Diagram_len d = len bs1 + 2 + len bs2.
Proof.
  unfold Diagram_len. rewrite Hboxes, len_app, !len_cons. lia.
Qed.

(** Both orders of the two indices lead to the same exchange. *)
Lemma interchange_body_adjacent recurse (a b : Z) (left : bool) :
  (a = len bs1 /\ b = len bs1 + 1) \/ (a = len bs1 + 1 /\ b = len bs1) ->
  interchange_body recurse d a b left
  = offs <- commute_offsets left box0 box1 off0 off1 ;;
    Ok (swapped d bs1 box0 box1 bs2 os1 offs os2).
Proof.
  intros Hab.
  pose proof (len_nonneg bs1) as Hi.
  pose proof (len_nonneg bs2) as H2.
  assert (Hlo : len os1 = len bs1) by (apply len_eq_length, Hlen1).
  unfold interchange_body. rewrite Diagram_len_adjacent.
  replace ((0 <=? a) && (a <? len bs1 + 2 + len bs2)) with true
    by (symmetry; apply andb_true_iff; split;
        [apply Z.leb_le | apply Z.ltb_lt]; lia).
  replace ((0 <=? b) && (b <? len bs1 + 2 + len bs2)) with true
    by (symmetry; apply andb_true_iff; split;
        [apply Z.leb_le | apply Z.ltb_lt]; lia).
  simpl.
  destruct (Z.eqb_spec a b); [lia|].
  destruct (Z.ltb_spec b (a - 1)); [lia|].
  destruct (Z.gtb_spec b (a + 1)); [lia|].
  set (ij := if b <? a then (b, a) else (a, b)).
  assert (Hij : ij = (len bs1, len bs1 + 1)).
  { unfold ij. destruct (Z.ltb_spec b a); f_equal; lia. }
  rewrite Hij. clear ij Hij.
  rewrite Hboxes, Hoffsets.
  rewrite (getitem_app_cons bs1 box0 (box1 :: bs2)) by lia.
  rewrite (getitem_app_cons_next bs1 box0 box1 bs2) by lia.
  rewrite (getitem_app_cons os1 off0 (off1 :: os2)) by lia.
  rewrite (getitem_app_cons_next os1 off0 off1 os2) by lia. simpl.
  destruct (commute_offsets left box0 box1 off0 off1) as [[o0 o1]|e];
    simpl; [|reflexivity].
  rewrite (slice_to_app_at bs1 (box0 :: box1 :: bs2)) by lia.
  rewrite (slice_to_app_at os1 (off0 :: off1 :: os2)) by lia.
  rewrite (slice_from_app2 bs1 box0 box1 bs2) by lia.
  rewrite (slice_from_app2 os1 off0 off1 os2) by lia.
  apply Diagram_init_fast. rewrite !length_app. simpl. lia.
Qed.

End Adjacent.

Lemma for_each_ext {A S : Type} (l : list A) (s : S)
    (f g : S -> A -> result S) :
  (forall s' a, In a l -> f s' a = g s' a) ->
  for_each l s f = for_each l s g.
Proof.
  revert s; induction l as [|a l IH]; intros s Hfg; simpl; [reflexivity|].
  rewrite Hfg by (left; reflexivity).
  destruct (g s a) as [s'|e]; simpl; [|reflexivity].
  apply IH. intros; apply Hfg; right; assumption.
Qed.

(** On equal or adjacent positions the method does not call itself. *)
Lemma interchange_body_near recurse recurse' (d : Diagram) (i j : Z)
    (left : bool) :
  i - 1 <= j <= i + 1 ->
  interchange_body recurse d i j left = interchange_body recurse' d i j left.
Proof.
  intros Hij. unfold interchange_body.
  destruct (_ || _); [reflexivity|].
  destruct (i =? j); [reflexivity|].
  destruct (Z.ltb_spec j (i - 1)); [lia|].
  destruct (Z.gtb_spec j (i + 1)); [lia|].
  reflexivity.
Qed.

Lemma In_range (n k : Z) : In k (range n) -> 0 <= k < n.
Proof.
  unfold range. rewrite in_map_iff. intros (m & <- & Hm).
  apply in_seq in Hm. lia.
Qed.

(** [interchange] satisfies the recursive equation of the method. *)
Lemma interchange_unfold (d : Diagram) (i j : Z) (left : bool) :
  interchange d i j left = interchange_body interchange d i j left.
Proof.
  unfold interchange at 1. unfold interchange_body.
  destruct (_ || _); [reflexivity|].
  destruct (i =? j); [reflexivity|].
  destruct (j <? i - 1).
  { apply for_each_ext. intros s k _.
    apply interchange_body_near. lia. }
  destruct (j >? i + 1).
  { apply for_each_ext. intros s k _.
    apply interchange_body_near. lia. }
  reflexivity.
Qed.

(** C10.  An index outside [0 <= index < len(d)] makes [interchange] raise
    the [IndexError] that names [len(d)] and the pair of indices, whatever
    the boxes and the offsets of [d] are; this error is neither an axiom
    error nor an interchanger error. *)
Theorem interchange_index_error (d : Diagram) (i j : Z) (left : bool) :
  ~ (0 <= i < Diagram_len d) \/ ~ (0 <= j < Diagram_len d) ->
  interchange d i j left = Err (IndexError_range (Diagram_len d) (i, j))
  /\ is_IndexError (IndexError_range (Diagram_len d) (i, j)) = true
  /\ is_AxiomError (IndexError_range (Diagram_len d) (i, j)) = false
  /\ is_InterchangerError (IndexError_range (Diagram_len d) (i, j)) = false.
Proof.
  intros Hout. repeat split.
  unfold interchange, interchange_body.
  replace (negb ((0 <=? i) && (i <? Diagram_len d))
           || negb ((0 <=? j) && (j <? Diagram_len d))) with true;
    [reflexivity|].
  symmetry. apply orb_true_iff.
  destruct Hout as [H | H]; [left | right];
    apply negb_true_iff, andb_false_iff;
    rewrite Z.leb_gt, Z.ltb_ge; lia.
Qed.

Lemma interchange_index_error_witness :
  interchange Spiral.cup 0 1 false = Err (IndexError_range 1 (0, 1))
  /\ is_IndexError (IndexError_range 1 (0, 1)) = true
  /\ is_AxiomError (IndexError_range 1 (0, 1)) = false
  /\ is_InterchangerError (IndexError_range 1 (0, 1)) = false.
Proof.
  apply (@interchange_index_error Spiral.cup 0 1 false).
  right. vm_compute. intros [_ H]. discriminate H.
Defined.

(** C1.  Let the entries [(box0, off0)] and [(box1, off1)] stand at the
    adjacent positions [i] and [i + 1] of [d].  With the default
    [left = false]: if [off0 >= off1 + len(box1.dom)], [interchange]
    returns the diagram with the two boxes exchanged and [off0] replaced by
    [off0 - len(box1.dom) + len(box1.cod)]; otherwise, if
    [off1 >= off0 + len(box0.cod)], it returns the diagram with the two
    boxes exchanged and [off1] replaced by
    [off1 - len(box0.cod) + len(box0.dom)]; and whenever it returns a
    diagram, that diagram has the domain and the codomain of [d], the two
    boxes exchanged and all other entries as they were. *)
Theorem interchange_adjacent_default (d : Diagram)
    (bs1 : list Diagram) (box0 box1 : Diagram) (bs2 : list Diagram)
    (os1 : list Z) (off0 off1 : Z) (os2 : list Z) :
  boxes d = bs1 ++ box0 :: box1 :: bs2 ->
  offsets d = os1 ++ off0 :: off1 :: os2 ->
  length os1 = length bs1 ->
  length os2 = length bs2 ->
  let i := len bs1 in
  (off0 >= off1 + len (dom box1) ->
   interchange d i (i + 1) false
   = Ok (MkDiagram (dom d) (cod d) (bs1 ++ box1 :: box0 :: bs2)
           (os1 ++ off1 :: (off0 - len (dom box1) + len (cod box1)) :: os2)))
  /\ (~ off0 >= off1 + len (dom box1) ->
      off1 >= off0 + len (cod box0) ->
      interchange d i (i + 1) false
      = Ok (MkDiagram (dom d) (cod d) (bs1 ++ box1 :: box0 :: bs2)
              (os1 ++ (off1 - len (cod box0) + len (dom box0)) :: off0
                 :: os2)))
  /\ (forall d', interchange d i (i + 1) false = Ok d' ->
        dom d' = dom d /\ cod d' = cod d
        /\ boxes d' = bs1 ++ box1 :: box0 :: bs2
        /\ exists off0' off1', offsets d' = os1 ++ off1' :: off0' :: os2).
Proof.
  intros Hb Ho Hl1 Hl2 i.
  unfold interchange.
  rewrite (interchange_body_adjacent _ _ _ _ _ _ _ _ _ Hb Ho Hl1 Hl2)
    by (left; split; reflexivity).
  unfold commute_offsets. simpl andb. cbv iota.
  split; [|split].
  - intros H1. destruct (Z.geb_spec off0 (off1 + len (dom box1))); [|lia].
    reflexivity.
  - intros H1 H2.
    destruct (Z.geb_spec off0 (off1 + len (dom box1))); [lia|].
    destruct (Z.geb_spec off1 (off0 + len (cod box0))); [|lia].
    reflexivity.
  - intros d'.
    destruct (off0 >=? off1 + len (dom box1));
      [|destruct (off1 >=? off0 + len (cod box0))];
      simpl; intros [= <-]; simpl; eauto 6.
Qed.

(** [f0 @ f1] with [f0 : x -> y] and [f1 : z -> w], exchanged at [(0, 1)]:
    the first doctest of the module. *)
Lemma interchange_adjacent_default_witness :
  let f0 := Box "f0" [mkOb "x"] [mkOb "y"] None false in
  let f1 := Box "f1" [mkOb "z"] [mkOb "w"] None false in
  let d := MkDiagram [mkOb "x"; mkOb "z"] [mkOb "y"; mkOb "w"]
             [f0; f1] [0; 1] in
  interchange d 0 1 false
  = Ok (MkDiagram [mkOb "x"; mkOb "z"] [mkOb "y"; mkOb "w"] [f1; f0] [1; 0]).
Proof.
  intros f0 f1 d.
  refine (proj1 (proj2 (@interchange_adjacent_default d [] f0 f1 [] [] 0 1 []
                          eq_refl eq_refl eq_refl eq_refl)) _ _).
  - vm_compute. intros H. apply H. reflexivity.
  - vm_compute. discriminate.
Defined.

(** C5.  When neither disjointness test holds for the boxes at two adjacent
    positions [i] and [j] (in either order of the two indices, and for
    either value of [left]), [interchange] raises the interchanger error
    that names the two boxes, and this error is an axiom error. *)
Theorem interchange_not_commuting (d : Diagram)
    (bs1 : list Diagram) (box0 box1 : Diagram) (bs2 : list Diagram)
    (os1 : list Z) (off0 off1 : Z) (os2 : list Z) (i j : Z) (left : bool) :
  boxes d = bs1 ++ box0 :: box1 :: bs2 ->
  offsets d = os1 ++ off0 :: off1 :: os2 ->
  length os1 = length bs1 ->
  length os2 = length bs2 ->
  (i = len bs1 /\ j = len bs1 + 1) \/ (i = len bs1 + 1 /\ j = len bs1) ->
  off0 < off1 + len (dom box1) ->
  off1 < off0 + len (cod box0) ->
  interchange d i j left = Err (InterchangerError box0 box1)
  /\ is_InterchangerError (InterchangerError box0 box1) = true
  /\ is_AxiomError (InterchangerError box0 box1) = true.
Proof.
  intros Hb Ho Hl1 Hl2 Hij H0 H1. repeat split.
  unfold interchange.
  rewrite (interchange_body_adjacent _ _ _ _ _ _ _ _ _ Hb Ho Hl1 Hl2)
    by assumption.
  unfold commute_offsets.
  destruct (Z.geb_spec off1 (off0 + len (cod box0))); [lia|].
  destruct (Z.geb_spec off0 (off1 + len (dom box1))); [lia|].
  rewrite andb_false_r. reflexivity.
Qed.

(** The doctest of [InterchangerError]: [f >> g] with [f : x -> y] and
    [g : y -> z]. *)
Lemma interchange_not_commuting_witness :
  let f := Box "f" [mkOb "x"] [mkOb "y"] None false in
  let g := Box "g" [mkOb "y"] [mkOb "z"] None false in
  then_ f g = Ok (MkDiagram [mkOb "x"] [mkOb "z"] [f; g] [0; 0])
  /\ (interchange (MkDiagram [mkOb "x"] [mkOb "z"] [f; g] [0; 0]) 0 1 false
      = Err (InterchangerError f g)
      /\ is_InterchangerError (InterchangerError f g) = true
      /\ is_AxiomError (InterchangerError f g) = true).
Proof.
  intros f g. split; [reflexivity|].
  apply (@interchange_not_commuting
           (MkDiagram [mkOb "x"] [mkOb "z"] [f; g] [0; 0])
           [] f g [] [] 0 0 [] 0 1 false eq_refl eq_refl eq_refl eq_refl).
  - left. split; reflexivity.
  - reflexivity.
  - reflexivity.
Defined.

(** ** Tensor *)

Lemma Diagram_valid_lengths (d : Diagram) :
  Diagram_valid d = true -> length (boxes d) = length (offsets d).
Proof.
  destruct d as [n a b data dg | a b bs os]; simpl; [reflexivity|].
  intros [H _]%andb_true_iff. apply len_eq_length, Z.eqb_eq, H.
Qed.

(** C7.  The tensor of two diagrams is the diagram whose domain and
    codomain are the concatenations of the domains and of the codomains,
    whose boxes are the boxes of [f] followed by those of [g], and whose
    offsets are those of [f] followed by those of [g], each one shifted by
    [len(f.cod)]. *)
Theorem tensor_components (f g : Diagram) :
  length (boxes f) = length (offsets f) ->
  length (boxes g) = length (offsets g) ->
  exists d,
    tensor f g = Ok d
    /\ dom d = dom f ++ dom g
    /\ cod d = cod f ++ cod g
    /\ boxes d = boxes f ++ boxes g
    /\ offsets d = offsets f ++ map (fun n => n + len (cod f)) (offsets g)
    /\ (forall k off, nth_error (offsets f) k = Some off ->
                      nth_error (offsets d) k = Some off)
    /\ (forall k off, nth_error (offsets g) k = Some off ->
                      nth_error (offsets d) (length (boxes f) + k)
                      = Some (off + len (cod f))).
Proof.
  intros Hf Hg.
  eexists. split.
  - unfold tensor. apply Diagram_init_fast.
    rewrite !length_app, length_map. lia.
  - simpl. repeat split; try reflexivity.
    + intros k off Hk. rewrite nth_error_app1; [assumption|].
      apply nth_error_Some. congruence.
    + intros k off Hk. rewrite Hf, nth_error_app2 by lia.
      replace (length (offsets f) + k - length (offsets f))%nat with k by lia.
      rewrite nth_error_map, Hk. reflexivity.
Qed.

(** [f0 @ f1] with [f0 : x -> y] and [f1 : z -> w]. *)
Lemma tensor_components_witness :
  let f0 := Box "f0" [mkOb "x"] [mkOb "y"] None false in
  let f1 := Box "f1" [mkOb "z"] [mkOb "w"] None false in
  exists d,
    tensor f0 f1 = Ok d
    /\ dom d = [mkOb "x"; mkOb "z"]
    /\ cod d = [mkOb "y"; mkOb "w"]
    /\ boxes d = [f0; f1]
    /\ offsets d = [0; 1]
    /\ (forall k off, nth_error (offsets f0) k = Some off ->
                      nth_error (offsets d) k = Some off)
    /\ (forall k off, nth_error (offsets f1) k = Some off ->
                      nth_error (offsets d) (length (boxes f0) + k)
                      = Some (off + len (cod f0))).
Proof.
  intros f0 f1.
  exact (@tensor_components f0 f1 eq_refl eq_refl).
Defined.

(** ** Dagger and equality *)

(** Induction over diagrams and, through the lists, over their boxes. *)
Lemma Diagram_nested_ind (P : Diagram -> Prop) :
  (forall n a b data dg, P (Box n a b data dg)) ->
  (forall a b bs os, Forall P bs -> P (MkDiagram a b bs os)) ->
  forall d, P d.
Proof.
  intros HB HD. fix IH 1.
  intros [n a b data dg | a b bs os]; [apply HB | apply HD].
  induction bs as [|f bs IHbs]; constructor; [apply IH | exact IHbs].
Qed.

Lemma offsets_eqb_refl (os : list Z) : offsets_eqb os os = true.
Proof.
  induction os as [|o os IH]; simpl; [reflexivity|].
  rewrite Z.eqb_refl. exact IH.
Qed.

Lemma Box_signature_eqb_refl n a b dg :
  Box_signature_eqb n a b dg n a b dg = true.
Proof.
  unfold Box_signature_eqb.
  rewrite String.eqb_refl, !Ty_eqb_refl, Bool.eqb_reflx. reflexivity.
Qed.

(** Equality is reflexive, so that the identity shortcut taken by the
    comparison of lists never disagrees with [__eq__]. *)
Lemma Diagram_eq_refl (d : Diagram) : Diagram_eq d d = true.
Proof.
  induction d as [n a b data dg | a b bs os IH] using Diagram_nested_ind.
  - simpl. apply Box_signature_eqb_refl.
  - simpl. rewrite !Ty_eqb_refl, offsets_eqb_refl, andb_true_r. simpl.
    induction IH as [|f bs Hf _ IHbs]; [reflexivity|].
    rewrite Hf. exact IHbs.
Qed.

Lemma dagger_MkDiagram a b bs os :
  dagger (MkDiagram a b bs os)
  = bs' <- dagger_reversed bs ;; Diagram_init b a bs' (rev os) true.
Proof. reflexivity. Qed.

Lemma dagger_reversed_cons f t :
  dagger_reversed (f :: t)
  = r <- dagger_reversed t ;; f' <- dagger f ;; Ok (r ++ [f']).
Proof. reflexivity. Qed.

Lemma dagger_reversed_snoc l f :
  dagger_reversed (l ++ [f])
  = f' <- dagger f ;; r <- dagger_reversed l ;; Ok (f' :: r).
Proof.
  induction l as [|g l IH].
  - simpl. destruct (dagger f); reflexivity.
  - rewrite <- app_comm_cons, !dagger_reversed_cons, IH.
    destruct (dagger f) as [f'|e]; simpl; [|reflexivity].
    destruct (dagger_reversed l) as [r|e]; simpl; [|reflexivity].
    destruct (dagger g); reflexivity.
Qed.

Lemma dagger_reversed_involutive (bs : list Diagram) :
  Forall (fun f => Diagram_valid f = true ->
                   exists f', dagger f = Ok f' /\ Diagram_valid f' = true
                              /\ dagger f' = Ok f) bs ->
  forallb Diagram_valid bs = true ->
  exists bs', dagger_reversed bs = Ok bs'
              /\ length bs' = length bs
              /\ forallb Diagram_valid bs' = true
              /\ dagger_reversed bs' = Ok bs.
Proof.
  induction 1 as [|f bs Hf _ IH]; simpl.
  - intros _. exists []. auto.
  - intros [Hvf Hvbs]%andb_true_iff.
    destruct (Hf Hvf) as (f' & Hd & Hv' & Hd').
    destruct (IH Hvbs) as (bs' & Hr & Hlen & Hvs' & Hr').
    exists (bs' ++ [f']).
    fold dagger_reversed. rewrite Hr, Hd. simpl. repeat split.
    + rewrite length_app. simpl. lia.
    + rewrite forallb_app, Hvs'. simpl. rewrite Hv'. reflexivity.
    + rewrite dagger_reversed_snoc, Hd', Hr'. reflexivity.
Qed.

Lemma dagger_involutive_valid (f : Diagram) :
  Diagram_valid f = true ->
  exists f', dagger f = Ok f' /\ Diagram_valid f' = true /\ dagger f' = Ok f.
Proof.
  induction f as [n a b data dg | a b bs os IH] using Diagram_nested_ind.
  - intros _. eexists. split; [reflexivity|]. split; [reflexivity|].
    simpl. rewrite negb_involutive. reflexivity.
  - intros Hv. simpl in Hv. apply andb_true_iff in Hv as [Hlen Hbs].
    apply Z.eqb_eq, len_eq_length in Hlen.
    destruct (dagger_reversed_involutive bs IH Hbs)
      as (bs' & Hr & Hl & Hv & Hr').
    exists (MkDiagram b a bs' (rev os)).
    rewrite dagger_MkDiagram, Hr. cbn [bind].
    rewrite Diagram_init_fast by (rewrite length_rev; congruence).
    split; [reflexivity|]. split.
    + simpl. rewrite Hv, andb_true_r.
      apply Z.eqb_eq, len_eq_length. rewrite length_rev. congruence.
    + rewrite dagger_MkDiagram, Hr'. cbn [bind]. rewrite rev_involutive.
      apply Diagram_init_fast, Hlen.
Qed.

(** C9.  The dagger of the dagger of a diagram is the diagram itself: both
    calls return, and the result is equal to [f] (as a value, hence under
    [==]). *)
Theorem dagger_dagger (f : Diagram) :
  Diagram_valid f = true ->
  exists f' f'',
    dagger f = Ok f' /\ dagger f' = Ok f''
    /\ f'' = f /\ Diagram_eq f'' f = true.
Proof.
  intros Hv. destruct (dagger_involutive_valid f Hv) as (f' & Hd & _ & Hd').
  exists f', f. repeat split; try assumption. apply Diagram_eq_refl.
Qed.

(** [(f0 @ f1).dagger().dagger() == f0 @ f1], from the doctests. *)
Lemma dagger_dagger_witness :
  let f0 := Box "f0" [mkOb "x"] [mkOb "y"] None false in
  let f1 := Box "f1" [mkOb "z"] [mkOb "w"] None false in
  let d := MkDiagram [mkOb "x"; mkOb "z"] [mkOb "y"; mkOb "w"]
             [f0; f1] [0; 1] in
  exists f' f'',
    dagger d = Ok f' /\ dagger f' = Ok f''
    /\ f'' = d /\ Diagram_eq f'' d = true.
Proof.
  intros f0 f1 d. exact (@dagger_dagger d eq_refl).
Defined.

(** ** Well-formedness *)

Lemma scan_step_app (l r : Ty) (box : Diagram) :
  sub_type (l ++ dom box ++ r) box (len l) = dom box
  /\ replace_sub_type (l ++ dom box ++ r) box (len l) = l ++ cod box ++ r.
Proof.
  unfold sub_type, replace_sub_type.
  rewrite slice_mid_app, slice_to_app. split; [reflexivity|].
  f_equal. f_equal.
  rewrite app_assoc, <- len_app. apply slice_from_app.
Qed.

Lemma strict_scan_scans (s : Ty) (bs : list Diagram) (os : list Z) (s' : Ty) :
  strict_scan s bs os = Some s' <-> scans s bs os s'.
Proof.
  split.
  - revert s os; induction bs as [|box bs IH]; intros s [|off os]; simpl;
      try discriminate.
    + intros [= <-]. constructor.
    + destruct (Z.leb_spec 0 off); simpl; [|discriminate].
      destruct (Z.leb_spec (off + len (dom box)) (len s)); simpl;
        [|discriminate].
      destruct (Ty_eqb (sub_type s box off) (dom box)) eqn:Hm; [|discriminate].
      apply Ty_eqb_eq in Hm. intros Hrest%IH.
      destruct (slice_split s off (len (dom box)))
        as (Hs & Hl & _); [lia | apply len_nonneg | lia |].
      unfold replace_sub_type in Hrest. unfold sub_type in Hm.
      rewrite Hm in Hs.
      set (l := slice s None (Some off)) in *.
      set (r := slice s (Some (off + len (dom box))) None) in *.
      clearbody l r. subst s off.
      constructor. exact Hrest.
  - induction 1 as [s | l r box bs os s' _ IH]; [reflexivity|].
    simpl. destruct (scan_step_app l r box) as [-> ->].
    pose proof (len_nonneg l). pose proof (len_nonneg r).
    destruct (Z.leb_spec 0 (len l)); [|lia].
    destruct (Z.leb_spec (len l + len (dom box)) (len (l ++ dom box ++ r)));
      [|rewrite !len_app in *; lia].
    rewrite Ty_eqb_refl. exact IH.
Qed.

Lemma scans_lengths s bs os s' : scans s bs os s' -> length bs = length os.
Proof. induction 1; simpl; congruence. Qed.

Lemma scans_check_scan s bs os s' :
  scans s bs os s' -> check_scan s bs os = Ok s'.
Proof.
  induction 1 as [s | l r box bs os s' _ IH]; [reflexivity|].
  simpl. destruct (scan_step_app l r box) as [Hm Hr].
  unfold sub_type in Hm. unfold replace_sub_type in Hr.
  rewrite Hm, Hr, Ty_eqb_refl. exact IH.
Qed.

(** Offsets inside the scan type are accepted by the constructor. *)
Lemma in_range_well_formed_well_formed (d : Diagram) :
  in_range_well_formed d -> well_formed d.
Proof.
  unfold in_range_well_formed, well_formed. intros H%strict_scan_scans.
  unfold Diagram_init.
  replace (len (boxes d) =? len (offsets d)) with true
    by (symmetry; apply Z.eqb_eq, len_eq_length; eapply scans_lengths, H).
  simpl. rewrite (scans_check_scan _ _ _ _ H). simpl.
  rewrite Ty_eqb_refl. reflexivity.
Qed.

Lemma scans_app s bs1 os1 m bs2 os2 s' :
  scans s bs1 os1 m -> scans m bs2 os2 s' ->
  scans s (bs1 ++ bs2) (os1 ++ os2) s'.
Proof.
  induction 1; simpl; intros; [assumption|]. constructor; auto.
Qed.

Lemma scans_app_inv bs1 : forall s os1 bs2 os2 s',
  length os1 = length bs1 ->
  scans s (bs1 ++ bs2) (os1 ++ os2) s' ->
  exists m, scans s bs1 os1 m /\ scans m bs2 os2 s'.
Proof.
  induction bs1 as [|box bs1 IH]; intros s [|off os1] bs2 os2 s' Hlen;
    try discriminate; simpl.
  - intros H. exists s. split; [constructor | exact H].
  - inversion 1 as [|l r ? ? ? ? Hrest]; subst.
    destruct (IH (l ++ cod box ++ r) os1 bs2 os2 s') as (m & H1 & H2);
      [simpl in Hlen; lia | exact Hrest |].
    exists m. split; [constructor|]; assumption.
Qed.

(** Wires added on the right do not disturb a diagram. *)
Lemma scans_frame_right s bs os s' (r : Ty) :
  scans s bs os s' -> scans (s ++ r) bs os (s' ++ r).
Proof.
  induction 1 as [s | l r0 box bs os s' _ IH]; [constructor|].
  rewrite <- !app_assoc. constructor.
  rewrite <- !app_assoc in IH. exact IH.
Qed.

(** Wires added on the left shift every offset. *)
Lemma scans_frame_left s bs os s' (l : Ty) :
  scans s bs os s' ->
  scans (l ++ s) bs (map (fun n => n + len l) os) (l ++ s').
Proof.
  induction 1 as [s | l0 r box bs os s' _ IH]; [constructor|].
  simpl. rewrite app_assoc.
  replace (len l0 + len l) with (len (l ++ l0)) by (rewrite len_app; lia).
  constructor. rewrite <- app_assoc. exact IH.
Qed.

Lemma scans_single (l r : Ty) (box : Diagram) :
  scans (l ++ dom box ++ r) [box] [len l] (l ++ cod box ++ r).
Proof. constructor. constructor. Qed.

(** Read backwards, with every box replaced by one of exchanged domain and
    codomain. *)
Lemma scans_reverse s bs os s' :
  scans s bs os s' ->
  forall bs',
    Forall2 (fun b b' => dom b' = cod b /\ cod b' = dom b) (rev bs) bs' ->
    scans s' bs' (rev os) s.
Proof.
  induction 1 as [s | l r box bs os s' _ IH]; simpl; intros bs' HF.
  - inversion HF. constructor.
  - apply Forall2_app_inv_l in HF as (bs1' & bs2' & H1 & H2 & ->).
    inversion H2 as [|? box' ? ? [Hd Hc] Hnil]; subst. inversion Hnil; subst.
    eapply scans_app; [apply IH, H1|].
    rewrite <- Hd, <- Hc. apply scans_single.
Qed.

Lemma scans_cons_eq (s l r : Ty) (box : Diagram) (off : Z) bs os s' :
  s = l ++ dom box ++ r -> off = len l ->
  scans (l ++ cod box ++ r) bs os s' ->
  scans s (box :: bs) (off :: os) s'.
Proof. intros -> ->. apply scans_cons. Qed.

Lemma app_eq_app_le {A : Type} (c : list A) : forall a b d,
  a ++ b = c ++ d -> (length c <= length a)%nat ->
  exists e, a = c ++ e /\ d = e ++ b.
Proof.
  induction c as [|x c IH]; intros a b d Heq Hle; simpl in *.
  - exists a. auto.
  - destruct a as [|y a]; simpl in *; [lia|].
    injection Heq as -> Heq.
    destruct (IH a b d Heq) as (e & -> & ->); [lia|].
    exists e. auto.
Qed.

Lemma commute_offsets_Ok left box0 box1 off0 off1 o0 o1 :
  commute_offsets left box0 box1 off0 off1 = Ok (o0, o1) ->
  (off0 >= off1 + len (dom box1)
   /\ o0 = off0 - len (dom box1) + len (cod box1) /\ o1 = off1)
  \/ (off1 >= off0 + len (cod box0)
      /\ o0 = off0 /\ o1 = off1 - len (cod box0) + len (dom box0)).
Proof.
  unfold commute_offsets.
  destruct (Z.geb_spec off1 (off0 + len (cod box0)));
    destruct (Z.geb_spec off0 (off1 + len (dom box1)));
    destruct left; simpl; intros [= <- <-]; auto; lia.
Qed.

(** The interchange law on the scan simulation: two successive boxes on
    disjoint wires act in either order, with the offsets that
    [interchange] computes. *)
Lemma scans_swap m box0 box1 off0 off1 m' left o0 o1 :
  scans m [box0; box1] [off0; off1] m' ->
  commute_offsets left box0 box1 off0 off1 = Ok (o0, o1) ->
  scans m [box1; box0] [o1; o0] m'.
Proof.
  intros H Hc.
  inversion H as [|l r ? ? ? ? H1]; subst.
  inversion H1 as [|l' r' ? ? ? ? H2 Heq]; subst.
  inversion H2; subst. clear H H1 H2.
  apply commute_offsets_Ok in Hc as [(Hge & -> & ->) | (Hge & -> & ->)].
  - (* box0 right of box1 *)
    destruct (app_eq_app_le (l' ++ dom box1) l (cod box0 ++ r) r')
      as (e & -> & ->).
    + rewrite <- app_assoc. symmetry. exact Heq.
    + rewrite length_app. unfold len in Hge. lia.
    + apply (scans_cons_eq _ l' (e ++ dom box0 ++ r));
        [repeat rewrite <- app_assoc; reflexivity | reflexivity |].
      apply (scans_cons_eq _ (l' ++ cod box1 ++ e) r);
        [repeat rewrite <- app_assoc; reflexivity
        | rewrite !len_app; lia |].
      repeat rewrite <- app_assoc. constructor.
  - (* box0 left of box1 *)
    destruct (app_eq_app_le (l ++ cod box0) l' (dom box1 ++ r') r)
      as (e & -> & ->).
    + rewrite <- app_assoc. exact Heq.
    + rewrite length_app. unfold len in Hge. lia.
    + apply (scans_cons_eq _ (l ++ dom box0 ++ e) r');
        [repeat rewrite <- app_assoc; reflexivity
        | rewrite !len_app; lia |].
      apply (scans_cons_eq _ l (e ++ cod box1 ++ r'));
        [repeat rewrite <- app_assoc; reflexivity | reflexivity |].
      repeat rewrite <- app_assoc. constructor.
Qed.

Lemma split_two {A : Type} (l : list A) (i : Z) :
  0 <= i -> i + 1 < len l ->
  exists l1 a b l2, l = l1 ++ a :: b :: l2 /\ len l1 = i.
Proof.
  intros H0 Hlt. unfold len in *.
  pose proof (firstn_skipn (Z.to_nat i) l) as Hsplit.
  pose proof (length_skipn (Z.to_nat i) l) as Hlen.
  destruct (skipn (Z.to_nat i) l) as [|a [|b l2]]; simpl in Hlen; try lia.
  exists (firstn (Z.to_nat i) l), a, b, l2. split; [symmetry; exact Hsplit|].
  rewrite length_firstn. lia.
Qed.

Lemma interchange_body_adjacent_preserves recurse (d : Diagram) (a b : Z)
    (left : bool) (d' : Diagram) :
  in_range_well_formed d ->
  a = b + 1 \/ b = a + 1 ->
  interchange_body recurse d a b left = Ok d' ->
  in_range_well_formed d'.
Proof.
  unfold in_range_well_formed. rewrite !strict_scan_scans.
  intros Hwf Hab Hi.
  assert (Hrange : (0 <= a < Diagram_len d) /\ (0 <= b < Diagram_len d)).
  { unfold interchange_body in Hi.
    destruct (Z.leb_spec 0 a); destruct (Z.ltb_spec a (Diagram_len d));
      destruct (Z.leb_spec 0 b); destruct (Z.ltb_spec b (Diagram_len d));
      simpl in Hi; try discriminate; lia. }
  pose proof (scans_lengths _ _ _ _ Hwf) as Hlen.
  unfold Diagram_len in Hrange.
  destruct (split_two (boxes d) (Z.min a b))
    as (bs1 & box0 & box1 & bs2 & Hb & Hl);
    [lia | lia |].
  destruct (split_two (offsets d) (Z.min a b))
    as (os1 & off0 & off1 & os2 & Ho & Hlo);
    [lia | unfold len in *; lia |].
  assert (Hl1 : length os1 = length bs1) by (unfold len in *; lia).
  assert (Hl2 : length os2 = length bs2).
  { rewrite Hb, Ho, !length_app in Hlen. simpl in Hlen. lia. }
  rewrite (interchange_body_adjacent _ _ _ _ _ _ _ _ _ Hb Ho Hl1 Hl2) in Hi
    by lia.
  destruct (commute_offsets left box0 box1 off0 off1) as [[o0 o1]|e] eqn:Hc;
    simpl in Hi; [|discriminate].
  injection Hi as <-. simpl.
  rewrite Hb, Ho in Hwf.
  apply scans_app_inv in Hwf as (m & H1 & H2); [|exact Hl1].
  apply (scans_app_inv [box0; box1] m [off0; off1] bs2 os2) in H2
    as (m' & H2 & H3); [|reflexivity].
  eapply scans_app; [exact H1|].
  apply (scans_app m [box1; box0] [o1; o0] m' bs2 os2); [|exact H3].
  eapply scans_swap; eassumption.
Qed.

Lemma for_each_invariant {A S : Type} (P : S -> Prop) (l : list A)
    (body : S -> A -> result S) :
  (forall s a s', In a l -> P s -> body s a = Ok s' -> P s') ->
  forall s s', P s -> for_each l s body = Ok s' -> P s'.
Proof.
  induction l as [|a l IH]; intros Hbody s s' Hs; simpl.
  - intros [= <-]. exact Hs.
  - destruct (body s a) as [s1|e] eqn:Hb; simpl; [|discriminate].
    apply IH.
    + intros; eapply Hbody; eauto. right; assumption.
    + eapply Hbody; eauto. left; reflexivity.
Qed.

Lemma interchange_preserves (d : Diagram) (i j : Z) (left : bool)
    (d' : Diagram) :
  in_range_well_formed d ->
  interchange d i j left = Ok d' ->
  in_range_well_formed d'.
Proof.
  intros Hwf.
  destruct (Z.eq_dec i j) as [->|Hne].
  { unfold interchange, interchange_body. destruct (_ || _); [discriminate|].
    rewrite Z.eqb_refl. intros [= <-]. exact Hwf. }
  destruct (Z_lt_dec j (i - 1)) as [Hfar|Hnear].
  { unfold interchange, interchange_body. destruct (_ || _); [discriminate|].
    destruct (Z.eqb_spec i j); [lia|].
    destruct (Z.ltb_spec j (i - 1)); [|lia].
    apply for_each_invariant; [|exact Hwf].
    intros s k s' _ Hs.
    apply interchange_body_adjacent_preserves; [exact Hs|lia]. }
  destruct (Z_gt_dec j (i + 1)) as [Hfar|Hnear'].
  { unfold interchange, interchange_body. destruct (_ || _); [discriminate|].
    destruct (Z.eqb_spec i j); [lia|].
    destruct (Z.ltb_spec j (i - 1)); [lia|].
    destruct (Z.gtb_spec j (i + 1)); [|lia].
    apply for_each_invariant; [|exact Hwf].
    intros s k s' _ Hs.
    apply interchange_body_adjacent_preserves; [exact Hs|lia]. }
  apply interchange_body_adjacent_preserves; [exact Hwf|lia].
Qed.

Lemma then_preserves (f g h : Diagram) :
  in_range_well_formed f -> in_range_well_formed g ->
  then_ f g = Ok h -> in_range_well_formed h.
Proof.
  unfold in_range_well_formed. rewrite !strict_scan_scans.
  intros Hf Hg. unfold then_, cat_then.
  destruct (Ty_eqb (cod f) (dom g)) eqn:Heq; simpl; [|discriminate].
  apply Ty_eqb_eq in Heq.
  rewrite Diagram_init_fast
    by (rewrite !length_app;
        rewrite (scans_lengths _ _ _ _ Hf), (scans_lengths _ _ _ _ Hg);
        reflexivity).
  intros [= <-]. simpl.
  eapply scans_app; [exact Hf|]. rewrite Heq. exact Hg.
Qed.

Lemma tensor_preserves (f g h : Diagram) :
  in_range_well_formed f -> in_range_well_formed g ->
  tensor f g = Ok h -> in_range_well_formed h.
Proof.
  unfold in_range_well_formed. rewrite !strict_scan_scans.
  intros Hf Hg. unfold tensor.
  rewrite Diagram_init_fast
    by (rewrite !length_app, length_map;
        rewrite (scans_lengths _ _ _ _ Hf), (scans_lengths _ _ _ _ Hg);
        reflexivity).
  intros [= <-]. simpl. unfold Ty_tensor.
  eapply scans_app.
  - apply scans_frame_right. exact Hf.
  - apply scans_frame_left. exact Hg.
Qed.

Lemma dagger_dom_cod (f f' : Diagram) :
  dagger f = Ok f' -> dom f' = cod f /\ cod f' = dom f.
Proof.
  destruct f as [n a b data dg | a b bs os].
  - intros [= <-]. auto.
  - rewrite dagger_MkDiagram.
    destruct (dagger_reversed bs) as [bs'|e]; simpl; [|discriminate].
    unfold Diagram_init. destruct (negb _); [discriminate|].
    intros [= <-]. auto.
Qed.

Lemma dagger_reversed_Forall2 (bs bs' : list Diagram) :
  dagger_reversed bs = Ok bs' ->
  Forall2 (fun b b' => dagger b = Ok b') (rev bs) bs'.
Proof.
  revert bs'; induction bs as [|f bs IH]; intros bs'.
  - intros [= <-]. constructor.
  - rewrite dagger_reversed_cons.
    destruct (dagger_reversed bs) as [r|e]; simpl; [|discriminate].
    destruct (dagger f) as [f'|e] eqn:Hf; simpl; [|discriminate].
    intros [= <-]. apply Forall2_app; [apply IH; reflexivity|].
    constructor; [exact Hf | constructor].
Qed.

Lemma Box_in_range_well_formed n a b data dg :
  in_range_well_formed (Box n a b data dg).
Proof.
  unfold in_range_well_formed. apply strict_scan_scans. simpl.
  pose proof (scans_single [] [] (Box n a b data dg)) as H.
  simpl in H. rewrite !app_nil_r in H. exact H.
Qed.

Lemma dagger_preserves (f h : Diagram) :
  in_range_well_formed f -> dagger f = Ok h -> in_range_well_formed h.
Proof.
  destruct f as [n a b data dg | a b bs os].
  - intros _ [= <-]. apply Box_in_range_well_formed.
  - unfold in_range_well_formed. rewrite !strict_scan_scans.
    intros Hf. simpl in Hf. rewrite dagger_MkDiagram.
    destruct (dagger_reversed bs) as [bs'|e] eqn:Hr; simpl; [|discriminate].
    unfold Diagram_init. destruct (negb _); [discriminate|].
    intros [= <-]. simpl.
    apply (scans_reverse _ _ _ _ Hf).
    eapply Forall2_impl; [|apply dagger_reversed_Forall2, Hr].
    intros b0 b' Hb. apply dagger_dom_cod, Hb.
Qed.

(** C6, amended.  Call a diagram well formed with offsets in range when
    the scan simulation from its [dom] finds the domain of every box at its
    offset, inside the scan type, and lands on its [cod].  Every diagram
    that [then], [tensor], [dagger] or [interchange] returns on such
    diagrams is again well formed with offsets in range, and is therefore
    accepted by the validating constructor, although it was built on the
    fast path. *)
Theorem fast_path_preserves_well_formedness :
  (forall f g h,
      in_range_well_formed f -> in_range_well_formed g ->
      then_ f g = Ok h -> in_range_well_formed h /\ well_formed h)
  /\ (forall f g h,
         in_range_well_formed f -> in_range_well_formed g ->
         tensor f g = Ok h -> in_range_well_formed h /\ well_formed h)
  /\ (forall f h,
         in_range_well_formed f ->
         dagger f = Ok h -> in_range_well_formed h /\ well_formed h)
  /\ (forall d i j left d',
         in_range_well_formed d ->
         interchange d i j left = Ok d' ->
         in_range_well_formed d' /\ well_formed d').
Proof.
  repeat split;
    try apply in_range_well_formed_well_formed;
    eauto using then_preserves, tensor_preserves, dagger_preserves,
      interchange_preserves.
Qed.

(** [f0 @ f1] for two boxes [f0 : x -> y] and [f1 : z -> w]. *)
Lemma fast_path_preserves_well_formedness_witness :
  let f0 := Box "f0" [mkOb "x"] [mkOb "y"] None false in
  let f1 := Box "f1" [mkOb "z"] [mkOb "w"] None false in
  let h := MkDiagram [mkOb "x"; mkOb "z"] [mkOb "y"; mkOb "w"]
             [f0; f1] [0; 1] in
  in_range_well_formed h /\ well_formed h.
Proof.
  intros f0 f1 h.
  exact (proj1 (proj2 fast_path_preserves_well_formedness)
           f0 f1 h eq_refl eq_refl eq_refl).
Defined.

(** C6 as stated fails: the constructor accepts a state at offset 5 of the
    empty type (the slices are clamped), and the tensor of this diagram
    with the identity of [x] is a diagram that the constructor refuses. *)
Lemma tensor_breaks_well_formedness :
  Diagram_init [] [mkOb "y"] [Box "s" [] [mkOb "y"] None false] [5] false
  = Ok state_far
  /\ well_formed state_far
  /\ Id [mkOb "x"] = Ok id_x
  /\ well_formed id_x
  /\ tensor state_far id_x = Ok state_far_tensor_id
  /\ Diagram_init (dom state_far_tensor_id) (cod state_far_tensor_id)
       (boxes state_far_tensor_id) (offsets state_far_tensor_id) false
     = Err (AxiomError_codomain [mkOb "y"; mkOb "x"] [mkOb "x"; mkOb "y"])
  /\ ~ well_formed state_far_tensor_id.
Proof.
  repeat split. intros H. vm_compute in H. discriminate H.
Qed.

(** ** Normalisation *)

(** C3, at the input where the code departs from it.  In [s @ s], for a
    scalar [s], the first pair passes the test of [normalize] and its
    interchange succeeds; the result is equal to the diagram the scan
    started from, so the generator takes it for "no more moves" and ends
    without yielding anything, and [normal_form] returns [s @ s]. *)
Theorem normalize_equal_scalars_ends :
  tensor (scalar "s") (scalar "s") = Ok two_equal_scalars
  /\ interchange two_equal_scalars 0 1 false = Ok two_equal_scalars
  /\ normalize_scan false two_equal_scalars
       (range (Diagram_len two_equal_scalars - 1))
     = Ok two_equal_scalars
  /\ normalize_next false two_equal_scalars = Ok None
  /\ forall hash, normal_form hash 1 two_equal_scalars false
                  = Some (Ok two_equal_scalars).
Proof. repeat split. Qed.

(** With two different names the same scan yields, as the docstring of
    [normalize] shows. *)
Example normalize_distinct_scalars :
  tensor (scalar "s0") (scalar "s1") = Ok s0_s1
  /\ normalize_next false s0_s1 = Ok (Some s1_s0)
  /\ normalize_next false s1_s0 = Ok (Some s0_s1).
Proof. repeat split. Qed.

Lemma last_cons {A : Type} (l : list A) : forall a d,
  last (a :: l) d = last l a.
Proof.
  induction l as [|b l IH]; intros a d; [reflexivity|].
  change (last (a :: b :: l) d) with (last (b :: l) d).
  rewrite (IH b d), (IH b a). reflexivity.
Qed.

Lemma yields_last left d ds dn : yields left d ds dn -> dn = last ds d.
Proof.
  induction 1 as [d | d d1 ds dn _ _ IH]; [reflexivity|].
  rewrite IH. symmetry. apply last_cons.
Qed.

(** The loop of [normal_form] follows the generator as long as no diagram
    recurs. *)
Lemma normal_form_loop_yields hash left self d ds dn :
  yields left d ds dn ->
  forall cache fuel,
    no_recurrence hash cache ds = true ->
    (length ds < fuel)%nat ->
    normal_form_loop hash fuel left self d cache
    = normal_form_loop hash (fuel - length ds) left self dn
        (rev ds ++ cache).
Proof.
  induction 1 as [d | d d1 ds dn Hnext _ IH]; intros cache fuel Hfresh Hfuel.
  - simpl. rewrite Nat.sub_0_r. reflexivity.
  - simpl in Hfresh. apply andb_true_iff in Hfresh as [Hnew Hfresh].
    apply negb_true_iff in Hnew.
    destruct fuel as [|fuel]; [simpl in Hfuel; lia|].
    simpl. rewrite Hnext, Hnew.
    rewrite IH by (try assumption; simpl in Hfuel; lia).
    rewrite <- app_assoc. reflexivity.
Qed.

(** C2.  [normal_form] pulls the diagrams of [normalize] one by one and
    keeps them in the visited set.  If the generator ends at once, [self]
    is returned.  If it yields [ds] without any recurrence and then ends,
    the last diagram of [ds] is returned.  If it yields [ds] without any
    recurrence and the next diagram it yields is in the visited set, the
    "not connected" [NotImplementedError] for [self] is raised.  In each
    case the result is reached with any fuel above the number of diagrams
    yielded so far. *)
Theorem normal_form_spec (hash : Diagram -> Z) (self : Diagram)
    (left : bool) :
  (normalize_next left self = Ok None ->
   forall fuel, normal_form hash (S fuel) self left = Some (Ok self))
  /\ (forall ds dn fuel,
         yields left self ds dn ->
         no_recurrence hash [] ds = true ->
         normalize_next left dn = Ok None ->
         (length ds < fuel)%nat ->
         normal_form hash fuel self left = Some (Ok dn)
         /\ dn = last ds self)
  /\ (forall ds dn d' fuel,
         yields left self ds dn ->
         no_recurrence hash [] ds = true ->
         normalize_next left dn = Ok (Some d') ->
         in_cache hash d' (rev ds) = true ->
         (length ds < fuel)%nat ->
         normal_form hash fuel self left
         = Some (Err (NotImplementedError self))).
Proof.
  split; [|split].
  - intros Hend fuel. unfold normal_form. simpl. rewrite Hend. reflexivity.
  - intros ds dn fuel Hy Hfresh Hend Hfuel.
    split; [|eapply yields_last, Hy].
    unfold normal_form.
    rewrite (normal_form_loop_yields hash left self self ds dn Hy)
      by assumption.
    destruct (fuel - length ds)%nat as [|k] eqn:Hk; [lia|].
    simpl. rewrite Hend. reflexivity.
  - intros ds dn d' fuel Hy Hfresh Hnext Hin Hfuel.
    unfold normal_form.
    rewrite (normal_form_loop_yields hash left self self ds dn Hy)
      by assumption.
    destruct (fuel - length ds)%nat as [|k] eqn:Hk; [lia|].
    simpl. rewrite Hnext, app_nil_r, Hin. reflexivity.
Qed.

(** The doctest of [normal_form]: on [s0 >> s1] the generator yields
    [s1 >> s0], then [s0 >> s1], then [s1 >> s0] again. *)
Lemma normal_form_spec_witness :
  normal_form (fun _ => 0) 3 s0_s1 false
  = Some (Err (NotImplementedError s0_s1)).
Proof.
  refine (proj2 (proj2 (normal_form_spec (fun _ => 0) s0_s1 false))
            [s1_s0; s0_s1] s0_s1 s1_s0 3%nat _ eq_refl eq_refl eq_refl _).
  - apply yields_cons with (d1 := s1_s0); [reflexivity|].
    apply yields_cons with (d1 := s0_s1); [reflexivity|].
    apply yields_nil.
  - simpl. lia.
Defined.

(** ** The spiral *)

Lemma in_cache_any_hash hash d cache :
  in_cache (fun _ => 0) d cache = false -> in_cache hash d cache = false.
Proof.
  unfold in_cache. induction cache as [|e cache IH]; simpl; [reflexivity|].
  intros [He Hrest]%orb_false_iff. rewrite (IH Hrest), He.
  apply orb_false_iff. split; [apply andb_false_r | reflexivity].
Qed.

(** A run of [normal_form] that meets no recurrence when all hashes
    collide meets none for any other hash. *)
Lemma normal_form_loop_any_hash hash left self fuel :
  forall d cache r,
    normal_form_loop (fun _ => 0) fuel left self d cache = Some (Ok r) ->
    normal_form_loop hash fuel left self d cache = Some (Ok r).
Proof.
  induction fuel as [|fuel IH]; intros d cache r; simpl; [discriminate|].
  destruct (normalize_next left d) as [[d'|]|e]; try (intros H; exact H).
  destruct (in_cache (fun _ => 0) d' cache) eqn:Hc; [discriminate|].
  rewrite (in_cache_any_hash hash d' cache Hc). apply IH.
Qed.

Lemma spiral_normalises_any_hash hash n :
  spiral_normalises (fun _ => 0) n -> spiral_normalises hash n.
Proof.
  intros (d & nf & Hs & Hnf & Hrest). exists d, nf.
  split; [exact Hs|]. split; [|exact Hrest].
  apply normal_form_loop_any_hash, Hnf.
Qed.

(** C8, amended.  On the spirals of size 2 and 5, [normal_form] returns a
    diagram whose boxes are the [n] caps, then the unit (at position [n]),
    then the [n] cups, then the counit (at the last position, [2n + 1]). *)
Theorem spiral_normal_form (hash : Diagram -> Z) :
  spiral_normalises hash 2 /\ spiral_normalises hash 5.
Proof.
  split; apply spiral_normalises_any_hash.
  - eexists; eexists. split; [vm_compute; reflexivity|].
    split; [vm_compute; reflexivity|]. repeat split.
  - eexists; eexists. split; [vm_compute; reflexivity|].
    split; [vm_compute; reflexivity|]. repeat split.
Qed.

(** C8 as stated fails: in the normal form of the spiral of size 2 the box
    that follows the unit is a cup, and no position holds the unit with the
    counit right after it. *)
Lemma spiral_unit_not_before_counit :
  exists d nf,
    _spiral 2 = Ok d
    /\ (forall hash, normal_form hash 1000 d false = Some (Ok nf))
    /\ nth_error (boxes nf) 2 = Some Spiral.unit
    /\ nth_error (boxes nf) 3 = Some Spiral.cup
    /\ ~ (exists k b b',
             nth_error (boxes nf) k = Some b
             /\ nth_error (boxes nf) (S k) = Some b'
             /\ Diagram_eq b Spiral.unit = true
             /\ Diagram_eq b' Spiral.counit = true).
Proof.
  eexists; eexists. split; [vm_compute; reflexivity|].
  split;
    [intros hash; apply normal_form_loop_any_hash; vm_compute; reflexivity|].
  split; [reflexivity|]. split; [reflexivity|].
  intros (k & b & b' & Hb & Hb' & He & He').
  do 6 (destruct k as [|k];
        [simpl in Hb, Hb';
         first [ discriminate
               | injection Hb as <-; injection Hb' as <-;
                 vm_compute in He, He'; discriminate ] |]).
  simpl in Hb. destruct k; discriminate.
Qed.

(* ================================================================= *)
(** * Further properties *)

(** ** Types *)

Lemma clamp_bounds (n i : Z) : 0 <= n -> 0 <= clamp n i <= n.
Proof. intros Hn. unfold clamp. destruct (Z.ltb_spec i 0); lia. Qed.

(** X1.  Cutting a type at any integer and tensoring the two parts gives
    the type back: [t[:k] @ t[k:] == t], also for a negative [k] and for a
    [k] beyond the length of [t]. *)
Theorem Ty_slice_tensor (t : Ty) (k : Z) :
  Ty_tensor (slice t None (Some k)) (slice t (Some k) None) = t
  /\ len (slice t None (Some k)) = clamp (len t) k.
Proof.
  pose proof (clamp_bounds (len t) k (len_nonneg t)) as Hc.
  unfold Ty_tensor, slice. rewrite Z.sub_0_r. simpl skipn.
  rewrite (firstn_all2 (n := Z.to_nat (len t - clamp (len t) k)))
    by (rewrite length_skipn; unfold len in *; lia).
  split; [apply firstn_skipn|].
  unfold len in *. rewrite length_firstn. lia.
Qed.

Lemma Ty_sum_app (ts : list Ty) (start : Ty) :
  Ty_sum ts start = start ++ concat ts.
Proof.
  revert start; induction ts as [|t ts IH]; intros start; simpl.
  - symmetry; apply app_nil_r.
  - rewrite IH. unfold Ty_tensor. apply eq_sym, app_assoc.
Qed.

(** X2.  Powers of a type: [t ** n] has [n] times the length of [t] (and
    is the empty type for [n <= 0]), and [t ** (m + n)] is
    [t ** m @ t ** n] for non-negative [m] and [n]. *)
Theorem Ty_pow_laws (t : Ty) :
  (forall n, len (Ty_pow t n) = Z.max 0 n * len t)
  /\ (forall n, n <= 0 -> Ty_pow t n = [])
  /\ (forall m n, 0 <= m -> 0 <= n ->
                  Ty_pow t (m + n) = Ty_tensor (Ty_pow t m) (Ty_pow t n)).
Proof.
  unfold Ty_pow. split; [|split].
  - intros n. rewrite Ty_sum_app. simpl.
    replace (Z.max 0 n) with (Z.of_nat (Z.to_nat n)) by lia.
    induction (Z.to_nat n) as [|k IH]; [reflexivity|].
    cbn [repeat concat]. rewrite len_app, IH, Nat2Z.inj_succ. lia.
  - intros n Hn. replace (Z.to_nat n) with 0%nat by lia. reflexivity.
  - intros m n Hm Hn. rewrite !Ty_sum_app. simpl. unfold Ty_tensor.
    rewrite Z2Nat.inj_add, repeat_app, concat_app by assumption.
    reflexivity.
Qed.

Lemma Ty_pow_laws_witness :
  Ty_pow Spiral.x (2 + 1) = Ty_tensor (Ty_pow Spiral.x 2) (Ty_pow Spiral.x 1).
Proof.
  apply (proj2 (proj2 (Ty_pow_laws Spiral.x)) 2 1); lia.
Defined.

(** ** Composition and tensor *)

Lemma then_valid (f g : Diagram) :
  length (boxes f) = length (offsets f) ->
  length (boxes g) = length (offsets g) ->
  then_ f g
  = if Ty_eqb (cod f) (dom g)
    then Ok (MkDiagram (dom f) (cod g) (boxes f ++ boxes g)
               (offsets f ++ offsets g))
    else Err (AxiomError_compose (cod f) (dom g)).
Proof.
  intros Hf Hg. unfold then_, cat_then.
  destruct (Ty_eqb (cod f) (dom g)); simpl; [|reflexivity].
  apply Diagram_init_fast. rewrite !length_app. lia.
Qed.

Lemma tensor_valid (f g : Diagram) :
  length (boxes f) = length (offsets f) ->
  length (boxes g) = length (offsets g) ->
  tensor f g
  = Ok (MkDiagram (dom f ++ dom g) (cod f ++ cod g) (boxes f ++ boxes g)
          (offsets f ++ map (fun n => n + len (cod f)) (offsets g))).
Proof.
  intros Hf Hg. unfold tensor. apply Diagram_init_fast.
  rewrite !length_app, length_map. lia.
Qed.

(** X3.  Sequential composition is associative: [(f >> g) >> h] returns a
    diagram exactly when [f >> (g >> h)] does, and it is the same
    diagram. *)
Theorem then_assoc (f g h r : Diagram) :
  length (boxes f) = length (offsets f) ->
  length (boxes g) = length (offsets g) ->
  length (boxes h) = length (offsets h) ->
  (exists fg, then_ f g = Ok fg /\ then_ fg h = Ok r)
  <-> (exists gh, then_ g h = Ok gh /\ then_ f gh = Ok r).
Proof.
  intros Hf Hg Hh.
  assert (Hfg : forall a b : Diagram,
             length (boxes a) = length (offsets a) ->
             length (boxes b) = length (offsets b) ->
             length (boxes a ++ boxes b) = length (offsets a ++ offsets b))
    by (intros; rewrite !length_app; lia).
  split.
  - intros (fg & H1 & H2). rewrite then_valid in H1 by assumption.
    destruct (Ty_eqb (cod f) (dom g)) eqn:E1; [|discriminate].
    injection H1 as <-.
    rewrite then_valid in H2 by (simpl; auto). simpl in H2.
    destruct (Ty_eqb (cod g) (dom h)) eqn:E2; [|discriminate].
    injection H2 as <-.
    eexists. split.
    + rewrite then_valid, E2 by assumption. reflexivity.
    + rewrite then_valid by (simpl; auto). simpl. rewrite E1, !app_assoc.
      reflexivity.
  - intros (gh & H1 & H2). rewrite then_valid in H1 by assumption.
    destruct (Ty_eqb (cod g) (dom h)) eqn:E2; [|discriminate].
    injection H1 as <-.
    rewrite then_valid in H2 by (simpl; auto). simpl in H2.
    destruct (Ty_eqb (cod f) (dom g)) eqn:E1; [|discriminate].
    injection H2 as <-.
    eexists. split.
    + rewrite then_valid, E1 by assumption. reflexivity.
    + rewrite then_valid by (simpl; auto). simpl. rewrite E2, !app_assoc.
      reflexivity.
Qed.

Lemma then_assoc_witness :
  let f := Box "f" [mkOb "x"] [mkOb "y"] None false in
  let g := Box "g" [mkOb "y"] [mkOb "z"] None false in
  let h := Box "h" [mkOb "z"] [mkOb "w"] None false in
  exists gh, then_ g h = Ok gh
             /\ then_ f gh
                = Ok (MkDiagram [mkOb "x"] [mkOb "w"] [f; g; h] [0; 0; 0]).
Proof.
  intros f g h.
  apply (proj1 (then_assoc f g h
                  (MkDiagram [mkOb "x"] [mkOb "w"] [f; g; h] [0; 0; 0])
                  eq_refl eq_refl eq_refl)).
  exists (MkDiagram [mkOb "x"] [mkOb "z"] [f; g] [0; 0]).
  split; reflexivity.
Defined.

(** A diagram is equal, under [==], to the diagram made of its four
    components; for an atomic box this is the last case of [Box.__eq__]. *)
Lemma Diagram_eq_components (f : Diagram) :
  Diagram_eq (MkDiagram (dom f) (cod f) (boxes f) (offsets f)) f = true
  /\ Diagram_eq f (MkDiagram (dom f) (cod f) (boxes f) (offsets f)) = true.
Proof.
  destruct f as [n a b data dg | a b bs os].
  - simpl. rewrite Box_signature_eqb_refl. auto.
  - simpl dom; simpl cod; simpl boxes; simpl offsets.
    split; apply Diagram_eq_refl.
Qed.

(** X4.  Identities are units of the composition, up to [==]:
    [Id(f.dom) >> f == f == f >> Id(f.cod)]. *)
Theorem then_Id_unit (f : Diagram) :
  length (boxes f) = length (offsets f) ->
  exists idl idr l r,
    Id (dom f) = Ok idl /\ then_ idl f = Ok l
    /\ Id (cod f) = Ok idr /\ then_ f idr = Ok r
    /\ Diagram_eq l f = true /\ Diagram_eq f l = true
    /\ Diagram_eq r f = true /\ Diagram_eq f r = true.
Proof.
  intros Hf.
  exists (MkDiagram (dom f) (dom f) [] []), (MkDiagram (cod f) (cod f) [] []).
  exists (MkDiagram (dom f) (cod f) (boxes f) (offsets f)).
  exists (MkDiagram (dom f) (cod f) (boxes f) (offsets f)).
  destruct (Diagram_eq_components f) as [H1 H2].
  repeat split; try assumption.
  - rewrite then_valid by (simpl; auto). simpl. rewrite Ty_eqb_refl.
    reflexivity.
  - rewrite then_valid by (simpl; auto). simpl.
    rewrite Ty_eqb_refl, !app_nil_r. reflexivity.
Qed.

Lemma then_Id_unit_witness :
  let f := Box "f" [mkOb "x"; mkOb "y"] [mkOb "z"] None false in
  exists idl idr l r,
    Id (dom f) = Ok idl /\ then_ idl f = Ok l
    /\ Id (cod f) = Ok idr /\ then_ f idr = Ok r
    /\ Diagram_eq l f = true /\ Diagram_eq f l = true
    /\ Diagram_eq r f = true /\ Diagram_eq f r = true.
Proof. intros f. exact (then_Id_unit f eq_refl). Defined.

Lemma map_add_0 (os : list Z) : map (fun n => n + 0) os = os.
Proof.
  induction os as [|o os IH]; simpl; [reflexivity|].
  rewrite IH, Z.add_0_r. reflexivity.
Qed.

(** X5.  The tensor is associative, and the identity of the empty type is
    its unit up to [==]: [(f @ g) @ h] and [f @ (g @ h)] are the same
    diagram, and [Id(Ty()) @ f == f == f @ Id(Ty())]. *)
Theorem tensor_monoid (f g h : Diagram) :
  length (boxes f) = length (offsets f) ->
  length (boxes g) = length (offsets g) ->
  length (boxes h) = length (offsets h) ->
  (exists fg gh r,
      tensor f g = Ok fg /\ tensor fg h = Ok r
      /\ tensor g h = Ok gh /\ tensor f gh = Ok r)
  /\ (exists e l r,
         Id [] = Ok e /\ tensor e f = Ok l /\ tensor f e = Ok r
         /\ Diagram_eq l f = true /\ Diagram_eq f l = true
         /\ Diagram_eq r f = true /\ Diagram_eq f r = true).
Proof.
  intros Hf Hg Hh. split.
  - do 3 eexists. split; [apply tensor_valid; assumption|].
    split; [|split; [apply tensor_valid; assumption|]].
    + rewrite tensor_valid
        by (simpl; rewrite ?length_app, ?length_map; lia).
      reflexivity.
    + rewrite tensor_valid
        by (simpl; rewrite ?length_app, ?length_map; lia).
      simpl. rewrite !app_assoc, map_app, map_map, len_app.
      rewrite <- !app_assoc. do 4 f_equal. apply map_ext. intros; lia.
  - exists (MkDiagram [] [] [] []).
    exists (MkDiagram (dom f) (cod f) (boxes f) (offsets f)).
    exists (MkDiagram (dom f) (cod f) (boxes f) (offsets f)).
    destruct (Diagram_eq_components f) as [H1 H2].
    repeat split; try assumption.
    + rewrite tensor_valid by (simpl; auto). simpl.
      change (len (@nil Ob)) with 0. rewrite map_add_0. reflexivity.
    + rewrite tensor_valid by (simpl; auto). simpl.
      rewrite !app_nil_r. reflexivity.
Qed.

Lemma tensor_monoid_witness :
  let f := Box "f" [mkOb "x"] [mkOb "y"] None false in
  let g := Box "g" [mkOb "y"] [mkOb "z"; mkOb "z"] None false in
  let h := Box "h" [mkOb "z"] [mkOb "w"] None false in
  exists fg gh r,
    tensor f g = Ok fg /\ tensor fg h = Ok r
    /\ tensor g h = Ok gh /\ tensor f gh = Ok r.
Proof.
  intros f g h. exact (proj1 (tensor_monoid f g h eq_refl eq_refl eq_refl)).
Defined.

(** ** Dagger *)

Lemma dagger_reversed_app (l1 l2 : list Diagram) :
  dagger_reversed (l1 ++ l2)
  = r2 <- dagger_reversed l2 ;; r1 <- dagger_reversed l1 ;; Ok (r2 ++ r1).
Proof.
  induction l1 as [|f l1 IH].
  - simpl. destruct (dagger_reversed l2); simpl; [|reflexivity].
    rewrite app_nil_r. reflexivity.
  - rewrite <- app_comm_cons, !dagger_reversed_cons, IH.
    destruct (dagger_reversed l2) as [r2|e]; simpl; [|reflexivity].
    destruct (dagger_reversed l1) as [r1|e]; simpl; [|reflexivity].
    destruct (dagger f); simpl; [|reflexivity].
    rewrite app_assoc. reflexivity.
Qed.

(** The four components of a dagger, for a box as for a general diagram. *)
Lemma dagger_components (f f' : Diagram) :
  dagger f = Ok f' ->
  dom f' = cod f /\ cod f' = dom f
  /\ dagger_reversed (boxes f) = Ok (boxes f')
  /\ offsets f' = rev (offsets f).
Proof.
  destruct f as [n a b data dg | a b bs os].
  - intros [= <-]. repeat split; reflexivity.
  - rewrite dagger_MkDiagram.
    destruct (dagger_reversed bs) as [bs'|e] eqn:Hr; simpl; [|discriminate].
    unfold Diagram_init. destruct (negb _); [discriminate|].
    intros [= <-]. repeat split; try reflexivity. exact Hr.
Qed.

Lemma Diagram_valid_boxes (f : Diagram) :
  Diagram_valid f = true -> forallb Diagram_valid (boxes f) = true.
Proof.
  destruct f as [n a b data dg | a b bs os]; simpl.
  - reflexivity.
  - intros [_ H]%andb_true_iff. exact H.
Qed.

(** X6.  The dagger reverses the composition:
    [(f >> g).dagger()] is the diagram [g.dagger() >> f.dagger()]. *)
Theorem dagger_then (f g fg : Diagram) :
  Diagram_valid f = true -> Diagram_valid g = true ->
  then_ f g = Ok fg ->
  exists f' g' fg',
    dagger f = Ok f' /\ dagger g = Ok g'
    /\ dagger fg = Ok fg' /\ then_ g' f' = Ok fg'.
Proof.
  intros Hvf Hvg Hfg.
  pose proof (Diagram_valid_lengths f Hvf) as Hlf.
  pose proof (Diagram_valid_lengths g Hvg) as Hlg.
  rewrite then_valid in Hfg by assumption.
  destruct (Ty_eqb (cod f) (dom g)) eqn:Heq; [|discriminate].
  injection Hfg as <-.
  destruct (dagger_involutive_valid f Hvf) as (f' & Hf & Hvf' & _).
  destruct (dagger_involutive_valid g Hvg) as (g' & Hg & Hvg' & _).
  destruct (dagger_components f f' Hf) as (Hdf & Hcf & Hbf & Hof).
  destruct (dagger_components g g' Hg) as (Hdg & Hcg & Hbg & Hog).
  pose proof (Diagram_valid_lengths f' Hvf') as Hlf'.
  pose proof (Diagram_valid_lengths g' Hvg') as Hlg'.
  exists f', g'. eexists. split; [exact Hf|]. split; [exact Hg|].
  split.
  - rewrite dagger_MkDiagram, dagger_reversed_app, Hbg, Hbf. cbn [bind].
    apply Diagram_init_fast.
    rewrite Hof, length_rev in Hlf'. rewrite Hog, length_rev in Hlg'.
    rewrite length_rev, !length_app. lia.
  - rewrite then_valid by assumption.
    rewrite Hcg, Hdf, Hdg, Hcf, Hog, Hof, rev_app_distr.
    apply Ty_eqb_eq in Heq. rewrite Heq, Ty_eqb_refl. reflexivity.
Qed.

Lemma dagger_then_witness :
  let f := Box "f" [mkOb "x"] [mkOb "y"] None false in
  let g := Box "g" [mkOb "y"] [mkOb "z"] None false in
  exists f' g' fg',
    dagger f = Ok f' /\ dagger g = Ok g'
    /\ dagger (MkDiagram [mkOb "x"] [mkOb "z"] [f; g] [0; 0]) = Ok fg'
    /\ then_ g' f' = Ok fg'.
Proof.
  intros f g.
  exact (dagger_then f g (MkDiagram [mkOb "x"] [mkOb "z"] [f; g] [0; 0])
           eq_refl eq_refl eq_refl).
Defined.

(** ** The interchange law on two boxes *)

Section TwoBoxes.

Variables (n0 n1 : string) (a b c d : Ty) (data0 data1 : option string).
Variables (dg0 dg1 : bool).

Let f0 : Diagram := Box n0 a b data0 dg0.
Let f1 : Diagram := Box n1 c d data1 dg1.

(** X7.  For two boxes [f0 : a -> b] and [f1 : c -> d]:
    [Id(a) @ f1 >> f0 @ Id(d)] interchanged at [(0, 1)] is [f0 @ f1];
    [f0 @ f1] interchanged at [(0, 1)] is [Id(a) @ f1 >> f0 @ Id(d)] unless
    [b] and [c] are both empty, in which case [f0] is moved to the right
    of [f1] instead (offsets [[0, len(d)]]); and the dagger of [f0 @ f1],
    interchanged at [(0, 1)], is [f0.dagger() @ f1.dagger()]. *)
Theorem interchange_two_boxes :
  exists t u,
    tensor f0 f1 = Ok t
    /\ (l <- (ia <- Id a ;; tensor ia f1) ;;
        r <- (id <- Id d ;; tensor f0 id) ;;
        then_ l r) = Ok u
    /\ interchange u 0 1 false = Ok t
    /\ interchange t 0 1 false
       = Ok (if 0 <? len b + len c then u
             else MkDiagram (a ++ c) (b ++ d) [f1; f0] [0; len d])
    /\ (t' <- dagger t ;; interchange t' 0 1 false)
       = (f0' <- dagger f0 ;; f1' <- dagger f1 ;; tensor f0' f1').
Proof.
  pose proof (len_nonneg a). pose proof (len_nonneg b).
  pose proof (len_nonneg c). pose proof (len_nonneg d).
  exists (MkDiagram (a ++ c) (b ++ d) [f0; f1] [0; len b]).
  exists (MkDiagram (a ++ c) (b ++ d) [f1; f0] [len a; 0]).
  split; [reflexivity|].
  split.
  { unfold Id. cbn [Diagram_init bind len length Z.eqb negb Z.of_nat].
    rewrite !tensor_valid by reflexivity. cbn [bind].
    rewrite then_valid by reflexivity.
    simpl. rewrite Ty_eqb_refl. reflexivity. }
  split; [|split].
  - unfold interchange.
    rewrite (interchange_body_adjacent
               (MkDiagram (a ++ c) (b ++ d) [f1; f0] [len a; 0])
               [] [] f1 f0 [] [] (len a) 0
               eq_refl eq_refl eq_refl eq_refl) by (left; split; reflexivity).
    unfold commute_offsets. simpl.
    destruct (Z.geb_spec (len a) (len a)); [|lia].
    unfold swapped. simpl. do 4 f_equal. lia.
  - unfold interchange.
    rewrite (interchange_body_adjacent
               (MkDiagram (a ++ c) (b ++ d) [f0; f1] [0; len b])
               [] [] f0 f1 [] [] 0 (len b)
               eq_refl eq_refl eq_refl eq_refl) by (left; split; reflexivity).
    unfold commute_offsets. simpl.
    destruct (Z.ltb_spec 0 (len b + len c));
      destruct (Z.geb_spec 0 (len b + len c)); try lia.
    + destruct (Z.geb_spec (len b) (len b)); [|lia].
      unfold swapped. simpl. do 3 f_equal. lia.
    + unfold swapped. simpl. do 3 f_equal; [lia|]. f_equal. lia.
  - unfold f0, f1. cbn [dagger dagger_reversed bind app rev].
    rewrite Diagram_init_fast by reflexivity. cbn [bind].
    unfold interchange.
    rewrite (interchange_body_adjacent
               (MkDiagram (b ++ d) (a ++ c)
                  [Box n1 d c data1 (negb dg1); Box n0 b a data0 (negb dg0)]
                  [len b; 0])
               [] []
               (Box n1 d c data1 (negb dg1)) (Box n0 b a data0 (negb dg0))
               [] [] (len b) 0
               eq_refl eq_refl eq_refl eq_refl) by (left; split; reflexivity).
    unfold commute_offsets. simpl.
    destruct (Z.geb_spec (len b) (len b)); [|lia].
    unfold swapped. simpl. unfold tensor. simpl.
    rewrite Diagram_init_fast by reflexivity.
    unfold Ty_tensor. do 4 f_equal. lia.
Qed.

End TwoBoxes.

Lemma interchange_two_boxes_witness :
  let f0 := Box "f0" [mkOb "x"] [mkOb "y"] None false in
  let f1 := Box "f1" [mkOb "z"] [mkOb "w"] None false in
  exists t u,
    tensor f0 f1 = Ok t
    /\ (l <- (ia <- Id [mkOb "x"] ;; tensor ia f1) ;;
        r <- (id <- Id [mkOb "w"] ;; tensor f0 id) ;;
        then_ l r) = Ok u
    /\ interchange u 0 1 false = Ok t
    /\ interchange t 0 1 false = Ok u
    /\ (t' <- dagger t ;; interchange t' 0 1 false)
       = (f0' <- dagger f0 ;; f1' <- dagger f1 ;; tensor f0' f1').
Proof.
  intros f0 f1.
  exact (interchange_two_boxes "f0" "f1" [mkOb "x"] [mkOb "y"] [mkOb "z"]
           [mkOb "w"] None None false false).
Defined.

(** ** What an interchange keeps *)

(** A property kept by every exchange of two adjacent boxes is kept by
    [interchange], whatever the two positions are. *)
Lemma interchange_keeps (P : Diagram -> Prop) :
  (forall recurse r p q left r',
      P r -> p = q + 1 \/ q = p + 1 ->
      interchange_body recurse r p q left = Ok r' -> P r') ->
  forall d i j left d',
    P d -> interchange d i j left = Ok d' -> P d'.
Proof.
  intros Hstep d i j left d' Hd.
  destruct (Z.eq_dec i j) as [->|Hne].
  { unfold interchange, interchange_body. destruct (_ || _); [discriminate|].
    rewrite Z.eqb_refl. intros [= <-]. exact Hd. }
  destruct (Z_lt_dec j (i - 1)) as [Hfar|Hnear].
  { unfold interchange, interchange_body. destruct (_ || _); [discriminate|].
    destruct (Z.eqb_spec i j); [lia|].
    destruct (Z.ltb_spec j (i - 1)); [|lia].
    apply for_each_invariant; [|exact Hd].
    intros s k s' _ Hs. apply Hstep; [exact Hs|lia]. }
  destruct (Z_gt_dec j (i + 1)) as [Hfar|Hnear'].
  { unfold interchange, interchange_body. destruct (_ || _); [discriminate|].
    destruct (Z.eqb_spec i j); [lia|].
    destruct (Z.ltb_spec j (i - 1)); [lia|].
    destruct (Z.gtb_spec j (i + 1)); [|lia].
    apply for_each_invariant; [|exact Hd].
    intros s k s' _ Hs. apply Hstep; [exact Hs|lia]. }
  apply Hstep; [exact Hd|lia].
Qed.

(** The shape of the result of an exchange of two adjacent boxes. *)
Lemma interchange_body_adjacent_shape recurse (r : Diagram)
    (pre : list Diagram) (x y : Diagram) (suf : list Diagram) (p q : Z)
    (left : bool) (r' : Diagram) :
  length (boxes r) = length (offsets r) ->
  boxes r = pre ++ x :: y :: suf ->
  (p = len pre /\ q = len pre + 1) \/ (p = len pre + 1 /\ q = len pre) ->
  interchange_body recurse r p q left = Ok r' ->
  boxes r' = pre ++ y :: x :: suf
  /\ dom r' = dom r /\ cod r' = cod r
  /\ length (boxes r') = length (offsets r').
Proof.
  intros Hlen Hb Hpq Hi.
  pose proof (len_nonneg pre) as Hpre.
  destruct (split_two (offsets r) (len pre))
    as (os1 & o0 & o1 & os2 & Ho & Hlo).
  { lia. }
  { unfold len. rewrite <- Hlen, Hb, length_app. simpl. lia. }
  assert (Hl1 : length os1 = length pre) by (unfold len in Hlo; lia).
  assert (Hl2 : length os2 = length suf).
  { rewrite Hb, Ho, !length_app in Hlen. simpl in Hlen. lia. }
  rewrite (interchange_body_adjacent _ _ _ _ _ _ _ _ _ Hb Ho Hl1 Hl2) in Hi
    by assumption.
  destruct (commute_offsets left x y o0 o1) as [[o0' o1']|e];
    simpl in Hi; [|discriminate].
  injection Hi as <-. simpl. repeat split.
  rewrite !length_app. simpl. lia.
Qed.

Lemma interchange_body_adjacent_keeps recurse (r : Diagram) (p q : Z)
    (left : bool) (r' : Diagram) :
  length (boxes r) = length (offsets r) ->
  p = q + 1 \/ q = p + 1 ->
  interchange_body recurse r p q left = Ok r' ->
  Permutation (boxes r) (boxes r')
  /\ dom r' = dom r /\ cod r' = cod r
  /\ length (boxes r') = length (offsets r').
Proof.
  intros Hlen Hpq Hi.
  assert (Hrange : (0 <= p < Diagram_len r) /\ (0 <= q < Diagram_len r)).
  { unfold interchange_body in Hi.
    destruct (Z.leb_spec 0 p); destruct (Z.ltb_spec p (Diagram_len r));
      destruct (Z.leb_spec 0 q); destruct (Z.ltb_spec q (Diagram_len r));
      simpl in Hi; try discriminate; lia. }
  unfold Diagram_len in Hrange.
  destruct (split_two (boxes r) (Z.min p q))
    as (pre & x & y & suf & Hb & Hl); [lia | lia |].
  destruct (interchange_body_adjacent_shape recurse r pre x y suf p q left r'
              Hlen Hb) as (Hb' & Hd & Hc & Hv); [lia | exact Hi |].
  repeat split; try assumption.
  rewrite Hb, Hb'. apply Permutation_app_head, perm_swap.
Qed.

(** What every successful [interchange] keeps. *)
Lemma interchange_keeps_shape (d : Diagram) (i j : Z) (left : bool)
    (d' : Diagram) :
  length (boxes d) = length (offsets d) ->
  interchange d i j left = Ok d' ->
  dom d' = dom d /\ cod d' = cod d
  /\ Permutation (boxes d) (boxes d')
  /\ Diagram_len d' = Diagram_len d
  /\ length (boxes d') = length (offsets d').
Proof.
  intros Hlen Hi.
  assert (H : dom d' = dom d /\ cod d' = cod d
              /\ Permutation (boxes d) (boxes d')
              /\ length (boxes d') = length (offsets d')).
  { revert Hi.
    apply (interchange_keeps
             (fun r => dom r = dom d /\ cod r = cod d
                       /\ Permutation (boxes d) (boxes r)
                       /\ length (boxes r) = length (offsets r))).
    - intros recurse r p q lft r' (Hd & Hc & Hp & Hv) Hpq Hstep.
      destruct (interchange_body_adjacent_keeps recurse r p q lft r'
                  Hv Hpq Hstep) as (Hp' & Hd' & Hc' & Hv').
      repeat split; try congruence.
      eapply Permutation_trans; eassumption.
    - repeat split; auto. }
  destruct H as (Hd & Hc & Hp & Hv). repeat split; try assumption.
  unfold Diagram_len, len. f_equal. symmetry.
  apply Permutation_length, Hp.
Qed.

(** X8.  Whatever the positions [i] and [j] and the flag [left], a
    successful [interchange] keeps the domain, the codomain and the number
    of boxes of the diagram, and its boxes are a rearrangement of the boxes
    it started from. *)
Theorem interchange_invariants (d : Diagram) (i j : Z) (left : bool)
    (d' : Diagram) :
  length (boxes d) = length (offsets d) ->
  interchange d i j left = Ok d' ->
  dom d' = dom d /\ cod d' = cod d
  /\ Permutation (boxes d) (boxes d')
  /\ Diagram_len d' = Diagram_len d
  /\ length (boxes d') = length (offsets d').
Proof. exact (interchange_keeps_shape d i j left d'). Qed.

(** The doctest [d.interchange(2, 0)] of [interchange]. *)
Lemma interchange_invariants_witness :
  let f0 := Box "f0" [mkOb "x"] [mkOb "y"] None false in
  let f1 := Box "f1" [mkOb "y"] [mkOb "x"] None false in
  let d := MkDiagram [mkOb "x"; mkOb "y"] [mkOb "x"; mkOb "y"]
             [f0; f1; f1; f0] [0; 0; 1; 1] in
  let d' := MkDiagram [mkOb "x"; mkOb "y"] [mkOb "x"; mkOb "y"]
              [f1; f0; f1; f0] [1; 0; 0; 1] in
  dom d' = dom d /\ cod d' = cod d
  /\ Permutation (boxes d) (boxes d')
  /\ Diagram_len d' = Diagram_len d
  /\ length (boxes d') = length (offsets d').
Proof.
  intros f0 f1 d d'.
  exact (interchange_invariants d 2 0 false d' eq_refl eq_refl).
Defined.

(** ** Where an interchange puts the boxes *)

Lemma walk_forward (i : Z) (b : Diagram) (suf : list Diagram) :
  forall (mid pre : list Diagram) (s : nat) (r r' : Diagram),
    length (boxes r) = length (offsets r) ->
    boxes r = pre ++ b :: mid ++ suf ->
    len pre = i + Z.of_nat s ->
    for_each (map Z.of_nat (seq s (length mid))) r
      (fun result k => interchange_adjacent result (i + k) (i + k + 1) false)
    = Ok r' ->
    boxes r' = pre ++ mid ++ b :: suf.
Proof.
  induction mid as [|m mid IH]; intros pre s r r' Hlen Hb Hpre; simpl.
  - intros [= <-]. exact Hb.
  - destruct (interchange_adjacent r (i + Z.of_nat s) (i + Z.of_nat s + 1)
                false) as [r1|e] eqn:Hstep; simpl; [|discriminate].
    unfold interchange_adjacent in Hstep.
    destruct (fun H => interchange_body_adjacent_shape _ r pre b m
                         (mid ++ suf) _ _ false r1 Hlen Hb H Hstep)
      as (Hb1 & _ & _ & Hlen1); [lia|].
    intros Hrest.
    rewrite (IH (pre ++ [m]) (S s) r1 r' Hlen1); try assumption.
    + rewrite <- app_assoc. reflexivity.
    + rewrite Hb1, <- app_assoc. reflexivity.
    + rewrite len_app. change (len [m]) with 1. lia.
Qed.

Lemma walk_backward (i : Z) (b : Diagram) (pre : list Diagram) :
  forall (mid suf : list Diagram) (s : nat) (r r' : Diagram),
    length (boxes r) = length (offsets r) ->
    boxes r = pre ++ mid ++ b :: suf ->
    len pre + len mid = i - Z.of_nat s ->
    for_each (map Z.of_nat (seq s (length mid))) r
      (fun result k => interchange_adjacent result (i - k) (i - k - 1) false)
    = Ok r' ->
    boxes r' = pre ++ b :: mid ++ suf.
Proof.
  induction mid as [|m mid IH] using rev_ind;
    intros suf s r r' Hlen Hb Hpos.
  - simpl. intros [= <-]. exact Hb.
  - rewrite length_app, Nat.add_comm. simpl.
    destruct (interchange_adjacent r (i - Z.of_nat s) (i - Z.of_nat s - 1)
                false) as [r1|e] eqn:Hstep; simpl; [|discriminate].
    rewrite len_app in Hpos. change (len [m]) with 1 in Hpos.
    unfold interchange_adjacent in Hstep.
    assert (Hb0 : boxes r = (pre ++ mid) ++ m :: b :: suf)
      by (rewrite Hb, <- !app_assoc; reflexivity).
    destruct (fun H => interchange_body_adjacent_shape _ r (pre ++ mid) m b
                         suf _ _ false r1 Hlen Hb0 H Hstep)
      as (Hb1 & _ & _ & Hlen1); [rewrite len_app; lia|].
    intros Hrest.
    rewrite (IH (m :: suf) (S s) r1 r' Hlen1); try assumption.
    + rewrite <- app_assoc. reflexivity.
    + rewrite Hb1, <- app_assoc. reflexivity.
    + lia.
Qed.

(** X9.  [interchange(i, j)] moves the box at position [i] to position [j]
    and keeps the order of all the other boxes: the boxes between the two
    positions are shifted by one, not exchanged with it.  Positions that
    are more than one apart ignore the flag [left]. *)
Theorem interchange_moves_box (d : Diagram) (bs1 : list Diagram)
    (b : Diagram) (mid bs2 : list Diagram) (left : bool) (d' : Diagram) :
  length (boxes d) = length (offsets d) ->
  (boxes d = bs1 ++ b :: mid ++ bs2 ->
   interchange d (len bs1) (len bs1 + len mid) left = Ok d' ->
   boxes d' = bs1 ++ mid ++ b :: bs2)
  /\ (boxes d = bs1 ++ mid ++ b :: bs2 ->
      interchange d (len bs1 + len mid) (len bs1) left = Ok d' ->
      boxes d' = bs1 ++ b :: mid ++ bs2)
  /\ (forall i j, j < i - 1 \/ j > i + 1 ->
                  interchange d i j left = interchange d i j false).
Proof.
  intros Hlen.
  pose proof (len_nonneg bs1) as H1. pose proof (len_nonneg mid) as Hm.
  split; [|split].
  - intros Hb. destruct mid as [|m [|m' mid]].
    + rewrite Z.add_0_r. unfold interchange, interchange_body.
      destruct (_ || _); [discriminate|]. rewrite Z.eqb_refl.
      intros [= <-]. exact Hb.
    + intros Hi. unfold interchange in Hi.
      apply (fun H => interchange_body_adjacent_shape _ d bs1 b m bs2 _ _
                        left d' Hlen Hb H Hi).
      left. split; reflexivity.
    + set (mm := m :: m' :: mid) in *.
      assert (Hmm : 2 <= len mm)
        by (unfold mm; rewrite !len_cons; pose proof (len_nonneg mid); lia).
      unfold interchange, interchange_body.
      destruct (_ || _); [discriminate|].
      destruct (Z.eqb_spec (len bs1) (len bs1 + len mm)); [lia|].
      destruct (Z.ltb_spec (len bs1 + len mm) (len bs1 - 1)); [lia|].
      destruct (Z.gtb_spec (len bs1 + len mm) (len bs1 + 1)); [|lia].
      unfold range.
      replace (Z.to_nat (len bs1 + len mm - len bs1)) with (length mm)
        by (unfold len; lia).
      apply (walk_forward (len bs1) b bs2 mm bs1 0 d d' Hlen Hb). lia.
  - intros Hb. destruct mid as [|m mid] using rev_ind.
    + rewrite Z.add_0_r. unfold interchange, interchange_body.
      destruct (_ || _); [discriminate|]. rewrite Z.eqb_refl.
      intros [= <-]. exact Hb.
    + clear IHmid. destruct mid as [|m' mid] using rev_ind.
      * intros Hi. simpl in Hb. unfold interchange in Hi.
        apply (fun H => interchange_body_adjacent_shape _ d bs1 m b bs2 _ _
                          left d' Hlen Hb H Hi).
        right. split; reflexivity.
      * clear IHmid. set (mm := (mid ++ [m']) ++ [m]) in *.
        assert (Hmm : 2 <= len mm)
          by (unfold mm; rewrite !len_app; change (len [m]) with 1;
              change (len [m']) with 1; pose proof (len_nonneg mid); lia).
        unfold interchange, interchange_body.
        destruct (_ || _); [discriminate|].
        destruct (Z.eqb_spec (len bs1 + len mm) (len bs1)); [lia|].
        destruct (Z.ltb_spec (len bs1) (len bs1 + len mm - 1)); [|lia].
        unfold range.
        replace (Z.to_nat (len bs1 + len mm - len bs1)) with (length mm)
          by (unfold len; lia).
        apply (walk_backward (len bs1 + len mm) b bs1 mm bs2 0 d d' Hlen Hb).
        lia.
  - intros i j Hfar. unfold interchange, interchange_body.
    destruct (_ || _); [reflexivity|].
    destruct (Z.eqb_spec i j); [lia|].
    destruct (Z.ltb_spec j (i - 1)); [reflexivity|].
    destruct (Z.gtb_spec j (i + 1)); [reflexivity|]. lia.
Qed.

(** The doctest [d.interchange(2, 0)]: the box at position 2 goes to
    position 0, and the two boxes before it move one place up. *)
Lemma interchange_moves_box_witness :
  let f0 := Box "f0" [mkOb "x"] [mkOb "y"] None false in
  let f1 := Box "f1" [mkOb "y"] [mkOb "x"] None false in
  let d := MkDiagram [mkOb "x"; mkOb "y"] [mkOb "x"; mkOb "y"]
             [f0; f1; f1; f0] [0; 0; 1; 1] in
  let d' := MkDiagram [mkOb "x"; mkOb "y"] [mkOb "x"; mkOb "y"]
              [f1; f0; f1; f0] [1; 0; 0; 1] in
  boxes d' = [] ++ f1 :: [f0; f1] ++ [f0].
Proof.
  intros f0 f1 d d'.
  exact (proj1 (proj2 (interchange_moves_box d [] f1 [f0; f1] [f0] false d'
                         eq_refl)) eq_refl eq_refl).
Defined.

(** ** Undoing an interchange *)

(** X10.  An exchange of two adjacent boxes can be undone by an exchange
    at the same positions: with [left = True] when the first box had moved
    to the right of the second one, with [left = False] when the second
    box had moved to the left of the first one. *)
Theorem interchange_adjacent_undo (d : Diagram) (i : Z) (left : bool)
    (d' : Diagram) :
  length (boxes d) = length (offsets d) ->
  interchange d i (i + 1) left = Ok d' ->
  interchange d' i (i + 1) false = Ok d
  \/ interchange d' i (i + 1) true = Ok d.
Proof.
  intros Hlen Hi. unfold interchange in *.
  assert (Hrange : 0 <= i /\ i + 1 < Diagram_len d).
  { unfold interchange_body in Hi.
    destruct (Z.leb_spec 0 i); destruct (Z.ltb_spec (i + 1) (Diagram_len d));
      rewrite ?andb_false_r, ?orb_true_r in Hi; simpl in Hi;
      try discriminate; lia. }
  unfold Diagram_len in Hrange.
  destruct d as [n a b data dg | a b bs os];
    [simpl in Hrange; unfold len in Hrange; simpl in Hrange; lia|].
  simpl in Hlen, Hrange.
  destruct (split_two bs i) as (bs1 & box0 & box1 & bs2 & Hb & Hl);
    [lia | lia |].
  destruct (split_two os i) as (os1 & off0 & off1 & os2 & Ho & Hlo);
    [lia | unfold len in *; lia |].
  assert (Hl1 : length os1 = length bs1) by (unfold len in *; lia).
  assert (Hl2 : length os2 = length bs2).
  { rewrite Hb, Ho, !length_app in Hlen. simpl in Hlen. lia. }
  subst bs os.
  rewrite (interchange_body_adjacent (MkDiagram a b _ _)
             bs1 bs2 box0 box1 os1 os2 off0 off1
             eq_refl eq_refl Hl1 Hl2) in Hi by lia.
  destruct (commute_offsets left box0 box1 off0 off1) as [[o0 o1]|e] eqn:Hc;
    simpl in Hi; [|discriminate].
  injection Hi as <-. unfold swapped. simpl.
  apply commute_offsets_Ok in Hc as [(Hge & -> & ->) | (Hge & -> & ->)].
  - right.
    rewrite (interchange_body_adjacent (MkDiagram a b _ _)
               bs1 bs2 box1 box0 os1 os2 _ _
               eq_refl eq_refl Hl1 Hl2) by lia.
    unfold commute_offsets.
    destruct (Z.geb_spec (off0 - len (dom box1) + len (cod box1))
                (off1 + len (cod box1))); [|lia].
    simpl. unfold swapped. simpl. do 4 f_equal. lia.
  - left.
    rewrite (interchange_body_adjacent (MkDiagram a b _ _)
               bs1 bs2 box1 box0 os1 os2 _ _
               eq_refl eq_refl Hl1 Hl2) by lia.
    unfold commute_offsets. simpl andb. cbv iota.
    destruct (Z.geb_spec (off1 - len (cod box0) + len (dom box0))
                (off0 + len (dom box0))); [|lia].
    simpl. unfold swapped. simpl. do 5 f_equal. lia.
Qed.

(** [(cup >> cap).interchange(0, 1)] from the doctests, and back. *)
Lemma interchange_adjacent_undo_witness :
  let d := MkDiagram (Spiral.x ++ Spiral.x) (Spiral.x ++ Spiral.x)
             [Spiral.cup; Spiral.cap] [0; 0] in
  let d' := MkDiagram (Spiral.x ++ Spiral.x) (Spiral.x ++ Spiral.x)
              [Spiral.cap; Spiral.cup] [0; 2] in
  interchange d' 0 (0 + 1) false = Ok d
  \/ interchange d' 0 (0 + 1) true = Ok d.
Proof.
  intros d d'.
  exact (interchange_adjacent_undo d 0 false d' eq_refl eq_refl).
Defined.

(** ** Normalisation *)

Lemma getitem_nth {A : Type} (l : list A) (i : Z) :
  0 <= i < len l -> exists a, getitem l i = Ok a.
Proof.
  intros Hi. unfold getitem.
  destruct (Z.ltb_spec i 0); [lia|]. destruct (Z.ltb_spec i 0); [lia|].
  destruct (nth_error l (Z.to_nat i)) as [a|] eqn:Hn; [eauto|].
  apply nth_error_None in Hn. unfold len in Hi. lia.
Qed.

(** Where [normalize] asks for an interchange, the interchange answers: the
    test of [normalize] is the first test that [interchange] tries. *)
Lemma commute_offsets_tested left box0 box1 off0 off1 :
  (left && (off1 >=? off0 + len (cod box0)))
  || (negb left && (off0 >=? off1 + len (dom box1))) = true ->
  exists offs, commute_offsets left box0 box1 off0 off1 = Ok offs.
Proof.
  unfold commute_offsets. destruct left; simpl.
  - rewrite orb_false_r. intros ->. eauto.
  - intros ->. eauto.
Qed.

Lemma normalize_scan_result (left : bool) (d : Diagram) :
  length (boxes d) = length (offsets d) ->
  forall indices,
    (forall i, In i indices -> 0 <= i /\ i + 1 < Diagram_len d) ->
    normalize_scan left d indices = Ok d
    \/ exists i d', In i indices
                    /\ interchange d i (i + 1) left = Ok d'
                    /\ normalize_scan left d indices = Ok d'.
Proof.
  intros Hlen. induction indices as [|i rest IH]; intros Hin.
  - left. reflexivity.
  - destruct (Hin i (or_introl eq_refl)) as [H0 H1].
    unfold Diagram_len in H1.
    destruct (split_two (boxes d) i) as (bs1 & box0 & box1 & bs2 & Hb & Hl);
      [lia | lia |].
    destruct (split_two (offsets d) i) as (os1 & off0 & off1 & os2 & Ho & Hlo);
      [lia | unfold len in *; lia |].
    assert (Hl1 : length os1 = length bs1) by (unfold len in *; lia).
    assert (Hl2 : length os2 = length bs2).
    { rewrite Hb, Ho, !length_app in Hlen. simpl in Hlen. lia. }
    cbn [normalize_scan]. rewrite Hb, Ho.
    rewrite (getitem_app_cons bs1 box0 (box1 :: bs2)) by lia.
    rewrite (getitem_app_cons_next bs1 box0 box1 bs2) by lia.
    rewrite (getitem_app_cons os1 off0 (off1 :: os2)) by lia.
    rewrite (getitem_app_cons_next os1 off0 off1 os2) by lia.
    cbn [bind].
    destruct ((left && (off1 >=? off0 + len (cod box0)))
              || (negb left && (off0 >=? off1 + len (dom box1)))) eqn:Htest.
    + destruct (commute_offsets_tested left box0 box1 off0 off1 Htest)
        as (offs & Hc).
      assert (Hi : interchange d i (i + 1) left
                   = Ok (swapped d bs1 box0 box1 bs2 os1 offs os2)).
      { unfold interchange.
        rewrite (interchange_body_adjacent _ _ _ _ _ _ _ _ _ Hb Ho Hl1 Hl2)
          by lia.
        rewrite Hc. reflexivity. }
      rewrite Hi. right. exists i. eexists.
      split; [left; reflexivity|]. split; [exact Hi | reflexivity].
    + destruct IH as [IH | (k & d' & Hk & Hi & Hs)].
      * intros k Hk. apply Hin. right. exact Hk.
      * left. exact IH.
      * right. exists k, d'. split; [right; exact Hk|]. split; assumption.
Qed.

(** The two outcomes of a round of [normalize]. *)
Lemma normalize_next_cases (left : bool) (d : Diagram) :
  length (boxes d) = length (offsets d) ->
  normalize_next left d = Ok None
  \/ exists i d',
       0 <= i /\ i + 1 < Diagram_len d
       /\ interchange d i (i + 1) left = Ok d'
       /\ normalize_next left d = Ok (Some d').
Proof.
  intros Hlen. unfold normalize_next.
  destruct (normalize_scan_result left d Hlen
              (range (Diagram_len d - 1))) as [Hs | (i & d' & Hin & Hi & Hs)].
  - intros i Hi%In_range. lia.
  - rewrite Hs. simpl. rewrite Diagram_eq_refl. left. reflexivity.
  - rewrite Hs. simpl. apply In_range in Hin.
    destruct (Diagram_eq d' d).
    + left. reflexivity.
    + right. exists i, d'. repeat split; try assumption; lia.
Qed.

(** X11.  On a diagram with as many offsets as boxes, a round of
    [normalize] never raises: either the generator ends, or it yields the
    result of one successful interchange of two adjacent boxes of the
    current diagram, with the flag [left] it was given.  (The handler of
    [InterchangerError] is never entered.) *)
Theorem normalize_next_total (left : bool) (d : Diagram) :
  length (boxes d) = length (offsets d) ->
  normalize_next left d = Ok None
  \/ exists i d',
       0 <= i /\ i + 1 < Diagram_len d
       /\ interchange d i (i + 1) left = Ok d'
       /\ normalize_next left d = Ok (Some d').
Proof. exact (normalize_next_cases left d). Qed.

Lemma normalize_next_total_witness :
  normalize_next false s0_s1 = Ok None
  \/ exists i d',
       0 <= i /\ i + 1 < Diagram_len s0_s1
       /\ interchange s0_s1 i (i + 1) false = Ok d'
       /\ normalize_next false s0_s1 = Ok (Some d').
Proof. exact (normalize_next_total false s0_s1 eq_refl). Defined.

(** A property kept by every diagram that [normalize] yields holds of the
    diagram that [normal_form] returns, and the generator has ended
    there. *)
Lemma normal_form_loop_keeps (P : Diagram -> Prop) hash left self :
  (forall d d', P d -> normalize_next left d = Ok (Some d') -> P d') ->
  forall fuel d cache r,
    P d ->
    normal_form_loop hash fuel left self d cache = Some (Ok r) ->
    P r /\ normalize_next left r = Ok None.
Proof.
  intros Hstep. induction fuel as [|fuel IH]; intros d cache r Hd; simpl;
    [discriminate|].
  destruct (normalize_next left d) as [[d'|]|e] eqn:Hn; try discriminate.
  - destruct (in_cache hash d' cache); [discriminate|].
    apply IH. eapply Hstep; eassumption.
  - intros [= <-]. auto.
Qed.

Lemma normalize_next_interchange left d d' :
  length (boxes d) = length (offsets d) ->
  normalize_next left d = Ok (Some d') ->
  exists i, interchange d i (i + 1) left = Ok d'.
Proof.
  intros Hlen Hn.
  destruct (normalize_next_cases left d Hlen)
    as [H | (i & d'' & _ & _ & Hi & H)]; rewrite H in Hn; [discriminate|].
  injection Hn as <-. eauto.
Qed.

(** X12.  The diagram that [normal_form] returns has the domain and the
    codomain of the diagram it was given, and the same boxes in another
    order; if the diagram it was given is well formed with offsets in
    range, so is the result, which the validating constructor accepts. *)
Theorem normal_form_invariants hash (fuel : nat) (d : Diagram)
    (left : bool) (nf : Diagram) :
  length (boxes d) = length (offsets d) ->
  normal_form hash fuel d left = Some (Ok nf) ->
  dom nf = dom d /\ cod nf = cod d
  /\ Permutation (boxes d) (boxes nf)
  /\ length (boxes nf) = length (offsets nf)
  /\ (in_range_well_formed d -> in_range_well_formed nf /\ well_formed nf).
Proof.
  intros Hlen Hnf. unfold normal_form in Hnf.
  apply (normal_form_loop_keeps
           (fun r => length (boxes r) = length (offsets r)
                     /\ dom r = dom d /\ cod r = cod d
                     /\ Permutation (boxes d) (boxes r)
                     /\ (in_range_well_formed d -> in_range_well_formed r)))
    in Hnf.
  - destruct Hnf as ((Hv & Hd & Hc & Hp & Hw) & _).
    repeat split; auto using in_range_well_formed_well_formed.
  - intros r r' (Hv & Hd & Hc & Hp & Hw) Hn.
    destruct (normalize_next_interchange left r r' Hv Hn) as (i & Hi).
    destruct (interchange_keeps_shape r i (i + 1) left r' Hv Hi)
      as (Hd' & Hc' & Hp' & _ & Hv').
    repeat split; try congruence.
    + eapply Permutation_trans; eassumption.
    + intros H. eapply interchange_preserves; [apply Hw, H | exact Hi].
  - repeat split; auto.
Qed.

(** [(Id(x) @ f1 >> f0 @ Id(x)).normal_form() == f0 @ f1], from the
    doctests. *)
Lemma normal_form_invariants_witness :
  let f0 := Box "f0" [mkOb "x"] [mkOb "y"] None false in
  let f1 := Box "f1" [mkOb "y"] [mkOb "x"] None false in
  let d := MkDiagram [mkOb "x"; mkOb "y"] [mkOb "y"; mkOb "x"]
             [f1; f0] [1; 0] in
  let nf := MkDiagram [mkOb "x"; mkOb "y"] [mkOb "y"; mkOb "x"]
              [f0; f1] [0; 1] in
  dom nf = dom d /\ cod nf = cod d
  /\ Permutation (boxes d) (boxes nf)
  /\ length (boxes nf) = length (offsets nf)
  /\ (in_range_well_formed d -> in_range_well_formed nf /\ well_formed nf).
Proof.
  intros f0 f1 d nf.
  exact (normal_form_invariants (fun _ => 0) 2 d false nf eq_refl eq_refl).
Defined.

(** X13.  [normal_form] is idempotent: the diagram it returns is returned
    unchanged when it is normalised again, with the same flag. *)
Theorem normal_form_idempotent hash (fuel : nat) (d : Diagram)
    (left : bool) (nf : Diagram) :
  normal_form hash fuel d left = Some (Ok nf) ->
  forall hash' fuel', normal_form hash' (S fuel') nf left = Some (Ok nf).
Proof.
  intros Hnf hash' fuel'. unfold normal_form in *.
  apply (normal_form_loop_keeps (fun _ => True)) in Hnf as [_ Hend]; auto.
  simpl. rewrite Hend. reflexivity.
Qed.

Lemma normal_form_idempotent_witness :
  let f0 := Box "f0" [mkOb "x"] [mkOb "y"] None false in
  let f1 := Box "f1" [mkOb "y"] [mkOb "x"] None false in
  let nf := MkDiagram [mkOb "x"; mkOb "y"] [mkOb "y"; mkOb "x"]
              [f0; f1] [0; 1] in
  normal_form (fun _ => 0) 1 nf false = Some (Ok nf).
Proof.
  intros f0 f1 nf.
  exact (normal_form_idempotent (fun _ => 0) 2
           (MkDiagram [mkOb "x"; mkOb "y"] [mkOb "y"; mkOb "x"]
              [f1; f0] [1; 0])
           false nf eq_refl (fun _ => 0) 0%nat).
Defined.

(** X14.  A diagram with at most one box (an identity, a box) is its own
    normal form: the generator ends at once. *)
Theorem normal_form_short hash (fuel : nat) (d : Diagram) (left : bool) :
  Diagram_len d <= 1 ->
  normalize_next left d = Ok None
  /\ normal_form hash (S fuel) d left = Some (Ok d).
Proof.
  intros Hshort.
  assert (Hn : normalize_next left d = Ok None).
  { unfold normalize_next, range.
    replace (Z.to_nat (Diagram_len d - 1)) with 0%nat by lia.
    simpl. rewrite Diagram_eq_refl. reflexivity. }
  split; [exact Hn|]. unfold normal_form. simpl. rewrite Hn. reflexivity.
Qed.

Lemma normal_form_short_witness :
  normalize_next false Spiral.cup = Ok None
  /\ normal_form (fun _ => 0) 1 Spiral.cup false = Some (Ok Spiral.cup).
Proof.
  apply (normal_form_short (fun _ => 0) 0 Spiral.cup false).
  vm_compute. discriminate.
Defined.

(** ** Slicing *)

Lemma range_from_nil (a b : Z) : b <= a -> range_from a b = [].
Proof.
  intros H. unfold range_from. replace (Z.to_nat (b - a)) with 0%nat by lia.
  reflexivity.
Qed.

Lemma range_from_cons (a b : Z) :
  a < b -> range_from a b = a :: range_from (a + 1) b.
Proof.
  intros H. unfold range_from.
  replace (Z.to_nat (b - a)) with (S (Z.to_nat (b - (a + 1)))) by lia.
  cbn [seq map]. f_equal; [lia|].
  rewrite <- seq_shift, map_map. apply map_ext. intros k. lia.
Qed.

Lemma In_range_from (a b k : Z) : In k (range_from a b) -> a <= k < b.
Proof.
  unfold range_from. rewrite in_map_iff. intros (m & <- & Hm).
  apply in_seq in Hm. lia.
Qed.

(** An exchange of two adjacent boxes of a diagram with as many offsets
    as boxes either returns the exchanged diagram or raises the
    interchanger error. *)
Lemma interchange_body_adjacent_cases recurse (r : Diagram) (p q : Z)
    (left : bool) :
  length (boxes r) = length (offsets r) ->
  p = q + 1 \/ q = p + 1 ->
  0 <= p < Diagram_len r -> 0 <= q < Diagram_len r ->
  exists pre x y suf os1 o0 o1 os2,
    boxes r = pre ++ x :: y :: suf
    /\ offsets r = os1 ++ o0 :: o1 :: os2
    /\ len pre = Z.min p q
    /\ length os1 = length pre /\ length os2 = length suf
    /\ interchange_body recurse r p q left
       = (offs <- commute_offsets left x y o0 o1 ;;
          Ok (swapped r pre x y suf os1 offs os2)).
Proof.
  intros Hlen Hpq Hp Hq. unfold Diagram_len in *.
  destruct (split_two (boxes r) (Z.min p q))
    as (pre & x & y & suf & Hb & Hl); [lia | lia |].
  destruct (split_two (offsets r) (Z.min p q))
    as (os1 & o0 & o1 & os2 & Ho & Hlo); [lia | unfold len in *; lia |].
  assert (Hl1 : length os1 = length pre) by (unfold len in *; lia).
  assert (Hl2 : length os2 = length suf).
  { rewrite Hb, Ho, !length_app in Hlen. simpl in Hlen. lia. }
  exists pre, x, y, suf, os1, o0, o1, os2.
  repeat split; try assumption.
  apply (interchange_body_adjacent _ _ _ _ _ _ _ _ _ Hb Ho Hl1 Hl2). lia.
Qed.

Lemma interchange_body_range recurse (r : Diagram) (p q : Z) (left : bool)
    (r' : Diagram) :
  interchange_body recurse r p q left = Ok r' ->
  (0 <= p < Diagram_len r) /\ (0 <= q < Diagram_len r).
Proof.
  unfold interchange_body. intros Hi.
  destruct (Z.leb_spec 0 p); destruct (Z.ltb_spec p (Diagram_len r));
    destruct (Z.leb_spec 0 q); destruct (Z.ltb_spec q (Diagram_len r));
    simpl in Hi; try discriminate; lia.
Qed.

Lemma firstn_app_le {A : Type} (k : nat) (l1 l2 : list A) :
  (k <= length l1)%nat -> firstn k (l1 ++ l2) = firstn k l1.
Proof.
  intros H. rewrite firstn_app.
  replace (k - length l1)%nat with 0%nat by lia.
  simpl. apply app_nil_r.
Qed.

(** The boxes and offsets below the two positions are not touched. *)
Lemma interchange_body_adjacent_prefix recurse (r : Diagram) (p q : Z)
    (left : bool) (r' : Diagram) (k : nat) :
  length (boxes r) = length (offsets r) ->
  p = q + 1 \/ q = p + 1 ->
  Z.of_nat k <= Z.min p q ->
  interchange_body recurse r p q left = Ok r' ->
  firstn k (boxes r') = firstn k (boxes r)
  /\ firstn k (offsets r') = firstn k (offsets r).
Proof.
  intros Hlen Hpq Hk Hi.
  destruct (interchange_body_range _ _ _ _ _ _ Hi) as [Hp Hq].
  destruct (interchange_body_adjacent_cases recurse r p q left Hlen Hpq Hp Hq)
    as (pre & x & y & suf & os1 & o0 & o1 & os2
        & Hb & Ho & Hl & Hl1 & Hl2 & Heq).
  rewrite Heq in Hi.
  destruct (commute_offsets left x y o0 o1) as [[o0' o1']|e];
    simpl in Hi; [|discriminate].
  injection Hi as <-. simpl. rewrite Hb, Ho.
  rewrite !firstn_app_le by (unfold len in *; lia). auto.
Qed.

(** [interchange_keeps], with the positions of the exchanges bounded from
    below by the smaller of the two positions of the call. *)
Lemma interchange_keeps_above (P : Diagram -> Prop) (lo : Z) :
  (forall recurse r p q left r',
      P r -> p = q + 1 \/ q = p + 1 -> lo <= Z.min p q ->
      interchange_body recurse r p q left = Ok r' -> P r') ->
  forall d i j left d',
    lo <= Z.min i j ->
    P d -> interchange d i j left = Ok d' -> P d'.
Proof.
  intros Hstep d i j left d' Hlo Hd.
  destruct (Z.eq_dec i j) as [->|Hne].
  { unfold interchange, interchange_body. destruct (_ || _); [discriminate|].
    rewrite Z.eqb_refl. intros [= <-]. exact Hd. }
  destruct (Z_lt_dec j (i - 1)) as [Hfar|Hnear].
  { unfold interchange, interchange_body. destruct (_ || _); [discriminate|].
    destruct (Z.eqb_spec i j); [lia|].
    destruct (Z.ltb_spec j (i - 1)); [|lia].
    apply for_each_invariant; [|exact Hd].
    intros s k s' Hk%In_range Hs. apply Hstep; [exact Hs|lia|lia]. }
  destruct (Z_gt_dec j (i + 1)) as [Hfar|Hnear'].
  { unfold interchange, interchange_body. destruct (_ || _); [discriminate|].
    destruct (Z.eqb_spec i j); [lia|].
    destruct (Z.ltb_spec j (i - 1)); [lia|].
    destruct (Z.gtb_spec j (i + 1)); [|lia].
    apply for_each_invariant; [|exact Hd].
    intros s k s' Hk%In_range Hs. apply Hstep; [exact Hs|lia|lia]. }
  apply Hstep; [exact Hd|lia|lia].
Qed.

Lemma interchange_prefix (d : Diagram) (i j : Z) (left : bool)
    (d' : Diagram) (k : nat) :
  length (boxes d) = length (offsets d) ->
  Z.of_nat k <= Z.min i j ->
  interchange d i j left = Ok d' ->
  firstn k (boxes d') = firstn k (boxes d)
  /\ firstn k (offsets d') = firstn k (offsets d).
Proof.
  intros Hlen Hk Hi.
  assert (H : length (boxes d') = length (offsets d')
              /\ firstn k (boxes d') = firstn k (boxes d)
              /\ firstn k (offsets d') = firstn k (offsets d)).
  { revert Hi.
    apply (interchange_keeps_above
             (fun r => length (boxes r) = length (offsets r)
                       /\ firstn k (boxes r) = firstn k (boxes d)
                       /\ firstn k (offsets r) = firstn k (offsets d))
             (Z.of_nat k)); [|exact Hk|auto].
    intros recurse r p q lft r' (Hv & Hb & Ho) Hpq Hlo Hstep.
    destruct (interchange_body_adjacent_prefix recurse r p q lft r' k
                Hv Hpq Hlo Hstep) as [Hb' Ho'].
    destruct (interchange_body_adjacent_keeps recurse r p q lft r'
                Hv Hpq Hstep) as (_ & _ & _ & Hv').
    repeat split; congruence. }
  tauto.
Qed.

Lemma for_each_error {A S : Type} (P : S -> Prop) (Q : error -> Prop)
    (l : list A) (body : S -> A -> result S) :
  (forall s a s', In a l -> P s -> body s a = Ok s' -> P s') ->
  (forall s a e, In a l -> P s -> body s a = Err e -> Q e) ->
  forall s e, P s -> for_each l s body = Err e -> Q e.
Proof.
  induction l as [|a l IH]; intros Hok Herr s e Hs; simpl; [discriminate|].
  destruct (body s a) as [s1|e1] eqn:Hb; simpl.
  - apply IH.
    + intros; eapply Hok; eauto. right; assumption.
    + intros; eapply Herr; eauto. right; assumption.
    + eapply Hok; eauto. left; reflexivity.
  - intros [= <-]. eapply Herr; eauto. left; reflexivity.
Qed.

Lemma interchange_body_adjacent_raises recurse (r : Diagram) (p q : Z)
    (left : bool) (e : error) :
  length (boxes r) = length (offsets r) ->
  p = q + 1 \/ q = p + 1 ->
  0 <= p < Diagram_len r -> 0 <= q < Diagram_len r ->
  interchange_body recurse r p q left = Err e ->
  is_InterchangerError e = true.
Proof.
  intros Hlen Hpq Hp Hq Hi.
  destruct (interchange_body_adjacent_cases recurse r p q left Hlen Hpq Hp Hq)
    as (pre & x & y & suf & os1 & o0 & o1 & os2 & _ & _ & _ & _ & _ & Heq).
  rewrite Heq in Hi.
  destruct (commute_offsets left x y o0 o1) as [offs|e'] eqn:Hc;
    simpl in Hi; [discriminate|].
  injection Hi as <-. unfold commute_offsets in Hc.
  destruct (left && (o1 >=? o0 + len (cod x))); [discriminate|].
  destruct (o0 >=? o1 + len (dom y)); [discriminate|].
  destruct (o1 >=? o0 + len (cod x)); [discriminate|].
  injection Hc as <-. reflexivity.
Qed.

(** The errors of [interchange] with both positions in range. *)
Lemma interchange_error_kind (d : Diagram) (i j : Z) (left : bool)
    (e : error) :
  length (boxes d) = length (offsets d) ->
  0 <= i < Diagram_len d -> 0 <= j < Diagram_len d ->
  interchange d i j left = Err e ->
  is_InterchangerError e = true /\ i <> j.
Proof.
  intros Hlen Hi Hj.
  set (P := fun r : Diagram =>
              length (boxes r) = length (offsets r)
              /\ Diagram_len r = Diagram_len d).
  assert (Hok : forall recurse r p q lft r',
             P r -> p = q + 1 \/ q = p + 1 ->
             interchange_body recurse r p q lft = Ok r' -> P r').
  { intros recurse r p q lft r' [Hv Hl] Hpq Hstep.
    destruct (interchange_body_adjacent_keeps recurse r p q lft r'
                Hv Hpq Hstep) as (Hp & _ & _ & Hv').
    split; [exact Hv'|]. rewrite <- Hl. unfold Diagram_len, len.
    f_equal. symmetry. apply Permutation_length, Hp. }
  unfold interchange, interchange_body.
  destruct (Z.leb_spec 0 i); [|lia].
  destruct (Z.ltb_spec i (Diagram_len d)); [|lia].
  destruct (Z.leb_spec 0 j); [|lia].
  destruct (Z.ltb_spec j (Diagram_len d)); [|lia].
  cbn [andb negb orb].
  destruct (Z.eqb_spec i j); [discriminate|].
  intros He. split; [|assumption]. revert He.
  destruct (Z.ltb_spec j (i - 1)).
  { apply (for_each_error P (fun e' => is_InterchangerError e' = true));
      [| |split; [assumption | reflexivity]].
    - intros s k s' _ Hs. apply Hok; [exact Hs|lia].
    - intros s k e' Hk%In_range [Hv Hl].
      apply interchange_body_adjacent_raises; try assumption; lia. }
  destruct (Z.gtb_spec j (i + 1)).
  { apply (for_each_error P (fun e' => is_InterchangerError e' = true));
      [| |split; [assumption | reflexivity]].
    - intros s k s' _ Hs. apply Hok; [exact Hs|lia].
    - intros s k e' Hk%In_range [Hv Hl].
      apply interchange_body_adjacent_raises; try assumption; lia. }
  intros He.
  apply (interchange_body_adjacent_raises interchange_adjacent d i j left e);
    try assumption; try lia.
  unfold interchange_body.
  destruct (Z.leb_spec 0 i); [|lia].
  destruct (Z.ltb_spec i (Diagram_len d)); [|lia].
  destruct (Z.leb_spec 0 j); [|lia].
  destruct (Z.ltb_spec j (Diagram_len d)); [|lia].
  cbn [andb negb orb].
  destruct (Z.eqb_spec i j); [lia|].
  destruct (Z.ltb_spec j (i - 1)); [lia|].
  destruct (Z.gtb_spec j (i + 1)); [lia|].
  exact He.
Qed.

(** X15.  With both positions in range, the only error that [interchange]
    raises on a diagram with as many offsets as boxes is the interchanger
    error, also when it walks a box over several positions. *)
Theorem interchange_raises (d : Diagram) (i j : Z) (left : bool)
    (e : error) :
  length (boxes d) = length (offsets d) ->
  0 <= i < Diagram_len d -> 0 <= j < Diagram_len d ->
  interchange d i j left = Err e ->
  is_InterchangerError e = true /\ i <> j.
Proof. exact (interchange_error_kind d i j left e). Qed.

(** The doctest [d.interchange(0, 2)]: the walk fails at its second
    step. *)
Lemma interchange_raises_witness :
  let f0 := Box "f0" [mkOb "x"] [mkOb "y"] None false in
  let f1 := Box "f1" [mkOb "y"] [mkOb "x"] None false in
  let d := MkDiagram [mkOb "x"; mkOb "y"] [mkOb "x"; mkOb "y"]
             [f0; f1; f1; f0] [0; 0; 1; 1] in
  interchange d 0 2 false = Err (InterchangerError f0 f1)
  /\ (is_InterchangerError (InterchangerError f0 f1) = true /\ 0 <> 2).
Proof.
  intros f0 f1 d. split; [reflexivity|].
  apply (interchange_raises d 0 2 false (InterchangerError f0 f1) eq_refl).
  - vm_compute. split; [discriminate | reflexivity].
  - vm_compute. split; [discriminate | reflexivity].
  - reflexivity.
Defined.

Lemma slice_rel_refl (i : Z) (g : Diagram) :
  length (boxes g) = length (offsets g) -> slice_rel i g g.
Proof. intros H. unfold slice_rel. repeat split; auto. Qed.

Lemma slice_rel_interchange (i j : Z) (g g1 g2 : Diagram) :
  0 <= i <= j ->
  slice_rel i g g1 ->
  interchange g1 j i false = Ok g2 ->
  slice_rel i g g2.
Proof.
  intros Hij (Hv & Hd & Hc & Hp & Hw & Hb & Ho & Hl) Hi.
  destruct (interchange_keeps_shape g1 j i false g2 Hv Hi)
    as (Hd' & Hc' & Hp' & Hl' & Hv').
  destruct (interchange_prefix g1 j i false g2 (Z.to_nat i) Hv) as [Hb' Ho'];
    [lia | exact Hi |].
  unfold slice_rel. repeat split; try congruence.
  - eapply Permutation_trans; eassumption.
  - intros H. eapply interchange_preserves; [apply Hw, H | exact Hi].
Qed.

(** The first loop of [slice] never raises. *)
Lemma slice_pull_loop (g : Diagram) (i : Z) :
  0 <= i ->
  forall js g1 n,
    slice_rel i g g1 ->
    (forall j, In j js -> i < j < Diagram_len g) ->
    exists g2 n',
      for_each js (g1, n) (slice_pull i) = Ok (g2, n')
      /\ slice_rel i g g2 /\ n <= n' <= n + len js.
Proof.
  intros Hi. induction js as [|j js IH]; intros g1 n Hrel Hjs.
  - exists g1, n. split; [reflexivity|]. split; [assumption|].
    change (len (@nil Z)) with 0. lia.
  - destruct (Hjs j (or_introl eq_refl)) as [Hj1 Hj2].
    assert (Hjs' : forall j', In j' js -> i < j' < Diagram_len g)
      by (intros; apply Hjs; right; assumption).
    cbn [for_each]. unfold slice_pull at 1.
    destruct (interchange g1 j i false) as [g2|e] eqn:Hint.
    + cbn [bind].
      destruct (IH g2 (n + 1)) as (g3 & n' & Hf & Hrel' & Hn);
        [ apply (slice_rel_interchange i j g g1 g2);
          [lia | exact Hrel | exact Hint]
        | exact Hjs' |].
      exists g3, n'. rewrite len_cons.
      split; [exact Hf|]. split; [exact Hrel'|]. lia.
    + destruct Hrel as (Hv & Hd & Hc & Hp & Hw & Hb & Ho & Hl).
      destruct (interchange_error_kind g1 j i false e Hv) as [He _];
        [lia | lia | exact Hint |].
      rewrite He. cbn [bind].
      destruct (IH g1 n) as (g3 & n' & Hf & Hrel' & Hn);
        [unfold slice_rel; repeat split; assumption | exact Hjs' |].
      exists g3, n'. rewrite len_cons.
      split; [exact Hf|]. split; [exact Hrel'|]. lia.
Qed.

Lemma skipn_nth_error {A : Type} (n : nat) : forall (l : list A) (a : A),
  nth_error l n = Some a -> skipn n l = a :: skipn (S n) l.
Proof.
  induction n as [|n IH]; intros [|x l] a; simpl; try discriminate.
  - intros [= ->]. reflexivity.
  - intros H. apply IH, H.
Qed.

Lemma getitem_skipn {A : Type} (l : list A) (i : Z) :
  0 <= i < len l ->
  exists a, getitem l i = Ok a
            /\ skipn (Z.to_nat i) l = a :: skipn (Z.to_nat (i + 1)) l.
Proof.
  intros Hi. unfold getitem.
  destruct (Z.ltb_spec i 0); [lia|]. destruct (Z.ltb_spec i 0); [lia|].
  destruct (nth_error l (Z.to_nat i)) as [a|] eqn:Hn.
  - exists a. split; [reflexivity|].
    replace (Z.to_nat (i + 1)) with (S (Z.to_nat i)) by lia.
    apply skipn_nth_error, Hn.
  - apply nth_error_None in Hn. unfold len in Hi. lia.
Qed.

(** The second loop of [slice] computes the scan type after the boxes of
    the layer. *)
Lemma slice_cod_loop (g : Diagram) :
  length (boxes g) = length (offsets g) ->
  forall (m : nat) (i : Z) (c : Ty),
    0 <= i -> i + Z.of_nat m <= Diagram_len g ->
    for_each (range_from i (i + Z.of_nat m)) c (slice_cod g)
    = Ok (scan_after c (firstn m (skipn (Z.to_nat i) (boxes g)))
            (firstn m (skipn (Z.to_nat i) (offsets g)))).
Proof.
  intros Hlen. induction m as [|m IH]; intros i c Hi Hm.
  - rewrite range_from_nil by lia. reflexivity.
  - rewrite range_from_cons by lia. cbn [for_each].
    unfold Diagram_len in Hm.
    destruct (getitem_skipn (boxes g) i) as (x & Hx & Hsx); [lia|].
    destruct (getitem_skipn (offsets g) i) as (o & Ho & Hso);
      [unfold len in *; lia|].
    unfold slice_cod at 1. rewrite Hx, Ho. cbn [bind].
    replace (i + Z.of_nat (S m)) with (i + 1 + Z.of_nat m) by lia.
    rewrite IH by (unfold Diagram_len; lia).
    rewrite Hsx, Hso. reflexivity.
Qed.

Lemma slice_segment {A : Type} (l : list A) (i n : Z) :
  0 <= i -> 0 <= n -> i + n <= len l ->
  slice l (Some i) (Some (i + n))
  = firstn (Z.to_nat n) (skipn (Z.to_nat i) l).
Proof.
  intros Hi Hn Hl. unfold slice. rewrite !clamp_in_range by lia.
  replace (i + n - i) with n by lia. reflexivity.
Qed.

Lemma firstn_plus {A : Type} (a b : nat) (l : list A) :
  firstn (a + b) l = firstn a l ++ firstn b (skipn a l).
Proof.
  revert l; induction a as [|a IH]; intros [|x l]; simpl;
    try reflexivity.
  - rewrite firstn_nil. reflexivity.
  - rewrite IH. reflexivity.
Qed.

Lemma layers_chain_snoc (s : Ty) (ls : list Diagram) (c : Ty) (l : Diagram) :
  layers_chain s ls c -> dom l = c -> layers_chain s (ls ++ [l]) (cod l).
Proof.
  revert s; induction ls as [|l0 ls IH]; intros s; simpl.
  - intros -> Hd. auto.
  - intros [Hd0 Hrest] Hd. split; [exact Hd0|]. apply IH; assumption.
Qed.

(** A round of [slice] never raises, keeps the invariant and advances. *)
Lemma slice_round_spec (d g : Diagram) (i : Z) (slices : list Diagram)
    (c : Ty) :
  slice_inv d g i slices c ->
  i < Diagram_len g ->
  exists g' i' slices' c',
    slice_round g i slices c = Ok (g', i', slices', c')
    /\ slice_inv d g' i' slices' c'
    /\ i < i' /\ Diagram_len g' = Diagram_len g.
Proof.
  intros (Hv & Hd & Hc & Hp & Hw & Hi & Hcb & Hco & Hok & Hch) Hlt.
  unfold slice_round.
  destruct (slice_pull_loop g i (proj1 Hi)
              (range_from (i + 1) (Diagram_len g)) g 0
              (slice_rel_refl i g Hv))
    as (g' & n & Hf & (Hv' & Hd' & Hc' & Hp' & Hw' & Hb' & Ho' & Hl') & Hn).
  { intros j Hj%In_range_from. lia. }
  rewrite Hf. cbn [bind].
  assert (Hlenjs : len (range_from (i + 1) (Diagram_len g))
                   = Diagram_len g - (i + 1)).
  { unfold range_from, len. rewrite length_map, length_seq. lia. }
  assert (Hfit : i + (n + 1) <= Diagram_len g') by lia.
  set (segb := firstn (Z.to_nat (n + 1)) (skipn (Z.to_nat i) (boxes g'))).
  set (sego := firstn (Z.to_nat (n + 1)) (skipn (Z.to_nat i) (offsets g'))).
  assert (Hcod : for_each (range_from i (i + n + 1)) c (slice_cod g')
                 = Ok (scan_after c segb sego)).
  { replace (i + n + 1) with (i + Z.of_nat (Z.to_nat (n + 1))) by lia.
    apply (slice_cod_loop g' Hv'); lia. }
  rewrite Hcod. cbn [bind].
  unfold Diagram_len in Hfit.
  replace (i + n + 1) with (i + (n + 1)) by lia.
  rewrite !slice_segment by (unfold len in *; lia).
  fold segb sego.
  assert (Hsegb : length segb = Z.to_nat (n + 1)).
  { unfold segb. rewrite length_firstn, length_skipn. unfold len in *. lia. }
  assert (Hsego : length sego = Z.to_nat (n + 1)).
  { unfold sego. rewrite length_firstn, length_skipn. unfold len in *. lia. }
  rewrite Diagram_init_fast by congruence. cbn [bind].
  do 4 eexists. split; [reflexivity|].
  split; [|split; [lia | exact Hl']].
  unfold slice_inv. repeat split; try congruence.
  - eapply Permutation_trans; eassumption.
  - intros H. apply Hw', Hw, H.
  - lia.
  - unfold Diagram_len. lia.
  - rewrite map_app, concat_app, Hcb. simpl. rewrite app_nil_r.
    replace (Z.to_nat (i + (n + 1)))
      with (Z.to_nat i + Z.to_nat (n + 1))%nat by lia.
    rewrite firstn_plus, Hb'. reflexivity.
  - rewrite map_app, concat_app, Hco. simpl. rewrite app_nil_r.
    replace (Z.to_nat (i + (n + 1)))
      with (Z.to_nat i + Z.to_nat (n + 1))%nat by lia.
    rewrite firstn_plus, Ho'. reflexivity.
  - apply Forall_app. split; [exact Hok|]. constructor; [|constructor].
    unfold layer_ok. simpl. repeat split.
    + unfold Diagram_len, len. simpl. lia.
    + congruence.
  - apply (layers_chain_snoc (dom d) slices c
             (MkDiagram c _ segb sego) Hch). reflexivity.
Qed.

Lemma slice_loop_spec (d : Diagram) :
  forall (fuel : nat) (g : Diagram) (i : Z) (slices : list Diagram) (c : Ty),
    slice_inv d g i slices c ->
    (Z.to_nat (Diagram_len g - i) < fuel)%nat ->
    exists g' slices' c',
      slice_loop fuel g i slices c = Some (Ok slices')
      /\ slice_inv d g' (Diagram_len g') slices' c'.
Proof.
  induction fuel as [|fuel IH]; intros g i slices c Hinv Hfuel; [lia|].
  cbn [slice_loop].
  destruct (Z.ltb_spec i (Diagram_len g)) as [Hlt|Hge].
  - destruct (slice_round_spec d g i slices c Hinv Hlt)
      as (g' & i' & slices' & c' & Hr & Hinv' & Hadv & Hl).
    rewrite Hr. apply IH; [exact Hinv'|]. lia.
  - exists g, slices, c. split; [reflexivity|].
    destruct Hinv as (Hv & Hd & Hc & Hp & Hw & Hi & Hrest).
    replace (Diagram_len g) with i by lia.
    unfold slice_inv. repeat split; try assumption; try lia; tauto.
Qed.

Lemma slice_inv_start (d : Diagram) :
  length (boxes d) = length (offsets d) -> slice_inv d d 0 [] (dom d).
Proof.
  intros Hv. unfold slice_inv. repeat split; auto.
  - lia.
  - unfold Diagram_len. apply len_nonneg.
Qed.

Lemma length_layers (ls : list Diagram) :
  Forall layer_ok ls ->
  (length ls <= length (concat (map boxes ls)))%nat.
Proof.
  induction 1 as [|l ls (Hl & _) _ IH]; simpl; [lia|].
  rewrite length_app. unfold Diagram_len, len in Hl. lia.
Qed.

(** All that the loop of [slice] establishes, in one statement. *)
Lemma Diagram_slice_result (fuel : nat) (d : Diagram) :
  length (boxes d) = length (offsets d) ->
  (Z.to_nat (Diagram_len d) < fuel)%nat ->
  exists g slices c,
    Diagram_slice fuel d
    = Some (Ok (MkDiagram (dom d) (cod d) slices
                  (repeat 0 (length slices))))
    /\ slice_inv d g (Diagram_len g) slices c
    /\ concat (map boxes slices) = boxes g
    /\ concat (map offsets slices) = offsets g.
Proof.
  intros Hv Hfuel.
  destruct (slice_loop_spec d fuel d 0 [] (dom d) (slice_inv_start d Hv))
    as (g & slices & c & Hloop & Hinv); [lia|].
  exists g, slices, c. unfold Diagram_slice. rewrite Hloop.
  rewrite Diagram_init_fast by (rewrite repeat_length; reflexivity).
  split; [reflexivity|]. split; [exact Hinv|].
  destruct Hinv as (Hvg & _ & _ & _ & _ & _ & Hcb & Hco & _ & _).
  unfold Diagram_len, len in Hcb, Hco. rewrite Nat2Z.id in Hcb, Hco.
  rewrite firstn_all in Hcb. rewrite firstn_all2 in Hco by lia.
  auto.
Qed.

(** X16.  On a diagram with as many offsets as boxes, [slice] never
    raises and ends within [len(d)] rounds.  It returns a diagram with the
    domain and the codomain of [d], whose boxes are layers at offset 0;
    no layer is empty, every layer starts from the codomain of the layer
    before it (the first one from [d.dom]), and the boxes of the layers,
    taken in order, are the boxes of [d] rearranged. *)
Theorem Diagram_slice_spec (fuel : nat) (d : Diagram) :
  length (boxes d) = length (offsets d) ->
  (Z.to_nat (Diagram_len d) < fuel)%nat ->
  exists s,
    Diagram_slice fuel d = Some (Ok s)
    /\ dom s = dom d /\ cod s = cod d
    /\ offsets s = repeat 0 (length (boxes s))
    /\ Forall layer_ok (boxes s)
    /\ (exists c, layers_chain (dom d) (boxes s) c)
    /\ Permutation (boxes d) (concat (map boxes (boxes s))).
Proof.
  intros Hv Hfuel.
  destruct (Diagram_slice_result fuel d Hv Hfuel)
    as (g & slices & c & Hs & Hinv & Hcb & Hco).
  destruct Hinv as (_ & _ & _ & Hp & _ & _ & _ & _ & Hok & Hch).
  eexists. split; [exact Hs|]. simpl.
  repeat split; try assumption; [eauto|]. rewrite Hcb. exact Hp.
Qed.

(** [f >> g] has two layers. *)
Lemma Diagram_slice_spec_witness :
  let f := Box "f" [mkOb "x"] [mkOb "y"] None false in
  let g := Box "g" [mkOb "y"] [mkOb "x"] None false in
  let d := MkDiagram [mkOb "x"] [mkOb "x"] [f; g] [0; 0] in
  exists s,
    Diagram_slice 3 d = Some (Ok s)
    /\ dom s = dom d /\ cod s = cod d
    /\ offsets s = repeat 0 (length (boxes s))
    /\ Forall layer_ok (boxes s)
    /\ (exists c, layers_chain (dom d) (boxes s) c)
    /\ Permutation (boxes d) (concat (map boxes (boxes s))).
Proof.
  intros f g d. apply (Diagram_slice_spec 3 d eq_refl).
  vm_compute. lia.
Defined.

(** X17.  The depth of a diagram is at most its number of boxes, and it is
    0 exactly for the diagrams without boxes. *)
Theorem depth_bounds (fuel : nat) (d : Diagram) :
  length (boxes d) = length (offsets d) ->
  (Z.to_nat (Diagram_len d) < fuel)%nat ->
  exists n,
    depth fuel d = Some (Ok n)
    /\ 0 <= n <= Diagram_len d
    /\ (n = 0 <-> Diagram_len d = 0).
Proof.
  intros Hv Hfuel.
  destruct (Diagram_slice_result fuel d Hv Hfuel)
    as (g & slices & c & Hs & Hinv & Hcb & Hco).
  destruct Hinv as (_ & _ & _ & Hp & _ & _ & _ & _ & Hok & _).
  exists (len slices). unfold depth. rewrite Hs.
  split; [reflexivity|].
  pose proof (length_layers slices Hok) as Hle.
  rewrite Hcb in Hle. apply Permutation_length in Hp.
  unfold Diagram_len, len. split; [lia|]. split; [|lia].
  intros H0. destruct slices; [|simpl in H0; lia].
  simpl in Hcb. rewrite <- Hcb in Hp. simpl in Hp. lia.
Qed.

Lemma depth_bounds_witness :
  let f := Box "f" [mkOb "x"] [mkOb "y"] None false in
  let g := Box "g" [mkOb "y"] [mkOb "x"] None false in
  let d := MkDiagram [mkOb "x"] [mkOb "x"] [f; g] [0; 0] in
  exists n,
    depth 3 d = Some (Ok n)
    /\ 0 <= n <= Diagram_len d
    /\ (n = 0 <-> Diagram_len d = 0).
Proof.
  intros f g d. apply (depth_bounds 3 d eq_refl).
  vm_compute. lia.
Defined.

Lemma scans_scan_after s bs os s' :
  scans s bs os s' -> s' = scan_after s bs os.
Proof.
  intros H%scans_check_scan. apply check_scan_Ok_inv in H. tauto.
Qed.

(** The scan of a diagram cut along its layers. *)
Lemma scans_layers (ls : list Diagram) : forall (s c e : Ty),
  Forall layer_ok ls ->
  layers_chain s ls c ->
  scans s (concat (map boxes ls)) (concat (map offsets ls)) e ->
  c = e
  /\ Forall in_range_well_formed ls
  /\ scans s ls (repeat 0 (length ls)) e.
Proof.
  induction ls as [|l ls IH]; intros s c e Hok Hch Hsc; simpl in *.
  - inversion Hsc; subst. repeat split; constructor.
  - inversion Hok as [|? ? (Hl & Hv & Hcod) Hok']; subst.
    destruct Hch as [Hd Hch].
    apply scans_app_inv in Hsc as (m & H1 & H2); [|congruence].
    assert (Hm : m = cod l)
      by (rewrite Hcod, Hd; apply scans_scan_after, H1).
    subst m.
    destruct (IH (cod l) c e Hok' Hch H2) as (Hce & Hwf & Hrest).
    split; [exact Hce|]. split.
    + constructor; [|exact Hwf].
      unfold in_range_well_formed. apply strict_scan_scans.
      rewrite Hd. exact H1.
    + apply (scans_cons_eq s [] [] l 0).
      * simpl. rewrite app_nil_r. congruence.
      * reflexivity.
      * simpl. rewrite app_nil_r. exact Hrest.
Qed.

(** X18.  The slicing of a diagram that is well formed with offsets in
    range is well formed with offsets in range, as a diagram of layers,
    and so is each of its layers: the validating constructor accepts all
    of them. *)
Theorem Diagram_slice_well_formed (fuel : nat) (d : Diagram) :
  in_range_well_formed d ->
  (Z.to_nat (Diagram_len d) < fuel)%nat ->
  exists s,
    Diagram_slice fuel d = Some (Ok s)
    /\ in_range_well_formed s /\ well_formed s
    /\ Forall (fun l => in_range_well_formed l /\ well_formed l) (boxes s).
Proof.
  intros Hwf Hfuel.
  assert (Hv : length (boxes d) = length (offsets d))
    by (apply strict_scan_scans in Hwf; eapply scans_lengths, Hwf).
  destruct (Diagram_slice_result fuel d Hv Hfuel)
    as (g & slices & c & Hs & Hinv & Hcb & Hco).
  destruct Hinv as (_ & Hd & Hc & _ & Hw & _ & _ & _ & Hok & Hch).
  specialize (Hw Hwf). unfold in_range_well_formed in Hw.
  apply strict_scan_scans in Hw. rewrite Hd, Hc, <- Hcb, <- Hco in Hw.
  destruct (scans_layers slices _ _ _ Hok Hch Hw) as (_ & Hls & Hsc).
  eexists. split; [exact Hs|].
  assert (Hs' : in_range_well_formed
                  (MkDiagram (dom d) (cod d) slices
                     (repeat 0 (length slices))))
    by (unfold in_range_well_formed; apply strict_scan_scans; exact Hsc).
  split; [exact Hs'|].
  split; [apply in_range_well_formed_well_formed, Hs'|].
  simpl. eapply Forall_impl; [|exact Hls].
  intros l Hl. split; [exact Hl|].
  apply in_range_well_formed_well_formed, Hl.
Qed.

Lemma Diagram_slice_well_formed_witness :
  let f := Box "f" [mkOb "x"] [mkOb "y"] None false in
  let g := Box "g" [mkOb "y"] [mkOb "x"] None false in
  let d := MkDiagram [mkOb "x"] [mkOb "x"] [f; g] [0; 0] in
  exists s,
    Diagram_slice 3 d = Some (Ok s)
    /\ in_range_well_formed s /\ well_formed s
    /\ Forall (fun l => in_range_well_formed l /\ well_formed l) (boxes s).
Proof.
  intros f g d. apply (Diagram_slice_well_formed 3 d eq_refl).
  vm_compute. lia.
Defined.

(** ** Monoidal functors *)

Lemma comprehension_app {A B : Type} (f : A -> result B) (l1 l2 : list A) :
  comprehension f (l1 ++ l2)
  = a <- comprehension f l1 ;; b <- comprehension f l2 ;; Ok (a ++ b).
Proof.
  induction l1 as [|x l1 IH]; simpl.
  - destruct (comprehension f l2); reflexivity.
  - destruct (f x) as [y|e]; simpl; [|reflexivity]. rewrite IH.
    destruct (comprehension f l1) as [a|e]; simpl; [|reflexivity].
    destruct (comprehension f l2); reflexivity.
Qed.

(** X19.  A monoidal functor is a homomorphism on types and keeps
    identities: the empty type goes to the empty type, [F(s @ t)] is
    [F(s) @ F(t)] (the lookups of [s] come first, and the first one that
    fails decides the error), and [F(Id(t))] is [Id(F(t))]. *)
Theorem functor_ty_monoid (ob_getitem : Ob -> result Ty)
    (box_call : Diagram -> result Diagram) (s t : Ty) :
  functor_ty ob_getitem [] = Ok []
  /\ functor_ty ob_getitem (Ty_tensor s t)
     = (a <- functor_ty ob_getitem s ;;
        b <- functor_ty ob_getitem t ;;
        Ok (Ty_tensor a b))
  /\ (idt <- Id t ;; functor_call ob_getitem box_call idt)
     = (ft <- functor_ty ob_getitem t ;; Id ft).
Proof.
  split; [reflexivity|]. split; [|reflexivity].
  unfold functor_ty, Ty_tensor. rewrite comprehension_app.
  destruct (comprehension ob_getitem s) as [a|e]; simpl; [|reflexivity].
  destruct (comprehension ob_getitem t) as [b|e]; simpl; [|reflexivity].
  rewrite !Ty_sum_app. simpl. rewrite concat_app. reflexivity.
Qed.

Lemma comprehension_singletons (t : Ty) :
  comprehension (fun o : Ob => @Ok Ty [o]) t = Ok (map (fun o => [o]) t).
Proof.
  induction t as [|o t IH]; simpl; [reflexivity|]. rewrite IH. reflexivity.
Qed.

Lemma functor_ty_identity (t : Ty) : functor_ty (fun o => Ok [o]) t = Ok t.
Proof.
  unfold functor_ty. rewrite comprehension_singletons. simpl.
  rewrite Ty_sum_app. simpl. f_equal.
  induction t as [|o t IH]; simpl; [reflexivity|]. rewrite IH. reflexivity.
Qed.

Lemma functor_call_MkDiagram ob_getitem box_call a b bs os :
  functor_call ob_getitem box_call (MkDiagram a b bs os)
  = fdom <- functor_ty ob_getitem a ;;
    result0 <- Id fdom ;;
    functor_loop ob_getitem box_call bs os a result0.
Proof. reflexivity. Qed.

Lemma flattened_MkDiagram a b bs os :
  flattened (MkDiagram a b bs os)
  = MkDiagram a b (flattened_boxes bs os) (flattened_offsets bs os).
Proof. reflexivity. Qed.

Lemma flattened_dom_cod (d : Diagram) :
  dom (flattened d) = dom d /\ cod (flattened d) = cod d.
Proof. destruct d; split; reflexivity. Qed.

Lemma flattened_lengths (d : Diagram) :
  length (boxes (flattened d)) = length (offsets (flattened d)).
Proof.
  induction d as [n a b data dg | a b bs os IH] using Diagram_nested_ind;
    [reflexivity|].
  rewrite flattened_MkDiagram. simpl.
  revert os. induction IH as [|f bs Hf _ IHbs]; intros [|o os]; simpl;
    try reflexivity.
  rewrite !length_app, length_map, Hf, IHbs. reflexivity.
Qed.

Lemma slice_after_app (l m r : Ty) :
  slice (l ++ m ++ r) (Some (len l + len m)) None = r.
Proof. rewrite app_assoc, <- len_app. apply slice_from_app. Qed.

(** The loop of [flatten] along a scan with offsets in range. *)
Lemma flatten_loop (scan : Ty) (bs : list Diagram) (os : list Z) (e : Ty) :
  scans scan bs os e ->
  Forall (fun b => Diagram_flatten b = Ok (flattened b)) bs ->
  forall (a : Ty) (accb : list Diagram) (acco : list Z),
    length accb = length acco ->
    functor_loop (fun o => Ok [o]) (fun f => Ok f) bs os scan
      (MkDiagram a scan accb acco)
    = Ok (MkDiagram a e (accb ++ flattened_boxes bs os)
            (acco ++ flattened_offsets bs os)).
Proof.
  induction 1 as [s | l r box bs os e _ IH]; intros HF a accb acco Hacc.
  - simpl. rewrite !app_nil_r. reflexivity.
  - inversion HF as [|? ? Hbox HF']; subst.
    destruct (flattened_dom_cod box) as [Hd Hc].
    pose proof (flattened_lengths box) as Hfl.
    cbn [functor_loop].
    rewrite slice_to_app, slice_after_app, !functor_ty_identity.
    cbn [bind]. unfold Id. rewrite !Diagram_init_fast by reflexivity.
    cbn [bind]. fold Diagram_flatten. rewrite Hbox. cbn [bind].
    rewrite tensor_valid by (simpl; auto). cbn [bind].
    rewrite tensor_valid by (simpl; rewrite ?length_map; auto). cbn [bind].
    rewrite then_valid
      by (simpl; rewrite ?length_app, ?length_map; simpl; lia).
    simpl dom; simpl cod; simpl boxes; simpl offsets.
    rewrite Hd, Hc, <- !app_assoc, Ty_eqb_refl.
    cbn [bind].
    rewrite (IH HF' a) by (rewrite !length_app, !length_map; simpl; lia).
    simpl. rewrite !app_nil_r, <- !app_assoc. reflexivity.
Qed.

Lemma flattened_atomic (d : Diagram) :
  length (boxes d) = length (offsets d) ->
  forallb is_Box (boxes d) = true ->
  flattened d = d.
Proof.
  destruct d as [n a b data dg | a b bs os]; [reflexivity|]. simpl.
  intros Hlen Hat. f_equal.
  - revert os Hlen Hat. induction bs as [|f bs IH]; intros [|o os];
      simpl; try discriminate; [reflexivity|].
    intros [= Hlen] [Hf Hat]%andb_true_iff.
    destruct f; [|discriminate]. simpl. f_equal. apply IH; assumption.
  - revert os Hlen Hat. induction bs as [|f bs IH]; intros [|o os];
      simpl; try discriminate; [reflexivity|].
    intros [= Hlen] [Hf Hat]%andb_true_iff.
    destruct f; [|discriminate]. simpl. f_equal. apply IH; assumption.
Qed.

Lemma Diagram_flatten_flattened (d : Diagram) :
  deep_well_formed d -> Diagram_flatten d = Ok (flattened d).
Proof.
  induction d as [n a b data dg | a b bs os IH] using Diagram_nested_ind;
    [reflexivity|].
  intros [Hwf Hall].
  unfold Diagram_flatten. rewrite functor_call_MkDiagram.
  rewrite functor_ty_identity. cbn [bind]. unfold Id.
  rewrite Diagram_init_fast by reflexivity. cbn [bind].
  unfold in_range_well_formed in Hwf. apply strict_scan_scans in Hwf.
  simpl in Hwf.
  rewrite (flatten_loop a bs os b Hwf); [reflexivity| |reflexivity].
  clear Hwf. induction IH as [|f bs Hf _ IHbs]; constructor.
  - apply Hf, Hall.
  - apply IHbs, Hall.
Qed.

(** X20.  Flattening a diagram of diagrams that is well formed with
    offsets in range at every level never raises, and returns the diagram
    of the boxes of its boxes, each at its own offset plus the offset of
    the box it was in.  On a diagram whose boxes are all atomic, it
    returns the diagram itself. *)
Theorem Diagram_flatten_spec (d : Diagram) :
  deep_well_formed d ->
  Diagram_flatten d = Ok (flattened d)
  /\ (forallb is_Box (boxes d) = true -> Diagram_flatten d = Ok d).
Proof.
  intros Hdeep.
  pose proof (Diagram_flatten_flattened d Hdeep) as H.
  split; [exact H|]. intros Hat. rewrite H. f_equal.
  apply flattened_atomic; [|exact Hat].
  destruct d as [n a b data dg | a b bs os]; [reflexivity|].
  destruct Hdeep as [Hwf _]. apply strict_scan_scans in Hwf.
  eapply scans_lengths, Hwf.
Qed.

(** A diagram of two layers, and the doctest of [slice] in short:
    [f0 @ Id(y) >> f1 @ f1], flattened. *)
Lemma Diagram_flatten_spec_witness :
  let f0 := Box "f0" [mkOb "x"] [mkOb "y"] None false in
  let f1 := Box "f1" [mkOb "y"] [mkOb "x"] None false in
  let xy := [mkOb "x"; mkOb "y"] in
  let yy := [mkOb "y"; mkOb "y"] in
  let xx := [mkOb "x"; mkOb "x"] in
  let d := MkDiagram xy xx
             [MkDiagram xy yy [f0] [0]; MkDiagram yy xx [f1; f1] [0; 1]]
             [0; 0] in
  Diagram_flatten d = Ok (MkDiagram xy xx [f0; f1; f1] [0; 0; 1]).
Proof.
  intros f0 f1 xy yy xx d.
  refine (proj1 (Diagram_flatten_spec d _)).
  simpl. repeat split.
Defined.

Lemma flattened_layers (ls : list Diagram) :
  Forall (fun l => flattened l = l) ls ->
  flattened_boxes ls (repeat 0 (length ls)) = concat (map boxes ls)
  /\ flattened_offsets ls (repeat 0 (length ls)) = concat (map offsets ls).
Proof.
  induction 1 as [|l ls Hl _ [IHb IHo]]; simpl; [auto|].
  rewrite Hl, map_add_0, IHb, IHo. auto.
Qed.

Lemma forallb_concat_layers (ls : list Diagram) :
  forallb is_Box (concat (map boxes ls)) = true ->
  Forall (fun l => forallb is_Box (boxes l) = true) ls.
Proof.
  induction ls as [|l ls IH]; simpl; [constructor|].
  rewrite forallb_app. intros [Hl Hrest]%andb_true_iff.
  constructor; auto.
Qed.

Lemma forallb_Permutation {A : Type} (f : A -> bool) (l l' : list A) :
  Permutation l l' -> forallb f l = true -> forallb f l' = true.
Proof.
  intros Hp. rewrite !forallb_forall. intros H a Ha.
  apply H. eapply Permutation_in; [apply Permutation_sym, Hp | exact Ha].
Qed.

Lemma deep_well_formed_atomic (l : Diagram) :
  in_range_well_formed l -> forallb is_Box (boxes l) = true ->
  deep_well_formed l.
Proof.
  destruct l as [n a b data dg | a b bs os]; [constructor|].
  intros Hwf Hat. split; [exact Hwf|]. simpl in Hat. clear Hwf.
  induction bs as [|f bs IH]; [constructor|].
  simpl in Hat. apply andb_true_iff in Hat as [Hf Hat].
  split; [destruct f; [constructor | discriminate] | apply IH, Hat].
Qed.

(** X21.  Slicing and then flattening a diagram of atomic boxes that is
    well formed with offsets in range gives back a diagram of its boxes:
    neither step raises, and the result has the domain and the codomain of
    the diagram, its boxes in another order, and is again well formed with
    offsets in range. *)
Theorem flatten_slice (fuel : nat) (d : Diagram) :
  in_range_well_formed d ->
  forallb is_Box (boxes d) = true ->
  (Z.to_nat (Diagram_len d) < fuel)%nat ->
  exists s g,
    Diagram_slice fuel d = Some (Ok s)
    /\ Diagram_flatten s = Ok g
    /\ dom g = dom d /\ cod g = cod d
    /\ Permutation (boxes d) (boxes g)
    /\ in_range_well_formed g /\ well_formed g.
Proof.
  intros Hwf Hat Hfuel.
  assert (Hv : length (boxes d) = length (offsets d))
    by (apply strict_scan_scans in Hwf; eapply scans_lengths, Hwf).
  destruct (Diagram_slice_result fuel d Hv Hfuel)
    as (g0 & slices & c & Hs & Hinv & Hcb & Hco).
  destruct Hinv as (_ & Hd & Hc & Hp & Hw & _ & _ & _ & Hok & Hch).
  specialize (Hw Hwf). unfold in_range_well_formed in Hw.
  apply strict_scan_scans in Hw. rewrite Hd, Hc in Hw.
  pose proof Hw as Hw0. rewrite <- Hcb, <- Hco in Hw.
  destruct (scans_layers slices _ _ _ Hok Hch Hw) as (_ & Hls & Hsc).
  assert (Hatl : Forall (fun l => forallb is_Box (boxes l) = true) slices).
  { apply forallb_concat_layers. rewrite Hcb.
    eapply forallb_Permutation; eassumption. }
  set (s := MkDiagram (dom d) (cod d) slices (repeat 0 (length slices))).
  assert (Hdeep : deep_well_formed s).
  { split; [unfold in_range_well_formed; apply strict_scan_scans; exact Hsc|].
    clear - Hls Hatl. induction slices as [|l ls IH]; [constructor|].
    inversion Hls; inversion Hatl; subst.
    split; [apply deep_well_formed_atomic; assumption | apply IH; assumption]. }
  assert (Hflat : Forall (fun l => flattened l = l) slices).
  { clear - Hok Hatl. induction slices as [|l ls IH]; [constructor|].
    inversion Hok as [|? ? (_ & Hvl & _) Hok']; inversion Hatl; subst.
    constructor; [apply flattened_atomic; assumption | apply IH; assumption]. }
  destruct (flattened_layers slices Hflat) as [Hfb Hfo].
  assert (Hg : in_range_well_formed
                 (MkDiagram (dom d) (cod d) (boxes g0) (offsets g0)))
    by (unfold in_range_well_formed; apply strict_scan_scans; exact Hw0).
  exists s, (MkDiagram (dom d) (cod d) (boxes g0) (offsets g0)).
  split; [exact Hs|]. split.
  - rewrite (Diagram_flatten_flattened s Hdeep).
    unfold s. rewrite flattened_MkDiagram, Hfb, Hfo, Hcb, Hco. reflexivity.
  - repeat split; try assumption.
    apply in_range_well_formed_well_formed, Hg.
Qed.

(** [f @ g]: one layer, which holds [g] before [f]. *)
Lemma flatten_slice_witness :
  let f := Box "f" [mkOb "x"] [mkOb "y"] None false in
  let g := Box "g" [mkOb "y"] [mkOb "x"] None false in
  let d := MkDiagram [mkOb "x"; mkOb "y"] [mkOb "y"; mkOb "x"]
             [f; g] [0; 1] in
  exists s g',
    Diagram_slice 3 d = Some (Ok s)
    /\ Diagram_flatten s = Ok g'
    /\ dom g' = dom d /\ cod g' = cod d
    /\ Permutation (boxes d) (boxes g')
    /\ in_range_well_formed g' /\ well_formed g'.
Proof.
  intros f g d. apply (flatten_slice 3 d eq_refl eq_refl).
  vm_compute. lia.
Defined.

(** ** Equality *)

Lemma Ty_eqb_sym (s t : Ty) : Ty_eqb s t = Ty_eqb t s.
Proof.
  destruct (Ty_eqb s t) eqn:H1, (Ty_eqb t s) eqn:H2; try reflexivity.
  - apply Ty_eqb_eq in H1. subst. rewrite Ty_eqb_refl in H2. discriminate.
  - apply Ty_eqb_eq in H2. subst. rewrite Ty_eqb_refl in H1. discriminate.
Qed.

Lemma offsets_eqb_sym (os os' : list Z) :
  offsets_eqb os os' = offsets_eqb os' os.
Proof.
  revert os'; induction os as [|o os IH]; intros [|o' os']; simpl;
    try reflexivity.
  rewrite Z.eqb_sym, IH. reflexivity.
Qed.

Lemma Box_signature_eqb_sym n a b dg n' a' b' dg' :
  Box_signature_eqb n a b dg n' a' b' dg'
  = Box_signature_eqb n' a' b' dg' n a b dg.
Proof.
  unfold Box_signature_eqb.
  rewrite String.eqb_sym, (Ty_eqb_sym a), (Ty_eqb_sym b).
  destruct dg, dg'; reflexivity.
Qed.

(** X22.  The equality [==] of diagrams is reflexive and symmetric, and
    an atomic box is equal to the diagram made of that box alone at offset
    0, whatever domain and codomain this diagram was given. *)
Theorem Diagram_eq_laws (d d' : Diagram) :
  Diagram_eq d d = true
  /\ Diagram_eq d d' = Diagram_eq d' d
  /\ (is_Box d = true ->
      forall a b, Diagram_eq d (MkDiagram a b [d] [0]) = true).
Proof.
  split; [apply Diagram_eq_refl|]. split.
  - revert d'.
    induction d as [n a b data dg | a b bs os IH] using Diagram_nested_ind;
      intros [n' a' b' data' dg' | a' b' bs' os'].
    + simpl. apply Box_signature_eqb_sym.
    + reflexivity.
    + reflexivity.
    + simpl. rewrite (Ty_eqb_sym a), (Ty_eqb_sym b), (offsets_eqb_sym os).
      do 2 f_equal. clear os os'. revert bs'.
      induction IH as [|f bs Hf _ IHbs]; intros [|f' bs']; try reflexivity.
      rewrite Hf, IHbs. reflexivity.
  - destruct d as [n a b data dg | ? ? ? ?]; [|discriminate].
    intros _ a' b'. simpl. rewrite Box_signature_eqb_refl. reflexivity.
Qed.

(** [f == Diagram(Ty('x', 'y'), Ty('z'), [f], [0])], from the doctests. *)
Lemma Diagram_eq_laws_witness :
  let f := Box "f" [mkOb "x"; mkOb "y"] [mkOb "z"] (Some "42"%string) false in
  Diagram_eq f (MkDiagram [mkOb "x"; mkOb "y"] [mkOb "z"] [f] [0]) = true.
Proof.
  intros f.
  exact (proj2 (proj2 (Diagram_eq_laws f f)) eq_refl
           [mkOb "x"; mkOb "y"] [mkOb "z"]).
Defined.

(** ** The spiral, for every size *)

Lemma range_succ (n : nat) :
  range (Z.of_nat (S n)) = range (Z.of_nat n) ++ [Z.of_nat n].
Proof.
  unfold range. rewrite !Nat2Z.id, seq_S, map_app. reflexivity.
Qed.

Lemma for_each_app {A S : Type} (l1 l2 : list A) (s : S)
    (body : S -> A -> result S) :
  for_each (l1 ++ l2) s body
  = s' <- for_each l1 s body ;; for_each l2 s' body.
Proof.
  revert s; induction l1 as [|a l1 IH]; intros s; simpl; [reflexivity|].
  destruct (body s a); simpl; [apply IH | reflexivity].
Qed.

Lemma Ty_pow_x (n : nat) :
  Ty_pow Spiral.x (Z.of_nat n) = repeat (mkOb "x") n.
Proof.
  unfold Ty_pow. rewrite Nat2Z.id, Ty_sum_app. simpl.
  induction n as [|n IH]; simpl; [reflexivity|]. rewrite IH. reflexivity.
Qed.

Lemma whisker_Box (a b : Ty) (box : Diagram) :
  is_Box box = true ->
  whisker a box b
  = Ok (MkDiagram (a ++ dom box ++ b) (a ++ cod box ++ b) [box] [len a])
  /\ in_range_well_formed
       (MkDiagram (a ++ dom box ++ b) (a ++ cod box ++ b) [box] [len a]).
Proof.
  destruct box as [n x y data dg|]; [intros _ | discriminate].
  split.
  - unfold whisker, Id. rewrite Diagram_init_fast by reflexivity.
    cbn [bind]. rewrite tensor_valid by reflexivity. cbn [bind].
    rewrite Diagram_init_fast by reflexivity. cbn [bind].
    rewrite tensor_valid by reflexivity. simpl.
    rewrite <- !app_assoc. reflexivity.
  - unfold in_range_well_formed. apply strict_scan_scans. simpl.
    apply (scans_single a b (Box n x y data dg)).
Qed.

Lemma repeat_snoc {A : Type} (a : A) (n : nat) :
  repeat a n ++ [a] = repeat a (S n).
Proof.
  induction n as [|n IH]; simpl; [reflexivity|]. rewrite IH. reflexivity.
Qed.

(** One more layer [Id(a) @ box @ Id(b)] after a diagram that ends on
    [a ++ box.dom ++ b]. *)
Lemma then_whisker (r : Diagram) (a b : Ty) (box : Diagram) :
  is_Box box = true ->
  in_range_well_formed r ->
  cod r = a ++ dom box ++ b ->
  exists r',
    (layer <- whisker a box b ;; then_ r layer) = Ok r'
    /\ dom r' = dom r /\ cod r' = a ++ cod box ++ b
    /\ boxes r' = boxes r ++ [box]
    /\ in_range_well_formed r'.
Proof.
  intros Hbox Hr Hcod.
  destruct (whisker_Box a b box Hbox) as [Hw Hwf].
  assert (Hv : length (boxes r) = length (offsets r))
    by (apply strict_scan_scans in Hr; eapply scans_lengths, Hr).
  rewrite Hw. cbn [bind].
  assert (Ht : then_ r (MkDiagram (a ++ dom box ++ b) (a ++ cod box ++ b)
                          [box] [len a])
               = Ok (MkDiagram (dom r) (a ++ cod box ++ b)
                       (boxes r ++ [box]) (offsets r ++ [len a]))).
  { rewrite then_valid by (auto; reflexivity). simpl.
    rewrite Hcod, Ty_eqb_refl. reflexivity. }
  eexists. split; [exact Ht|]. repeat split.
  eapply then_preserves; [exact Hr | exact Hwf | exact Ht].
Qed.

Lemma spiral_caps (n : nat) :
  exists r,
    for_each (range (Z.of_nat n)) Spiral.unit
      (fun result i =>
         layer <- whisker (Ty_pow Spiral.x i) Spiral.cap
                          (Ty_pow Spiral.x (i + 1)) ;;
         then_ result layer) = Ok r
    /\ dom r = [] /\ cod r = repeat (mkOb "x") (2 * n + 1)
    /\ boxes r = Spiral.unit :: repeat Spiral.cap n
    /\ in_range_well_formed r.
Proof.
  induction n as [|n (r & Hr & Hd & Hc & Hb & Hwf)].
  - exists Spiral.unit. repeat split.
  - rewrite range_succ, for_each_app, Hr. cbn [bind for_each].
    replace (Z.of_nat n + 1) with (Z.of_nat (S n)) by lia.
    rewrite !Ty_pow_x.
    destruct (then_whisker r (repeat (mkOb "x") n)
                (repeat (mkOb "x") (S n)) Spiral.cap eq_refl Hwf)
      as (r' & Hr' & Hd' & Hc' & Hb' & Hwf').
    { rewrite Hc. simpl dom. cbn [app].
      rewrite <- repeat_app. f_equal. lia. }
    exists r'. rewrite Hr'. cbn [bind].
    split; [reflexivity|]. split; [congruence|]. split; [|split].
    + rewrite Hc'. change (cod Spiral.cap) with (repeat (mkOb "x") 2).
      rewrite <- !repeat_app. f_equal. lia.
    + rewrite Hb', Hb. simpl. rewrite repeat_snoc. reflexivity.
    + exact Hwf'.
Qed.

Lemma spiral_cups (n : nat) (r0 : Diagram) :
  in_range_well_formed r0 ->
  cod r0 = repeat (mkOb "x") (2 * n) ->
  forall k, (k <= n)%nat ->
    exists r,
      for_each (range (Z.of_nat k)) r0
        (fun result i =>
           layer <- whisker (Ty_pow Spiral.x (Z.of_nat n - i - 1)) Spiral.cup
                            (Ty_pow Spiral.x (Z.of_nat n - i - 1)) ;;
           then_ result layer) = Ok r
      /\ dom r = dom r0 /\ cod r = repeat (mkOb "x") (2 * (n - k))
      /\ boxes r = boxes r0 ++ repeat Spiral.cup k
      /\ in_range_well_formed r.
Proof.
  intros Hwf0 Hc0. induction k as [|k IH]; intros Hk.
  - exists r0. rewrite Nat.sub_0_r, app_nil_r. repeat split; assumption.
  - destruct IH as (r & Hr & Hd & Hc & Hb & Hwf); [lia|].
    rewrite range_succ, for_each_app, Hr. cbn [bind for_each].
    replace (Z.of_nat n - Z.of_nat k - 1) with (Z.of_nat (n - S k)) by lia.
    rewrite !Ty_pow_x.
    destruct (then_whisker r (repeat (mkOb "x") (n - S k))
                (repeat (mkOb "x") (n - S k)) Spiral.cup eq_refl Hwf)
      as (r' & Hr' & Hd' & Hc' & Hb' & Hwf').
    { rewrite Hc. change (dom Spiral.cup) with (repeat (mkOb "x") 2).
      rewrite <- !repeat_app. f_equal. lia. }
    exists r'. rewrite Hr'. cbn [bind].
    split; [reflexivity|]. split; [congruence|]. split; [|split].
    + rewrite Hc'. simpl cod. simpl app.
      rewrite <- repeat_app. f_equal. lia.
    + rewrite Hb', Hb, <- app_assoc, repeat_snoc. reflexivity.
    + exact Hwf'.
Qed.

(** X23.  For every size [n], [_spiral(n)] never raises: it returns a
    diagram from the empty type to the empty type whose boxes are the
    unit, [n] caps, the counit (at position [n + 1]) and [n] cups, and
    which is well formed with offsets in range. *)
Theorem spiral_shape (n : nat) :
  exists d,
    _spiral (Z.of_nat n) = Ok d
    /\ dom d = [] /\ cod d = []
    /\ boxes d = Spiral.unit :: repeat Spiral.cap n
                   ++ Spiral.counit :: repeat Spiral.cup n
    /\ nth_error (boxes d) 0 = Some Spiral.unit
    /\ nth_error (boxes d) (n + 1) = Some Spiral.counit
    /\ Diagram_len d = 2 * Z.of_nat n + 2
    /\ in_range_well_formed d /\ well_formed d.
Proof.
  unfold _spiral.
  destruct (spiral_caps n) as (r1 & Hr1 & Hd1 & Hc1 & Hb1 & Hwf1).
  rewrite Hr1. cbn [bind]. rewrite !Ty_pow_x.
  destruct (then_whisker r1 (repeat (mkOb "x") n) (repeat (mkOb "x") n)
              Spiral.counit eq_refl Hwf1)
    as (r2 & Hr2 & Hd2 & Hc2 & Hb2 & Hwf2).
  { rewrite Hc1. change (dom Spiral.counit) with (repeat (mkOb "x") 1).
    rewrite <- !repeat_app. f_equal. lia. }
  destruct (whisker (repeat (mkOb "x") n) Spiral.counit
              (repeat (mkOb "x") n)) as [l|e]; [|discriminate Hr2].
  cbn [bind] in Hr2 |- *. rewrite Hr2. cbn [bind].
  destruct (spiral_cups n r2 Hwf2) with (k := n)
    as (d & Hd & Hdd & Hcd & Hbd & Hwfd).
  { rewrite Hc2. simpl cod. simpl app. rewrite <- repeat_app.
    f_equal. lia. }
  { lia. }
  exists d. split; [exact Hd|].
  assert (Hboxes : boxes d = Spiral.unit :: repeat Spiral.cap n
                               ++ Spiral.counit :: repeat Spiral.cup n).
  { rewrite Hbd, Hb2, Hb1. simpl. rewrite <- app_assoc. reflexivity. }
  split; [congruence|]. split; [rewrite Hcd, Nat.sub_diag; reflexivity|].
  split; [exact Hboxes|]. rewrite Hboxes.
  split; [reflexivity|]. split; [|split; [|split]].
  - replace (n + 1)%nat with (S n) by lia. cbn [nth_error].
    rewrite nth_error_app2 by (rewrite repeat_length; lia).
    rewrite repeat_length, Nat.sub_diag. reflexivity.
  - unfold Diagram_len, len. rewrite Hboxes.
    cbn [length]. rewrite length_app, repeat_length.
    cbn [length]. rewrite repeat_length. lia.
  - exact Hwfd.
  - apply in_range_well_formed_well_formed, Hwfd.
Qed.
